(** * The frame pipeline of video-intelligence: prefetcher, frames, driver

    A shallow embedding of
      - [src/framework/prefetcher.py]   (module [prefetcher], and for the
        lock, [prefetcher.lock]),
      - [src/framework/frames.py]       (module [frames]),
      - [src/demo/robot_frames.py]      (module [robot_frames]),
      - [src/framework/process_frames.py] (modules [driver], [pipeline]),
      - [src/framework/utils.py]        (module [utils]),
      - [src/demo/robot_analysis_function.py] (module
        [robot_analysis_function]),
      - [src/framework/split_video.py]  (module [split_video]),
    followed by the properties of the specification that concern them.

    Python values are modelled as follows: [int] is [Z], a [dict] is a
    [gmap], a [set] is a [gset], a [list] is a [list], [None] inside a JSON
    record is [JNull], and a call that may raise returns an [outcome]. *)

From Stdlib Require Import QArith Ascii.
From stdpp Require Import base gmap sets list strings pretty.

Open Scope Z_scope.

Set Warnings "-clear-no-such-hyp,-register-all".

(** ** Python preliminaries *)

(** The exceptions that the modelled code raises or lets through. *)
Inductive exn :=
  | ValueError (msg : string)
  | IndexError (msg : string)
  | KeyError (msg : string)
  | FileNotFoundError (msg : string)
  | OtherError (msg : string).

(** [str(e)] *)
Definition exn_str (e : exn) : string :=
  match e with
  | ValueError m | IndexError m | KeyError m
  | FileNotFoundError m | OtherError m => m
  end.

Inductive outcome (A : Type) :=
  | Ok (a : A)
  | Raise (e : exn).
Arguments Ok {A} a.
Arguments Raise {A} e.

(** [l[start:stop]] for an integer [start] and [stop]: a negative bound
    counts from the end, and both bounds are clamped to [0 .. len(l)]. *)
Definition slice_bound (len i : Z) : Z :=
  if i <? 0 then Z.max (i + len) 0 else Z.min i len.

Definition py_slice {A : Type} (l : list A) (start stop : Z) : list A :=
  let len := Z.of_nat (length l) in
  let lo := slice_bound len start in
  let hi := slice_bound len stop in
  take (Z.to_nat (hi - lo)) (drop (Z.to_nat lo) l).

(** Remove one occurrence (the first) of [x]. *)
Fixpoint remove_one (x : Z) (l : list Z) : list Z :=
  match l with
  | [] => []
  | y :: l' => if decide (x = y) then l' else y :: remove_one x l'
  end.

(** ** [src/framework/prefetcher.py] *)

Module prefetcher.
Section FramePrefetcher.

(** What the action on a frame returns ([Any] in the source). *)
Context {R : Type}.

(** The dictionary [{"index": index, "result": result}]. *)
Record FrameResult := { index : Z; result : R }.

(** [self.action_fn]: one of the two lambdas of [__init__]. *)
Inductive action_kind := process_frame | update_frame.

(** [concurrent.futures.ThreadPoolExecutor], as far as the prefetcher uses
    it: the pool size and the futures submitted and not yet done, each
    named by the argument of its [_get_frame] call.  Which of the pending
    futures finishes next is not decided here: the pool may start them in
    any order and any of them may be the next to complete. *)
Record ThreadPoolExecutor := { max_workers : Z; pending : list Z }.

(** The constructor of the standard library refuses a pool without
    workers. *)
Definition ThreadPoolExecutor_new (num_workers : Z) : outcome ThreadPoolExecutor :=
  if num_workers <=? 0
  then Raise (ValueError "max_workers must be greater than 0")
  else Ok {| max_workers := num_workers; pending := [] |}.

Record FramePrefetcher := {
  buffer_size : Z;
  current_index : nat;
  indicies : list Z;
  buffer : gmap Z FrameResult;
  action_fn : action_kind;
  in_progress : gset Z;
  executor : ThreadPoolExecutor;
  printed : list string;
}.

(** Field updates. *)
Definition set_buffer (b : gmap Z FrameResult) (p : FramePrefetcher) :=
  {| buffer_size := buffer_size p; current_index := current_index p;
     indicies := indicies p; buffer := b; action_fn := action_fn p;
     in_progress := in_progress p; executor := executor p;
     printed := printed p |}.

Definition set_in_progress (s : gset Z) (p : FramePrefetcher) :=
  {| buffer_size := buffer_size p; current_index := current_index p;
     indicies := indicies p; buffer := buffer p; action_fn := action_fn p;
     in_progress := s; executor := executor p; printed := printed p |}.

Definition set_pending (l : list Z) (p : FramePrefetcher) :=
  {| buffer_size := buffer_size p; current_index := current_index p;
     indicies := indicies p; buffer := buffer p; action_fn := action_fn p;
     in_progress := in_progress p;
     executor := {| max_workers := max_workers (executor p); pending := l |};
     printed := printed p |}.

Definition set_current_index (n : nat) (p : FramePrefetcher) :=
  {| buffer_size := buffer_size p; current_index := n;
     indicies := indicies p; buffer := buffer p; action_fn := action_fn p;
     in_progress := in_progress p; executor := executor p;
     printed := printed p |}.

Definition print (line : string) (p : FramePrefetcher) :=
  {| buffer_size := buffer_size p; current_index := current_index p;
     indicies := indicies p; buffer := buffer p; action_fn := action_fn p;
     in_progress := in_progress p; executor := executor p;
     printed := printed p ++ [line] |}.

(** *** [_schedule_prefetch] *)

(** [self.indicies[self.current_index : self.current_index + self.buffer_size]] *)
Definition window (p : FramePrefetcher) : list Z :=
  py_slice (indicies p) (Z.of_nat (current_index p))
           (Z.of_nat (current_index p) + buffer_size p).

Definition needed_indices (p : FramePrefetcher) : gset Z :=
  list_to_set (window p).

Definition indices_to_fetch (p : FramePrefetcher) : gset Z :=
  needed_indices p ∖ dom (buffer p) ∖ in_progress p.

(** The body of the [for idx in indices_to_fetch] loop: mark the index and
    hand [_get_frame idx] to the pool. *)
Definition submit (p : FramePrefetcher) (idx : Z) : FramePrefetcher :=
  set_pending (pending (executor p) ++ [idx])
    (set_in_progress ({[idx]} ∪ in_progress p) p).

(** The state in which [_schedule_prefetch] leaves the prefetcher when
    every future it submits is still queued or running at the time its
    callback is registered.  What the call does when a future is done by
    then, and whether it returns at all, is [lock._schedule_prefetch]
    below; [__init__] and [get_frame] are written on the same footing. *)
Definition _schedule_prefetch (p : FramePrefetcher) : FramePrefetcher :=
  foldl submit p (elements (indices_to_fetch p)).

(** *** [__init__] *)

Definition unknown_action_message (action : string) : string :=
  "Action must be one of 'process' or 'update', got " +:+ action.

Definition select_action (action : string) : outcome action_kind :=
  if decide (action = "process") then Ok process_frame
  else if decide (action = "update") then Ok update_frame
  else Raise (ValueError (unknown_action_message action)).

Definition __init__ (indicies : list Z) (buffer_size num_workers : Z)
    (action : string) : outcome FramePrefetcher :=
  match select_action action with
  | Raise e => Raise e
  | Ok fn =>
      match ThreadPoolExecutor_new num_workers with
      | Raise e => Raise e
      | Ok pool =>
          Ok (_schedule_prefetch
                {| buffer_size := buffer_size; current_index := 0%nat;
                   indicies := indicies; buffer := ∅; action_fn := fn;
                   in_progress := ∅; executor := pool; printed := [] |})
      end
  end.

(** *** [_get_frame] and [_store_frame_callback] *)

(** [_get_frame index], run by a worker: [acted] is what constructing the
    frame and calling the action on it came to. *)
Definition _get_frame (idx : Z) (acted : outcome R) : outcome FrameResult :=
  match acted with
  | Ok r => Ok {| index := idx; result := r |}
  | Raise e => Raise e
  end.

(** The done-callback.  It returns the prefetcher and the exception it
    re-raises, if any; a done-callback is called by the future, which keeps
    what the callback raises to itself. *)
Definition _store_frame_callback (p : FramePrefetcher)
    (future : outcome FrameResult) : FramePrefetcher * option exn :=
  match future with
  | Ok res =>
      let p1 := set_buffer (<[index res := res]> (buffer p)) p in
      if decide (index res ∈ in_progress p1)
      then (set_in_progress (in_progress p1 ∖ {[index res]}) p1, None)
      else
        let e := KeyError (pretty (index res)) in
        (print ("Error fetching frame: " +:+ exn_str e) p1, Some e)
  | Raise e => (print ("Error fetching frame: " +:+ exn_str e) p, Some e)
  end.

(** A pending future completes: the worker has run [_get_frame idx] and
    the callback runs on its outcome. *)
Definition worker_done (p : FramePrefetcher) (idx : Z) (acted : outcome R)
    : FramePrefetcher :=
  fst (_store_frame_callback
         (set_pending (remove_one idx (pending (executor p))) p)
         (_get_frame idx acted)).

(** *** [get_frame] *)

Definition out_of_order_message (requested expected : Z) : string :=
  "Index requested " +:+ pretty requested +:+
  " is out of order. This class expects frames to be consumed in the order specified by indicies passed to the constructor. It expected "
  +:+ pretty expected +:+ " to be requested next.".

(** One evaluation of [get_frame] up to and including one test of the
    polling loop: the call raises, finds the buffer without the awaited
    entry (it sleeps and tests again), or pops the entry, advances,
    schedules and returns. *)
Inductive get_result :=
  | Raised (e : exn)
  | Waiting
  | Returned (data : FrameResult) (p' : FramePrefetcher).

Definition get_frame (p : FramePrefetcher) (idx : Z) : get_result :=
  match indicies p !! current_index p with
  | None => Raised (IndexError "list index out of range")
  | Some expected =>
      if decide (idx ≠ expected)
      then Raised (ValueError (out_of_order_message idx expected))
      else
        match buffer p !! expected with
        | None => Waiting
        | Some data =>
            Returned data
              (_schedule_prefetch
                 (set_current_index (S (current_index p))
                    (set_buffer (delete expected (buffer p)) p)))
        end
  end.

End FramePrefetcher.
Arguments FrameResult : clear implicits.
Arguments FramePrefetcher : clear implicits.
Arguments get_result : clear implicits.

(** *** The consumer loop and the workers

    The prefetcher is driven by the loop
    [for index in indices: prefetcher.get_frame(index)] of [process_frames]
    and [warm_up_frame_class], while the workers of the pool complete the
    pending futures.  Every access to [buffer] and [in_progress] is made
    under [self.lock], so the run is an interleaving of two kinds of
    events: a pending future completes (and its callback runs), or the
    consumer evaluates [get_frame] once more.  Here a future completes
    after its callback has been registered; a future that is done earlier
    is the matter of [lock] below.  [get_frame] releases the lock between
    taking the entry and scheduling; a callback that runs in between leads
    to the state it leads to when it runs just before the call
    ([completion_inside_get_frame] below), so a returning [get_frame] is
    one event. *)
Section Interleaving.
Context {R : Type}.

Record system := {
  pf : FramePrefetcher R;
  todo : list Z;                       (* what the loop has still to request *)
  delivered : list (FrameResult R);    (* what [get_frame] has returned so far *)
  raised : option exn;                 (* the exception that ended the loop *)
}.

Definition start (p : FramePrefetcher R) (indices : list Z) : system :=
  {| pf := p; todo := indices; delivered := []; raised := None |}.

Inductive event :=
  | WorkerDone (idx : Z) (acted : outcome R)
  | ConsumerPoll.

Definition step (s : system) (ev : event) : option system :=
  match ev with
  | WorkerDone idx acted =>
      if decide (idx ∈ pending (executor (pf s)))
      then Some {| pf := worker_done (pf s) idx acted; todo := todo s;
                   delivered := delivered s; raised := raised s |}
      else None
  | ConsumerPoll =>
      match raised s, todo s with
      | Some _, _ => Some s
      | None, [] => Some s
      | None, idx :: rest =>
          match get_frame (pf s) idx with
          | Raised e =>
              Some {| pf := pf s; todo := todo s; delivered := delivered s;
                      raised := Some e |}
          | Waiting => Some s
          | Returned data p' =>
              Some {| pf := p'; todo := rest;
                      delivered := delivered s ++ [data]; raised := None |}
          end
      end
  end.

Fixpoint run (s : system) (tr : list event) : option system :=
  match tr with
  | [] => Some s
  | ev :: tr' =>
      match step s ev with
      | Some s' => run s' tr'
      | None => None
      end
  end.

(** No worker task of the trace fails. *)
Definition succeeds (ev : event) : bool :=
  match ev with
  | WorkerDone _ (Raise _) => false
  | _ => true
  end.

(** A pool picks the pending future it completes next: the one at
    position [choice] modulo the number of pending futures. *)
Definition pick (choice : nat) (l : list Z) : option Z :=
  l !! (choice `mod` length l)%nat.

End Interleaving.
Arguments system : clear implicits.
Arguments event : clear implicits.

(** *** The lock

    [self.lock] is a [threading.Lock]: a thread that asks for it while it
    holds it waits for ever.  [_schedule_prefetch] holds the lock while it
    submits a task and registers [_store_frame_callback] on its future, and
    [Future.add_done_callback] calls the callback at once, in the calling
    thread, when the future is already done.  The callback of a task that
    has returned then asks for the lock that its own thread holds: the call
    of [_schedule_prefetch] never returns, and neither does the [__init__]
    or the [get_frame] that made it.  The callback of a task that has
    raised prints and raises again before it asks for the lock, and
    [add_done_callback] keeps what a callback raises to itself.

    The functions of this module take what [add_done_callback] finds as an
    argument. *)
Module lock.
Section Lock.
Context {R : Type}.

(** What [add_done_callback] finds for the future of an index submitted in
    one call of [_schedule_prefetch]: the task is still queued or running
    ([None]), or it is done, with what the action came to. *)
Definition timing := Z → option (outcome R).

(** How a call ends: it returns, it raises, or its thread waits for ever
    for the lock it holds, with the prefetcher left as [p]. *)
Inductive ending (A : Type) :=
  | Returns (a : A)
  | Raises (e : exn)
  | Deadlock (p : FramePrefetcher R).
Arguments Returns {A} a.
Arguments Raises {A} e.
Arguments Deadlock {A} p.

(** The loop [for idx in indices_to_fetch] under [with self.lock]. *)
Fixpoint schedule_loop (found : timing) (p : FramePrefetcher R)
    (to_fetch : list Z) : ending (FramePrefetcher R) :=
  match to_fetch with
  | [] => Returns p
  | idx :: rest =>
      let p1 := submit p idx in
      match found idx with
      | None => schedule_loop found p1 rest     (* the callback is registered *)
      | Some acted =>
          (* the future is done: [_store_frame_callback] runs here *)
          let p2 := set_pending (remove_one idx (pending (executor p1))) p1 in
          match _get_frame idx acted with
          | Ok _ => Deadlock p2                 (* [with self.lock] *)
          | Raise e =>
              schedule_loop found (_store_frame_callback p2 (Raise e)).1 rest
          end
      end
  end.

Definition _schedule_prefetch (found : timing) (p : FramePrefetcher R)
    : ending (FramePrefetcher R) :=
  schedule_loop found p (elements (indices_to_fetch p)).

Definition __init__ (found : timing) (indicies : list Z)
    (buffer_size num_workers : Z) (action : string)
    : ending (FramePrefetcher R) :=
  match select_action action with
  | Raise e => Raises e
  | Ok fn =>
      match ThreadPoolExecutor_new num_workers with
      | Raise e => Raises e
      | Ok pool =>
          _schedule_prefetch found
            {| buffer_size := buffer_size; current_index := 0%nat;
               indicies := indicies; buffer := ∅; action_fn := fn;
               in_progress := ∅; executor := pool; printed := [] |}
      end
  end.

(** One evaluation of [get_frame], as [prefetcher.get_frame]; [Blocked]:
    the entry is taken, the cursor advanced, and the scheduling step does
    not return. *)
Inductive get_result :=
  | Raised (e : exn)
  | Waiting
  | Returned (data : FrameResult R) (p' : FramePrefetcher R)
  | Blocked (p' : FramePrefetcher R).

Definition get_frame (found : timing) (p : FramePrefetcher R) (idx : Z)
    : get_result :=
  match indicies p !! current_index p with
  | None => Raised (IndexError "list index out of range")
  | Some expected =>
      if decide (idx ≠ expected)
      then Raised (ValueError (out_of_order_message idx expected))
      else
        match buffer p !! expected with
        | None => Waiting
        | Some data =>
            match _schedule_prefetch found
                    (set_current_index (S (current_index p))
                       (set_buffer (delete expected (buffer p)) p)) with
            | Returns p' => Returned data p'
            | Raises e => Raised e
            | Deadlock p' => Blocked p'
            end
        end
  end.

(** The consumer loop and the workers, as above, with the lock: [stuck]
    tells that the thread of the consumer waits for the lock it holds.
    Then the lock is never released: the consumer makes no step, the
    callback of a task that returns waits for ever and stores nothing, and
    the callback of a task that raises still prints. *)
Record state := { sys : system R; stuck : bool }.

Definition start (p : FramePrefetcher R) (indices : list Z) : state :=
  {| sys := prefetcher.start p indices; stuck := false |}.

Inductive event :=
  | WorkerDone (idx : Z) (acted : outcome R)
  | ConsumerPoll (found : timing).

Definition with_pf (p : FramePrefetcher R) (s : system R) : system R :=
  {| pf := p; todo := todo s; delivered := delivered s; raised := raised s |}.

Definition step (s : state) (ev : event) : option state :=
  match ev with
  | WorkerDone idx acted =>
      if decide (idx ∈ pending (executor (pf (sys s))))
      then
        if stuck s
        then
          let p2 := set_pending (remove_one idx (pending (executor (pf (sys s)))))
                      (pf (sys s)) in
          match _get_frame idx acted with
          | Ok _ => Some {| sys := with_pf p2 (sys s); stuck := true |}
          | Raise e =>
              Some {| sys := with_pf (_store_frame_callback p2 (Raise e)).1 (sys s);
                      stuck := true |}
          end
        else
          Some {| sys := with_pf (worker_done (pf (sys s)) idx acted) (sys s);
                  stuck := false |}
      else None
  | ConsumerPoll found =>
      if stuck s then Some s
      else
        match raised (sys s), todo (sys s) with
        | Some _, _ => Some s
        | None, [] => Some s
        | None, idx :: rest =>
            match get_frame found (pf (sys s)) idx with
            | Raised e =>
                Some {| sys := {| pf := pf (sys s); todo := todo (sys s);
                                  delivered := delivered (sys s);
                                  raised := Some e |};
                        stuck := false |}
            | Waiting => Some s
            | Returned data p' =>
                Some {| sys := {| pf := p'; todo := rest;
                                  delivered := delivered (sys s) ++ [data];
                                  raised := None |};
                        stuck := false |}
            | Blocked p' =>
                Some {| sys := with_pf p' (sys s); stuck := true |}
            end
        end
  end.

Fixpoint run (s : state) (tr : list event) : option state :=
  match tr with
  | [] => Some s
  | ev :: tr' =>
      match step s ev with
      | Some s' => run s' tr'
      | None => None
      end
  end.

(** The loop [for index in indices: prefetcher.get_frame(index)] against
    an adversarial pool.  Whenever the consumer finds the awaited entry
    missing, the pool completes one pending future of its own choosing: at
    its [n]-th completion, [sched n] gives the position of the future
    (modulo the number pending) and what the action returns.  Whenever a
    call of [_schedule_prefetch] is made with the cursor at [c], the pool
    decides with [found c] which of the futures submitted are done before
    their callback is registered.  [None]: a call of [get_frame] does not
    return. *)
Fixpoint await (fuel : nat) (sched : nat → nat * R) (found : nat → timing)
    (tick : nat) (p : FramePrefetcher R) (idx : Z)
    : option (FrameResult R * FramePrefetcher R * nat) :=
  match get_frame (found (S (current_index p))) p idx with
  | Returned data p' => Some (data, p', tick)
  | Raised _ | Blocked _ => None
  | Waiting =>
      match fuel with
      | O => None
      | S fuel' =>
          match pick (sched tick).1 (pending (executor p)) with
          | None => None
          | Some done =>
              await fuel' sched found (S tick)
                    (worker_done p done (Ok (sched tick).2)) idx
          end
      end
  end.

Fixpoint consume (sched : nat → nat * R) (found : nat → timing) (tick : nat)
    (p : FramePrefetcher R) (indices : list Z)
    : option (list (FrameResult R)) :=
  match indices with
  | [] => Some []
  | idx :: rest =>
      match await (length (pending (executor p))) sched found tick p idx with
      | None => None
      | Some (data, p', tick') =>
          match consume sched found tick' p' rest with
          | None => None
          | Some ds => Some (data :: ds)
          end
      end
  end.

End Lock.
Arguments timing : clear implicits.
Arguments ending : clear implicits.
Arguments Returns {R A} a.
Arguments Raises {R A} e.
Arguments Deadlock {R A} p.
Arguments get_result : clear implicits.
Arguments state : clear implicits.
Arguments event : clear implicits.
End lock.
End prefetcher.

(** ** [src/framework/frames.py] *)

Module frames.

(** The values of a JSON record, as [json.load] gives them: [None], a
    [bool], an [int], a [float] (a rational here; the code compares none),
    a [str], a [list] or a [dict] in the order of its keys. *)
Inductive json :=
  | JNull
  | JBool (b : bool)
  | JInt (n : Z)
  | JFloat (x : Q)
  | JStr (s : string)
  | JList (items : list json)
  | JDict (items : list (string * json)).

(** The data directory: which [frames/frame_<index>.jpg] exist, and the
    content of each [frames_metadata/frame_<index>.json] that exists.  The
    two paths of a frame are determined by its index, which keys both. *)
Record Disk := {
  frame_files : gset Z;
  metadata_files : gmap Z (gmap string json);
}.

(** A [Frame] object; [metadata] is unset (empty here) until
    [load_metadata] has run. *)
Record Frame := {
  index : Z;
  initial_metadata : gmap string json;
  metadata : gmap string json;
}.

Definition set_metadata (m : gmap string json) (self : Frame) : Frame :=
  {| index := index self; initial_metadata := initial_metadata self;
     metadata := m |}.

(** [json.dump(self.metadata, f)] on [self.metadata_path] *)
Definition save_metadata (self : Frame) (d : Disk) : Disk :=
  {| frame_files := frame_files d;
     metadata_files := <[index self := metadata self]> (metadata_files d) |}.

(** The loop [for key, value in self.initial_metadata.items()] of
    [load_metadata]. *)
Definition add_missing_keys (initial existing : gmap string json)
    : gmap string json :=
  map_fold (λ key value existing_metadata,
              match existing_metadata !! key with
              | None => <[key := value]> existing_metadata
              | Some _ => existing_metadata
              end) existing initial.

Definition load_metadata (self : Frame) (d : Disk) : Frame * Disk :=
  match metadata_files d !! index self with
  | Some existing_metadata =>
      let self' :=
        set_metadata
          (add_missing_keys (initial_metadata self) existing_metadata) self in
      (self', save_metadata self' d)
  | None =>
      let self' := set_metadata (initial_metadata self) self in
      (self', save_metadata self' d)
  end.

(** [constants.FRAMES_PATH] is [BASE_DIR / "data" / "frames"], where
    [BASE_DIR] is the absolute path of the directory that holds the
    package.  The path is written here from [BASE_DIR] on. *)
Definition FRAMES_PATH : string := "data/frames".

Definition frame_not_found_message (idx : Z) : string :=
  "Frame " +:+ FRAMES_PATH +:+ "/frame_" +:+ pretty idx +:+ ".jpg does not exist".

(** The argument [initial_metadata] of the constructor: [None], a
    dictionary, or a value of another type, of which the constructor uses
    the truth value only. *)
Inductive py_arg :=
  | PyNone
  | PyDict (m : gmap string json)
  | PyOther (truth : bool).

(** [initial_metadata or {}], when it is a dictionary. *)
Definition or_empty (initial_metadata : py_arg) : option (gmap string json) :=
  match initial_metadata with
  | PyNone => Some ∅
  | PyDict m => Some m
  | PyOther truth => if truth then None else Some ∅
  end.

Definition no_client_message : string :=
  "No groundlight client initialized before instantiating frame class. Initializing to use prod endpoint. Use initialize_gl() to initialize a client for a different endpoint.".

Section Constructor.
(** The Groundlight client of the class, and what [Groundlight(endpoint)]
    with the default endpoint comes to: a client, or the exception of the
    SDK. *)
Context {Client : Type}.
Variable Groundlight_new : outcome Client.

(** The class: its attribute [_gl], and what has been printed. *)
Record Class := { _gl : option Client; output : list string }.

(** [Frame.__init__] *)
Definition __init__ (cls : Class) (idx : Z) (initial_metadata : py_arg)
    (d : Disk) : outcome Frame * Disk * Class :=
  let initialized :=
    match _gl cls with
    | Some _ => (Ok (), cls)
    | None =>
        let output' := output cls ++ [no_client_message] in
        match Groundlight_new with
        | Ok client => (Ok (), {| _gl := Some client; output := output' |})
        | Raise e => (Raise e, {| _gl := None; output := output' |})
        end
    end in
  match initialized with
  | (Raise e, cls') => (Raise e, d, cls')
  | (Ok _, cls') =>
      if decide (idx ∈ frame_files d)
      then
        match or_empty initial_metadata with
        | None =>
            (Raise (ValueError "initial_metadata must be a dictionary"), d, cls')
        | Some initial =>
            let (self, d') :=
              load_metadata {| index := idx; initial_metadata := initial;
                               metadata := ∅ |} d in
            (Ok self, d', cls')
        end
      else (Raise (FileNotFoundError (frame_not_found_message idx)), d, cls')
  end.

End Constructor.
Arguments Class : clear implicits.

(** The image of a frame, named by the file it is read from. *)
Inductive Image := imread (idx : Z).

Record ProcessedFrame := {
  pf_index : Z;
  pf_image : Image;
  pf_metadata : gmap string json;
}.

End frames.

(** ** [src/demo/robot_frames.py] *)

Module robot_frames.
Import frames.

(** The collaborator: the Groundlight service.  A confidence is a number of
    which the code uses only the comparison with the threshold. *)
Inductive Label := YES | NO | UNCLEAR.

Global Instance Label_eq_dec : EqDecision Label.
Proof. solve_decision. Defined.

Record BinaryResult := { label : Label; confidence : Q }.
Record ImageQuery := { id : string; result : BinaryResult }.

Inductive request :=
  | ask_ml (image : Image)
  | get_image_query (iq_id : json).

(** What the service answers may depend on everything asked before.  The
    detector of the class, which [robot_detector] creates on first use, is
    given with the service; the code reads its threshold only. *)
Record Groundlight := {
  respond : list request → request → ImageQuery;
  confidence_threshold : Q;       (* of [robot_detector] *)
}.

Record World := {
  disk : Disk;
  requests : list request;        (* the calls made to the service so far *)
}.

Definition on_disk (f : Disk → Disk) (w : World) : World :=
  {| disk := f (disk w); requests := requests w |}.

Definition call (gl : Groundlight) (rq : request) (w : World)
    : ImageQuery * World :=
  (respond gl (requests w) rq,
   {| disk := disk w; requests := requests w ++ [rq] |}).

Definition initial_metadata : gmap string json :=
  {[ "iq_id" := JNull; "is_upside_down" := JNull ]}.

(** [RobotFrame.__init__], in a class whose Groundlight client is
    initialized: it is the client [gl] of the calls below. *)
Definition __init__ (idx : Z) (w : World) : outcome Frame * World :=
  let '(r, d, _) :=
    frames.__init__ (Ok ()) {| _gl := Some (); output := [] |} idx
      (PyDict initial_metadata) (disk w) in
  (r, {| disk := d; requests := requests w |}).

Definition is_None (v : json) : bool :=
  match v with JNull => true | _ => false end.

(** The test of [_update_metadata]. *)
Definition confident_and_clear (gl : Groundlight) (iq : ImageQuery) : bool :=
  Qle_bool (confidence_threshold gl) (confidence (result iq))
  && bool_decide (label (result iq) ≠ UNCLEAR).

Definition _update_metadata (gl : Groundlight) (self : Frame)
    (iq : ImageQuery) (w : World) : Frame * World :=
  let m1 := <["iq_id" := JStr (id iq)]> (metadata self) in
  let m2 :=
    if confident_and_clear gl iq
    then <["is_upside_down" :=
             JBool (bool_decide (label (result iq) = YES))]> m1
    else m1 in
  let self' := set_metadata m2 self in
  (self', on_disk (save_metadata self') w).

Definition key_error (key : string) : exn := KeyError key.

Definition process_frame (gl : Groundlight) (self : Frame) (w : World)
    : outcome ProcessedFrame * Frame * World :=
  match metadata self !! "iq_id" with
  | None => (Raise (key_error "iq_id"), self, w)
  | Some tok =>
      let (self', w') :=
        if is_None tok
        then
          let (iq, w1) := call gl (ask_ml (imread (index self))) w in
          _update_metadata gl self iq w1
        else (self, w) in
      (Ok {| pf_index := index self'; pf_image := imread (index self');
             pf_metadata := metadata self' |}, self', w')
  end.

Definition no_iq_id_message (idx : Z) : string :=
  "Frame " +:+ pretty idx +:+
  " has no iq_id. Use process_frame() to query for an answer first before trying to update.".

Definition update_frame (gl : Groundlight) (self : Frame) (w : World)
    : outcome () * Frame * World :=
  match metadata self !! "iq_id" with
  | None => (Raise (key_error "iq_id"), self, w)
  | Some tok =>
      if is_None tok
      then (Raise (ValueError (no_iq_id_message (index self))), self, w)
      else
        match metadata self !! "is_upside_down" with
        | None => (Raise (key_error "is_upside_down"), self, w)
        | Some answer =>
            if is_None answer
            then
              let (iq, w1) := call gl (get_image_query tok) w in
              let (self', w') := _update_metadata gl self iq w1 in
              (Ok (), self', w')
            else (Ok (), self, w)
        end
  end.

(** What a worker of the prefetcher runs for an index:
    [frame = RobotFrame(index)] and then the action on [frame]. *)
Definition process (gl : Groundlight) (idx : Z) (w : World)
    : outcome ProcessedFrame * World :=
  match __init__ idx w with
  | (Raise e, w') => (Raise e, w')
  | (Ok frame, w') =>
      let '(r, _, w'') := process_frame gl frame w' in (r, w'')
  end.

Definition update (gl : Groundlight) (idx : Z) (w : World)
    : outcome () * World :=
  match __init__ idx w with
  | (Raise e, w') => (Raise e, w')
  | (Ok frame, w') =>
      let '(r, _, w'') := update_frame gl frame w' in (r, w'')
  end.

(** The persisted record of an index and its answer. *)
Definition record_of (w : World) (idx : Z) : option (gmap string json) :=
  metadata_files (disk w) !! idx.

Definition answer_of (w : World) (idx : Z) : option json :=
  record_of w idx ≫= (.!! "is_upside_down").

(** A sequence of [process] and [update] calls for one index. *)
Inductive frame_call := call_process | call_update.

Definition do_call (gl : Groundlight) (idx : Z) (c : frame_call) (w : World)
    : World :=
  match c with
  | call_process => (process gl idx w).2
  | call_update => (update gl idx w).2
  end.

(** How many new queries ([ask_ml]) a list of requests holds. *)
Definition is_ask_ml (rq : request) : bool :=
  match rq with ask_ml _ => true | _ => false end.

Definition queries (w : World) : nat :=
  length (filter (λ rq, is_ask_ml rq = true) (requests w)).

(** Two worlds and two services to run the code on: frame 4 has been
    answered, frame 5 has never been processed; one service is confident
    that the robot is upside down, the other cannot tell. *)
Definition answered_world : World :=
  {| disk :=
       {| frame_files := {[ 4; 5 ]};
          metadata_files :=
            {[ 4 := {[ "iq_id" := JStr "iq_1";
                       "is_upside_down" := JBool true ]} ]} |};
     requests := [] |}.

Definition confident_service : Groundlight :=
  {| respond := λ _ _,
       {| id := "iq_2"; result := {| label := YES; confidence := 0.95%Q |} |};
     confidence_threshold := 0.9%Q |}.

Definition unclear_service : Groundlight :=
  {| respond := λ _ _,
       {| id := "iq_3"; result := {| label := UNCLEAR; confidence := 0.99%Q |} |};
     confidence_threshold := 0.9%Q |}.

End robot_frames.

(** ** [src/framework/process_frames.py] *)

Module driver.
Import prefetcher.

(** [pool_size = min(len(indices), 32)] *)
Definition pool_size (indices : list Z) : Z :=
  Z.min (Z.of_nat (length indices)) 32.

(** The first statements of [process_frames]: the prefetcher it builds.
    The call leaves [action] at its default, ["process"]. *)
Definition process_frames_prefetcher {R : Type} (indices : list Z)
    : outcome (FramePrefetcher R) :=
  prefetcher.__init__ indices (pool_size indices) (pool_size indices)
    "process".

End driver.

(** ** [RobotFrame.has_answer] and [src/framework/utils.py] *)

Module utils.
Import frames robot_frames prefetcher.

(** [RobotFrame.has_answer], the static method of [robot_frames.py]. *)
Definition has_answer (frame : Frame) : outcome bool :=
  match metadata frame !! "is_upside_down" with
  | None => Raise (key_error "is_upside_down")
  | Some answer => Ok (negb (is_None answer))
  end.

Definition no_frames_found : exn :=
  ValueError "No frames found in the frames directory".

(** [min(indices)] and [max(indices)] of a list that is not empty. *)
Definition py_min (x : Z) (l : list Z) : Z := foldl Z.min x l.
Definition py_max (x : Z) (l : list Z) : Z := foldl Z.max x l.

(** [s.rfind(c)] *)
Fixpoint rfind (c : Ascii.ascii) (s : string) : option nat :=
  match s with
  | EmptyString => None
  | String a s' =>
      match rfind c s' with
      | Some i => Some (S i)
      | None => if decide (a = c) then Some 0%nat else None
      end
  end.

(** [Path(name).stem]: the name without its last suffix. *)
Definition stem (name : string) : string :=
  match rfind "."%char name with
  | Some i =>
      if decide (0 < i ∧ i < String.length name - 1)%nat
      then String.substring 0 i name
      else name
  | None => name
  end.

(** [s.split(c, 1)] when [c] occurs in [s]: what stands before its first
    occurrence and what stands after. *)
Fixpoint split_once (c : Ascii.ascii) (s : string) : option (string * string) :=
  match s with
  | EmptyString => None
  | String a s' =>
      if decide (a = c) then Some (EmptyString, s')
      else
        match split_once c s' with
        | Some (before, after) => Some (String a before, after)
        | None => None
        end
  end.

(** The names that the pattern [frame_*.jpg] matches, on a file system
    that tells upper case from lower case. *)
Definition glob_frame_jpg (name : string) : bool :=
  bool_decide (10 ≤ String.length name)%nat
  && String.prefix "frame_" name
  && String.eqb (String.substring (String.length name - 4) 4 name) ".jpg".

Section FrameIndices.
(** [int(text)], the built-in: the integer that the string denotes, or the
    [ValueError] that it is no numeral. *)
Variable int : string → outcome Z.

(** [int(frame.stem.split("_", 1)[1])] *)
Definition frame_index (name : string) : outcome Z :=
  match split_once "_"%char (stem name) with
  | Some (_, digits) => int digits
  | None => Raise (IndexError "list index out of range")
  end.

(** [_get_frame_indices]; [names] are the names of the entries of the
    frames directory in the order in which [glob] goes through them. *)
Fixpoint _get_frame_indices (names : list string) : outcome (list Z) :=
  match names with
  | [] => Ok []
  | name :: rest =>
      if glob_frame_jpg name
      then
        match frame_index name with
        | Raise e => Raise e
        | Ok idx =>
            match _get_frame_indices rest with
            | Raise e => Raise e
            | Ok indices => Ok (idx :: indices)
            end
        end
      else _get_frame_indices rest
  end.

Definition get_first_frame_index (names : list string) : outcome Z :=
  match _get_frame_indices names with
  | Raise e => Raise e
  | Ok [] => Raise no_frames_found
  | Ok (x :: l) => Ok (py_min x l)
  end.

Definition get_last_frame_index (names : list string) : outcome Z :=
  match _get_frame_indices names with
  | Raise e => Raise e
  | Ok [] => Raise no_frames_found
  | Ok (x :: l) => Ok (py_max x l)
  end.

End FrameIndices.

Section ProportionWithAnswer.
(** [frame_class] and [has_answer_function], the arguments. *)
Variable frame_class : Z → World → outcome Frame * World.
Variable has_answer_function : Frame → outcome bool.

(** The loop that fills [has_answer_results]. *)
Fixpoint has_answer_results (indices : list Z) (w : World)
    : outcome (list bool) * World :=
  match indices with
  | [] => (Ok [], w)
  | idx :: rest =>
      match frame_class idx w with
      | (Raise e, w1) => (Raise e, w1)
      | (Ok frame, w1) =>
          match has_answer_function frame with
          | Raise e => (Raise e, w1)
          | Ok b =>
              match has_answer_results rest w1 with
              | (Raise e, w2) => (Raise e, w2)
              | (Ok bs, w2) => (Ok (b :: bs), w2)
              end
          end
      end
  end.

(** [sum(has_answer_results)] *)
Definition py_sum (bs : list bool) : nat := length (filter (λ b, b = true) bs).

(** The result is the quotient of the two integers, which the code rounds
    to a float. *)
Definition proportion_with_answer (indices : list Z) (w : World)
    : outcome Q * World :=
  if decide (length indices = 0%nat)
  then (Raise (ValueError "No indices provided"), w)
  else
    match has_answer_results indices w with
    | (Raise e, w') => (Raise e, w')
    | (Ok bs, w') =>
        (Ok (Z.of_nat (py_sum bs) # Pos.of_nat (length bs))%Q, w')
    end.

End ProportionWithAnswer.

Section WarmUp.
Context {R : Type}.
(** A proportion is a float: [within_unit] is the test
    [0 < proportion <= 1], [ceil_times n proportion] is
    [ceil(n * proportion)] and [str_float] is how an f-string writes it.
    [shuffle] is what [random.shuffle] leaves of the list, and [int] the
    built-in of [_get_frame_indices]. *)
Context {F : Type}.
Variable within_unit : F → bool.
Variable ceil_times : nat → F → Z.
Variable str_float : F → string.
Variable shuffle : list Z → list Z.
Variable int : string → outcome Z.

(** The indices that [warm_up_frame_class] hands to the prefetcher;
    [names] lists the frames directory. *)
Definition warm_up_indices (proportion : option F)
    (indicies : option (list Z)) (names : list string) : outcome (list Z) :=
  match proportion, indicies with
  | None, None =>
      Raise (ValueError "Either proportion or indicies must be provided")
  | Some _, Some _ =>
      Raise (ValueError "Only one of proportion or indicies can be provided")
  | Some proportion, None =>
      match get_first_frame_index int names with
      | Raise e => Raise e
      | Ok first =>
          match get_last_frame_index int names with
          | Raise e => Raise e
          | Ok last =>
              let indicies := shuffle (seqZ first (last + 1 - first)) in
              if negb (within_unit proportion)
              then Raise (ValueError ("Proportion must be in (0, 1]. Received: "
                                      +:+ str_float proportion))
              else Ok (py_slice indicies 0
                         (ceil_times (length indicies) proportion))
          end
      end
  | None, Some indicies =>
      if decide (length indicies = 0%nat)
      then Raise (ValueError "Indicies must contain at least value")
      else Ok indicies
  end.

Definition warming_up_message (indicies : list Z) : string :=
  "Warming up with " +:+ pretty (length indicies) +:+ " frames".

(** [warm_up_frame_class] up to its loop: what it has printed, and the
    prefetcher it builds (with the default [buffer_size] and
    [num_workers], 8) together with the indices that the loop
    [for index in indicies: prefetcher.get_frame(index)] asks for.
    [found] is what the constructor's scheduling step finds of its
    futures. *)
Definition warm_up_frame_class (found : lock.timing R)
    (proportion : option F) (indicies : option (list Z))
    (names : list string) : list string * lock.ending R (lock.state R) :=
  match warm_up_indices proportion indicies names with
  | Raise e => ([], lock.Raises e)
  | Ok indicies =>
      ([warming_up_message indicies],
       match lock.__init__ found indicies 8 8 "process" with
       | lock.Raises e => lock.Raises e
       | lock.Deadlock p => lock.Deadlock p
       | lock.Returns p => lock.Returns (lock.start p indicies)
       end)
  end.

End WarmUp.
End utils.

(** ** [src/demo/robot_analysis_function.py] *)

Module robot_analysis_function.
Import frames.

Section Analysis.
(** The images the analysis draws on, [image.shape[:2]] and
    [cv2.putText(image, text, org, font, font_scale, color, thickness)]. *)
Context {I : Type}.
Variable shape : I → Z * Z.                               (* height, width *)
Variable putText : I → string → Z * Z → Z → Q → Z * Z * Z → Z → I.

Definition FONT_HERSHEY_SIMPLEX : Z := 0.

(** A [ProcessedFrame] as the analysis gets it from the driver. *)
Record frame := { f_index : Z; f_image : I; f_metadata : gmap string json }.

(** [RobotUpsideDownAnalysis]: the object is its counter. *)
Record RobotUpsideDownAnalysis := { robot_upside_down_frame_count : nat }.

Definition __init__ : RobotUpsideDownAnalysis :=
  {| robot_upside_down_frame_count := 0 |}.

(** The truth value of a JSON value in [if is_upside_down:]. *)
Definition truthy (v : json) : bool :=
  match v with
  | JNull => false
  | JBool b => b
  | JInt n => negb (n =? 0)
  | JFloat x => negb (Qeq_bool x 0)
  | JStr s => negb (bool_decide (s = ""))
  | JList items => negb (bool_decide (items = []))
  | JDict items => negb (bool_decide (length items = 0%nat))
  end.

Definition draw_state (self : RobotUpsideDownAnalysis) (image : I) : I :=
  let text := "Number of frames upside down: "
              +:+ pretty (robot_upside_down_frame_count self) in
  let '(height, width) := shape image in
  let font := FONT_HERSHEY_SIMPLEX in
  let font_scale := 1.5%Q in
  let thickness := 2 in
  let text_x := 10 in
  let text_y := height - 20 in
  putText (putText image text (text_x, text_y) font font_scale (0, 0, 0)
                   (thickness + 1))
          text (text_x, text_y) font font_scale (255, 255, 255) thickness.

Definition analyze_frame (self : RobotUpsideDownAnalysis) (fr : frame)
    : outcome frame * RobotUpsideDownAnalysis :=
  match f_metadata fr !! "is_upside_down" with
  | None => (Raise (KeyError "is_upside_down"), self)
  | Some is_upside_down =>
      let self' :=
        if truthy is_upside_down
        then {| robot_upside_down_frame_count :=
                  S (robot_upside_down_frame_count self) |}
        else self in
      (Ok {| f_index := f_index fr; f_image := draw_state self' (f_image fr);
             f_metadata := f_metadata fr |}, self')
  end.

(** The analysis applied to the frames of a run, in their order. *)
Fixpoint analyze_frames (self : RobotUpsideDownAnalysis) (frs : list frame)
    : outcome (list frame) * RobotUpsideDownAnalysis :=
  match frs with
  | [] => (Ok [], self)
  | fr :: rest =>
      match analyze_frame self fr with
      | (Raise e, self') => (Raise e, self')
      | (Ok fr', self') =>
          match analyze_frames self' rest with
          | (Raise e, self'') => (Raise e, self'')
          | (Ok frs', self'') => (Ok (fr' :: frs'), self'')
          end
      end
  end.

End Analysis.
Arguments frame : clear implicits.
End robot_analysis_function.

(** ** [process_frames], after the prefetcher is built *)

Module pipeline.
Import prefetcher.

Section ProcessFrames.
(** What the workers return and what the analysis returns are Python
    objects; [as_processed_frame] is the test
    [isinstance(processed_frame, ProcessedFrame)], giving the frame's
    image.  The analysis carries a state of its own.  The frame rate is a
    float: [not_positive] is the test [fps <= 0.0] and [str_float] how an
    f-string writes it. *)
Context {R I A F : Type}.
Variable as_processed_frame : R → option I.
Variable not_positive : F → bool.
Variable str_float : F → string.

Definition video_not_found_message (input_video_path : string) : string :=
  "Input video " +:+ input_video_path +:+ " does not exist".

Definition fps_message (input_video_path : string) (fps : F) : string :=
  "Input video " +:+ input_video_path +:+ " has a FPS of " +:+ str_float fps
  +:+ ". Must be positive".

(** The statements of [process_frames] from its first to the check of the
    frame rate.  [video_exists] is [Path(input_video_path).exists()] and
    [fps] what [cv2] reports for the video; [found] is what the
    constructor's scheduling step finds of its futures. *)
Definition checks (found : lock.timing R) (indices : list Z)
    (input_video_path : string) (video_exists : bool) (fps : F)
    : lock.ending R (FramePrefetcher R) :=
  match lock.__init__ found indices (driver.pool_size indices)
          (driver.pool_size indices) "process" with
  | lock.Raises e => lock.Raises e
  | lock.Deadlock p => lock.Deadlock p
  | lock.Returns p =>
      if negb video_exists
      then lock.Raises (FileNotFoundError
                          (video_not_found_message input_video_path))
      else if not_positive fps
      then lock.Raises (ValueError (fps_message input_video_path fps))
      else lock.Returns p
  end.





End ProcessFrames.
End pipeline.

(** ** [src/framework/split_video.py] *)

Module split_video.

Section SplitVideo.
(** The numbers of [cv2] are floats and the images are its arrays.  What
    the code does with a float is given: [truthy] is its truth value in
    [if minutes:], [int_of] is [int(x)], [int_minutes_frames minutes fps]
    is [int(minutes * 60 * fps)], [lt_int x n] is the comparison [x < n]
    with an integer, and [str_float] is how an f-string writes it.
    [imwrite_ok] tells whether [cv2.imwrite] manages to write the file; a
    write that fails leaves no file. *)
Context {F Img : Type}.
Variable truthy : F → bool.
Variable int_of : F → Z.
Variable int_minutes_frames : F → F → Z.
Variable lt_int : F → Z → bool.
Variable str_float : F → string.
Variable imwrite_ok : string → Img → bool.








(** The state of the loop: the frames not read yet, the files of the
    directory, and what has been printed. *)
Record state := {
  cap_unread : list (option Img);
  files : gmap string Img;
  printed : list string;
}.




End SplitVideo.
End split_video.

(** * The vocabulary of the properties *)

Import prefetcher.

Definition valid_action (action : string) : Prop :=
  action = "process" ∨ action = "update".

Section PrefetcherStates.
Context {R : Type}.
Implicit Types (p : FramePrefetcher R) (s : system R).

(** What every state between two operations satisfies, whatever the
    workers do. *)
Record coherent p : Prop := {
  pending_once : NoDup (pending (executor p));
  pending_marked : ∀ idx, idx ∈ pending (executor p) → idx ∈ in_progress p;
  marked_not_buffered : in_progress p ## dom (buffer p);
  buffer_keys : ∀ k d, buffer p !! k = Some d → index d = k;
}.

(** Every index of the window is buffered or marked in progress. *)
Definition covered p : Prop :=
  needed_indices p ⊆ dom (buffer p) ∪ in_progress p.

(** Nothing outside the window is buffered or marked in progress. *)
Definition bounded p : Prop :=
  dom (buffer p) ∪ in_progress p ⊆ needed_indices p.

(** Every index marked in progress has a pending future: no worker task
    has failed. *)
Definition no_failure p : Prop :=
  ∀ idx, idx ∈ in_progress p → idx ∈ pending (executor p).

(** The state [get_frame] hands to [_schedule_prefetch]. *)
Definition popped p (expected : Z) : FramePrefetcher R :=
  set_current_index (Datatypes.S (current_index p))
    (set_buffer (delete expected (buffer p)) p).

Definition sound p : Prop := coherent p ∧ covered p.

(** The loop asks for the indices in their order: what it has received,
    what it has still to ask for and the prefetcher's cursor agree. *)
Record in_step (seq : list Z) s : Prop := {
  loop_indicies : indicies (pf s) = seq;
  loop_todo : todo s = drop (current_index (pf s)) seq;
  loop_delivered : index <$> delivered s = take (current_index (pf s)) seq;
  loop_running : raised s = None;
}.

(** The tasks of an index: its pending futures, and its buffered result. *)
Definition tasks_for p (idx : Z) : nat :=
  (length (filter (λ x, x = idx) (pending (executor p)))
   + match buffer p !! idx with Some _ => 1 | None => 0 end)%nat.

(** A task that has failed stays marked and is never submitted again. *)
Definition abandoned p (idx : Z) : Prop :=
  coherent p ∧ idx ∈ in_progress p ∧ idx ∉ pending (executor p).

End PrefetcherStates.

Section RobotRecords.
Import frames robot_frames.
Implicit Types (gl : Groundlight) (w : World) (m : gmap string json).

(** What a fresh [RobotFrame] holds after [load_metadata]. *)
Definition loaded w (idx : Z) : gmap string json :=
  match record_of w idx with
  | Some rec => rec ∪ robot_frames.initial_metadata
  | None => robot_frames.initial_metadata
  end.

Definition store w (idx : Z) m (rqs : list request) : World :=
  {| disk := {| frame_files := frame_files (disk w);
                metadata_files := <[idx := m]> (metadata_files (disk w)) |};
     requests := rqs |}.

(** The record [_update_metadata] leaves. *)
Definition updated gl m (iq : ImageQuery) : gmap string json :=
  if confident_and_clear gl iq
  then <["is_upside_down" := JBool (bool_decide (label (result iq) = YES))]>
         (<["iq_id" := JStr (id iq)]> m)
  else <["iq_id" := JStr (id iq)]> m.

End RobotRecords.

Section PrefetcherHistory.
Context {R : Type}.
Implicit Types (p : FramePrefetcher R) (tr : list (event R)).

(** The completions, successful or not, of the futures of an index in a
    trace. *)
Definition completes (idx : Z) (ev : event R) : bool :=
  match ev with
  | WorkerDone done _ => bool_decide (done = idx)
  | ConsumerPoll => false
  end.

Definition completions (idx : Z) tr : nat :=
  length (filter (λ ev, completes idx ev = true) tr).

(** How often an index is pending. *)
Definition pending_count p (idx : Z) : nat :=
  length (filter (λ x, x = idx) (pending (executor p))).

(** Every result held, buffered or delivered, is the record of a successful
    completion in the history [h]. *)
Definition from_workers (h : list (event R)) (s : system R) : Prop :=
  ∀ d, (d ∈ delivered s ∨ ∃ k, buffer (pf s) !! k = Some d) →
       WorkerDone (index d) (Ok (result d)) ∈ h.

(** An index whose future has completed is buffered, abandoned or consumed,
    and is not pending. *)
Definition started_once p (idx : Z) (n : nat) : Prop :=
  (n ≤ 1)%nat
  ∧ (idx ∈ pending (executor p) → n = 0%nat)
  ∧ (n = 1%nat →
     idx ∈ dom (buffer p) ∨ idx ∈ in_progress p
     ∨ idx ∈ take (current_index p) (indicies p)).

(** The tasks that a scheduling step finds failed before their callback
    is registered, as completions, in the order of the step. *)
Definition early_failures (found : lock.timing R) (l : list Z)
    : list (event R) :=
  omap (λ idx, match found idx with
               | Some (Raise e) => Some (WorkerDone idx (Raise e))
               | _ => None
               end) l.

(** A state is reached from [s0] by a run of the loop without the lock. *)
Definition reached (s0 s : system R) : Prop := ∃ tr, run s0 tr = Some s.

(** A state of the loop with the lock agrees with a state of the loop
    without it: on the results delivered and the exception raised, and on
    everything as long as the consumer is not stuck. *)
Definition mirrors (s : lock.state R) (s' : system R) : Prop :=
  delivered s' = delivered (lock.sys s)
  ∧ raised s' = raised (lock.sys s)
  ∧ (lock.stuck s = false → s' = lock.sys s).

(** No future is done when its callback is registered. *)
Definition on_time (found : nat → lock.timing R) : Prop :=
  ∀ c idx, found c idx = None.

(** An event of the loop with the lock in which no task fails and no
    future is found done early, and the event it is without the lock. *)
Definition undisturbed (ev : lock.event R) : Prop :=
  match ev with
  | lock.WorkerDone _ acted => ∃ r, acted = Ok r
  | lock.ConsumerPoll found => ∀ idx, found idx = None
  end.

Definition plain_event (ev : lock.event R) : event R :=
  match ev with
  | lock.WorkerDone idx acted => WorkerDone idx acted
  | lock.ConsumerPoll _ => ConsumerPoll
  end.

End PrefetcherHistory.

Section FurtherVocabulary.
Import frames robot_frames.

(** The record of the index holds an answer that is not null. *)
Definition answered (w : World) (idx : Z) : bool :=
  match answer_of w idx with
  | Some a => negb (is_None a)
  | None => false
  end.

(** The frame counts as upside down for the analysis. *)
Definition upside_down {I : Type} (fr : robot_analysis_function.frame I) : bool :=
  match robot_analysis_function.f_metadata fr !! "is_upside_down" with
  | Some v => robot_analysis_function.truthy v
  | None => false
  end.



(** The line the prefetcher prints for an event, if any. *)
Definition error_line {R : Type} (ev : event R) : option string :=
  match ev with
  | WorkerDone _ (Raise e) => Some ("Error fetching frame: " +:+ exn_str e)
  | _ => None
  end.

End FurtherVocabulary.

(** * Properties *)

(** ** Construction ([FramePrefetcher.__init__]) *)

Section Construction.
Context {R : Type}.
Implicit Types (p : FramePrefetcher R) (S : list Z).

Lemma select_action_valid action :
  valid_action action → ∃ fn, select_action action = Ok fn.
Proof.
  unfold select_action. intros [-> | ->]; repeat case_decide; eauto; done.
Qed.

Lemma select_action_invalid action :
  ¬ valid_action action →
  select_action action = Raise (ValueError (unknown_action_message action)).
Proof.
  unfold select_action, valid_action. intros Hbad.
  repeat case_decide; naive_solver.
Qed.

Lemma init_ok S bs nw action :
  valid_action action → 1 ≤ nw →
  ∃ p, __init__ (R:=R) S bs nw action = Ok p.
Proof.
  intros Hact Hnw. unfold __init__, ThreadPoolExecutor_new.
  destruct (select_action_valid _ Hact) as [fn ->].
  destruct (Z.leb_spec nw 0); [lia | eauto].
Qed.

Lemma init_raises S bs nw action :
  ¬ valid_action action ∨ nw < 1 →
  ∃ msg, __init__ (R:=R) S bs nw action = Raise (ValueError msg).
Proof.
  intros Hbad. unfold __init__, ThreadPoolExecutor_new.
  destruct (decide (valid_action action)) as [Hact | Hact].
  - destruct Hbad as [? | Hnw]; [done |].
    destruct (select_action_valid _ Hact) as [fn ->].
    destruct (Z.leb_spec nw 0); [eauto | lia].
  - rewrite (select_action_invalid _ Hact). eauto.
Qed.

End Construction.

(** ** Lists and slices *)

Lemma py_slice_window {A : Type} (l : list A) (c : nat) (n : Z) :
  0 ≤ n → py_slice l (Z.of_nat c) (Z.of_nat c + n) = take (Z.to_nat n) (drop c l).
Proof.
  intros Hn. unfold py_slice, slice_bound.
  destruct (Z.ltb_spec (Z.of_nat c) 0); [lia |].
  destruct (Z.ltb_spec (Z.of_nat c + n) 0); [lia |].
  destruct (decide (c ≤ length l)%nat) as [Hc | Hc].
  - replace (Z.to_nat (Z.of_nat c `min` Z.of_nat (length l))) with c by lia.
    destruct (decide (Z.to_nat n ≤ length l - c)%nat).
    + f_equal. lia.
    + rewrite !take_ge; [done | rewrite length_drop; lia | rewrite length_drop; lia].
  - rewrite (drop_ge l c) by lia. rewrite take_nil.
    rewrite drop_ge by lia. by rewrite take_nil.
Qed.

Lemma remove_one_elem_of (x y : Z) (l : list Z) :
  NoDup l → x ∈ remove_one y l ↔ x ∈ l ∧ x ≠ y.
Proof.
  induction 1 as [| z l Hz Hl IH]; simpl.
  - set_solver.
  - case_decide; subst.
    + rewrite elem_of_cons. naive_solver.
    + rewrite !elem_of_cons, IH. naive_solver.
Qed.

Lemma remove_one_subseteq (y : Z) (l : list Z) : remove_one y l ⊆ l.
Proof.
  induction l as [| z l IH]; simpl; [done |].
  case_decide; [set_solver |]. intros x. rewrite !elem_of_cons. set_solver.
Qed.

Lemma remove_one_NoDup (y : Z) (l : list Z) : NoDup l → NoDup (remove_one y l).
Proof.
  induction 1 as [| z l Hz Hl IH]; simpl; [constructor |].
  case_decide; [done |]. constructor; [| done].
  intros Hin. by apply remove_one_subseteq in Hin.
Qed.

Lemma remove_one_length (y : Z) (l : list Z) :
  y ∈ l → S (length (remove_one y l)) = length l.
Proof.
  induction l as [| z l IH]; simpl; [by intros ?%elem_of_nil |].
  case_decide; [done |]. rewrite elem_of_cons. intros [? | Hin]; [done |].
  simpl. f_equal. by apply IH.
Qed.

Lemma pick_elem_of (choice : nat) (l : list Z) :
  l ≠ [] → ∃ x, pick choice l = Some x ∧ x ∈ l.
Proof.
  intros Hl. unfold pick.
  assert (Hlt : (choice `mod` length l < length l)%nat).
  { apply Nat.mod_upper_bound. by destruct l. }
  destruct (lookup_lt_is_Some_2 l _ Hlt) as [x Hx].
  exists x. split; [done |]. by eapply list_elem_of_lookup_2.
Qed.

(** ** The scheduling step *)

Section Scheduling.
Context {R : Type}.
Implicit Types (p : FramePrefetcher R) (S : list Z).

Lemma foldl_submit p (l : list Z) :
  foldl submit p l =
  set_pending (pending (executor p) ++ l)
    (set_in_progress (list_to_set l ∪ in_progress p) p).
Proof.
  revert p. induction l as [| x l IH]; intros p.
  - destruct p as [? ? ? ? ? ? [] ?]. unfold set_pending, set_in_progress. simpl.
    rewrite app_nil_r. f_equal. set_solver.
  - simpl. rewrite IH. destruct p as [? ? ? ? ? ? [] ?].
    unfold set_pending, set_in_progress, submit. simpl.
    rewrite <- app_assoc. simpl. f_equal. set_solver.
Qed.

Lemma schedule_unfold p :
  _schedule_prefetch p =
  set_pending (pending (executor p) ++ elements (indices_to_fetch p))
    (set_in_progress (indices_to_fetch p ∪ in_progress p) p).
Proof.
  unfold _schedule_prefetch. rewrite foldl_submit.
  by rewrite list_to_set_elements_L.
Qed.

Lemma init_unfold S bs nw action p :
  __init__ S bs nw action = Ok p →
  ∃ fn, p = _schedule_prefetch
              {| buffer_size := bs; current_index := 0%nat; indicies := S;
                 buffer := ∅; action_fn := fn; in_progress := ∅;
                 executor := {| max_workers := nw; pending := [] |};
                 printed := [] |}.
Proof.
  unfold __init__, ThreadPoolExecutor_new.
  destruct (select_action action) as [fn |]; [| done].
  destruct (nw <=? 0); [done |]. intros [= <-]. eauto.
Qed.

Lemma init_fields S bs nw action p :
  __init__ S bs nw action = Ok p →
  buffer_size p = bs ∧ max_workers (executor p) = nw ∧ indicies p = S
  ∧ current_index p = 0%nat ∧ buffer p = ∅.
Proof.
  intros [fn ->]%init_unfold. by rewrite schedule_unfold.
Qed.

End Scheduling.

(** ** Invariants of the prefetcher *)

Section Invariants.
Context {R : Type}.
Implicit Types (p : FramePrefetcher R) (S : list Z).

Lemma schedule_coherent p : coherent p → coherent (_schedule_prefetch p).
Proof.
  intros [Hnd Hm Hdisj Hk]. rewrite schedule_unfold.
  split; simpl.
  - apply NoDup_app. split_and!; [done | | apply NoDup_elements].
    intros x Hx%Hm. rewrite elem_of_elements. unfold indices_to_fetch. set_solver.
  - intros idx. rewrite elem_of_app, elem_of_elements. set_solver.
  - unfold indices_to_fetch. set_solver.
  - done.
Qed.

Lemma schedule_covered p : covered (_schedule_prefetch p).
Proof.
  rewrite schedule_unfold. unfold covered, needed_indices, window; simpl.
  unfold indices_to_fetch, needed_indices, window.
  intros x Hx. destruct (decide (x ∈ dom (buffer p))); [set_solver |].
  destruct (decide (x ∈ in_progress p)); set_solver.
Qed.

Lemma schedule_bounded p : bounded p → bounded (_schedule_prefetch p).
Proof.
  rewrite schedule_unfold. unfold bounded, needed_indices, window; simpl.
  unfold indices_to_fetch, needed_indices, window. set_solver.
Qed.

Lemma schedule_no_failure p : no_failure p → no_failure (_schedule_prefetch p).
Proof.
  rewrite schedule_unfold. unfold no_failure; simpl. intros Hp idx.
  rewrite elem_of_app, elem_of_elements. set_solver.
Qed.

Lemma init_invariants S bs nw action p :
  __init__ S bs nw action = Ok p →
  coherent p ∧ covered p ∧ bounded p ∧ no_failure p.
Proof.
  intros [fn ->]%init_unfold. split_and!.
  - apply schedule_coherent. split; simpl; [constructor | set_solver.. | done].
  - apply schedule_covered.
  - apply schedule_bounded. unfold bounded; simpl. set_solver.
  - apply schedule_no_failure. unfold no_failure; simpl. set_solver.
Qed.

(** *** A worker completes *)

Lemma worker_done_ok p idx (r : R) :
  idx ∈ in_progress p →
  worker_done p idx (Ok r) =
  set_in_progress (in_progress p ∖ {[idx]})
    (set_buffer (<[idx := {| index := idx; result := r |}]> (buffer p))
       (set_pending (remove_one idx (pending (executor p))) p)).
Proof.
  intros Hin. unfold worker_done, _store_frame_callback; simpl.
  by rewrite decide_True.
Qed.

Lemma worker_done_raise p idx e :
  worker_done p idx (Raise e) =
  print ("Error fetching frame: " +:+ exn_str e)
    (set_pending (remove_one idx (pending (executor p))) p).
Proof. done. Qed.

Lemma worker_done_static p idx acted :
  indicies (worker_done p idx acted) = indicies p
  ∧ current_index (worker_done p idx acted) = current_index p
  ∧ buffer_size (worker_done p idx acted) = buffer_size p
  ∧ needed_indices (worker_done p idx acted) = needed_indices p.
Proof.
  unfold needed_indices, window, worker_done, _store_frame_callback.
  destruct acted; simpl; [case_decide |]; done.
Qed.

Lemma worker_done_coherent p idx acted :
  coherent p → idx ∈ pending (executor p) →
  coherent (worker_done p idx acted).
Proof.
  intros [Hnd Hm Hdisj Hk] Hidx. destruct acted as [r | e].
  - rewrite worker_done_ok by auto. split; simpl.
    + by apply remove_one_NoDup.
    + intros x [Hx Hne]%remove_one_elem_of; [| done]. set_solver.
    + rewrite dom_insert_L. set_solver.
    + intros k d. rewrite lookup_insert. case_decide; [| by apply Hk].
      by intros [= <-].
  - rewrite worker_done_raise. split; simpl; [| | done..].
    + by apply remove_one_NoDup.
    + intros x Hx%remove_one_subseteq. auto.
Qed.

Lemma worker_done_covered p idx acted :
  covered p → covered (worker_done p idx acted).
Proof.
  unfold covered. destruct (worker_done_static p idx acted) as (_ & _ & _ & ->).
  unfold worker_done, _store_frame_callback.
  destruct acted; simpl; [case_decide; simpl |]; [| | done];
    rewrite dom_insert_L; intros Hc x Hx%Hc.
  - destruct (decide (x = idx)); set_solver.
  - set_solver.
Qed.

Lemma worker_done_bounded p idx acted :
  coherent p → idx ∈ pending (executor p) →
  bounded p → bounded (worker_done p idx acted).
Proof.
  intros Hco Hidx. unfold bounded.
  destruct (worker_done_static p idx acted) as (_ & _ & _ & ->).
  pose proof (pending_marked p Hco idx Hidx).
  destruct acted as [r | e].
  - rewrite worker_done_ok by done. simpl. rewrite dom_insert_L. set_solver.
  - by rewrite worker_done_raise.
Qed.

Lemma worker_done_no_failure p idx (r : R) :
  coherent p → idx ∈ pending (executor p) →
  no_failure p → no_failure (worker_done p idx (Ok r)).
Proof.
  intros Hco Hidx Hnf. pose proof (pending_marked p Hco idx Hidx).
  rewrite worker_done_ok by done. unfold no_failure; simpl.
  intros x [Hx Hne%not_elem_of_singleton]%elem_of_difference.
  apply remove_one_elem_of; [by destruct Hco | auto].
Qed.

(** *** The consumer takes an entry *)

Lemma get_frame_returned p idx data p' :
  get_frame p idx = Returned data p' →
  indicies p !! current_index p = Some idx
  ∧ buffer p !! idx = Some data
  ∧ p' = _schedule_prefetch (popped p idx).
Proof.
  unfold get_frame.
  destruct (indicies p !! current_index p) as [expected |]; [| done].
  case_decide as Hne; [done |]. subst expected.
  destruct (buffer p !! idx) as [d |] eqn:Hb; [| done].
  by intros [= <- <-].
Qed.

Lemma popped_coherent p expected : coherent p → coherent (popped p expected).
Proof.
  intros [Hnd Hm Hdisj Hk]. split; simpl; [done.. | |].
  - rewrite dom_delete_L. set_solver.
  - intros k d Hd%lookup_delete_Some. apply Hk, Hd.
Qed.

Lemma popped_no_failure p expected : no_failure p → no_failure (popped p expected).
Proof. done. Qed.

Lemma popped_bounded p expected :
  0 ≤ buffer_size p → coherent p → bounded p →
  indicies p !! current_index p = Some expected →
  expected ∈ dom (buffer p) →
  bounded (popped p expected).
Proof.
  intros Hbs Hco Hb Hcur Hin. unfold bounded, needed_indices, window in *.
  simpl. rewrite py_slice_window in * by done.
  rewrite dom_delete_L.
  assert (Hm : expected ∉ in_progress p).
  { pose proof (marked_not_buffered p Hco). set_solver. }
  rewrite (drop_S _ _ _ Hcur) in Hb.
  intros x Hx. assert (x ≠ expected) by set_solver.
  assert (Hx' : x ∈ (list_to_set (take (Z.to_nat (buffer_size p))
             (expected :: drop (Datatypes.S (current_index p)) (indicies p))) : gset Z))
    by set_solver.
  apply elem_of_list_to_set in Hx'. apply elem_of_list_to_set.
  destruct (Z.to_nat (buffer_size p)) as [| n]; simpl in Hx'.
  - by apply elem_of_nil in Hx'.
  - apply elem_of_cons in Hx' as [? | Hx']; [done |].
    rewrite <- (take_drop n (take (Datatypes.S n) _)).
    apply elem_of_app. left. by rewrite take_take, Nat.min_l by lia.
Qed.

End Invariants.

(** ** Runs of the consumer loop against the workers *)

Section Runs.
Context {R : Type}.
Implicit Types (s : system R) (p : FramePrefetcher R) (tr : list (event R)).

Lemma schedule_static p :
  indicies (_schedule_prefetch p) = indicies p
  ∧ current_index (_schedule_prefetch p) = current_index p
  ∧ buffer_size (_schedule_prefetch p) = buffer_size p
  ∧ buffer (_schedule_prefetch p) = buffer p.
Proof. by rewrite schedule_unfold. Qed.

Lemma get_frame_static p idx data p' :
  get_frame p idx = Returned data p' →
  indicies p' = indicies p ∧ buffer_size p' = buffer_size p
  ∧ current_index p' = S (current_index p).
Proof.
  intros (_ & _ & ->)%get_frame_returned.
  destruct (schedule_static (popped p idx)) as (-> & -> & -> & _). done.
Qed.

Lemma get_frame_coherent p idx data p' :
  coherent p → get_frame p idx = Returned data p' → coherent p' ∧ covered p'.
Proof.
  intros Hco (_ & _ & ->)%get_frame_returned. split.
  - by apply schedule_coherent, popped_coherent.
  - apply schedule_covered.
Qed.

Lemma get_frame_bounded p idx data p' :
  0 ≤ buffer_size p → coherent p → bounded p →
  get_frame p idx = Returned data p' → bounded p'.
Proof.
  intros Hbs Hco Hb (Hcur & Hbuf & ->)%get_frame_returned.
  apply schedule_bounded, popped_bounded; try done.
  apply elem_of_dom. eauto.
Qed.

Lemma get_frame_no_failure p idx data p' :
  no_failure p → get_frame p idx = Returned data p' → no_failure p'.
Proof.
  intros Hnf (_ & _ & ->)%get_frame_returned.
  by apply schedule_no_failure, popped_no_failure.
Qed.

(** The three ways a step goes. *)
Lemma step_cases s ev s' :
  step s ev = Some s' →
  (∃ idx acted, ev = WorkerDone idx acted
     ∧ idx ∈ pending (executor (pf s))
     ∧ s' = {| pf := worker_done (pf s) idx acted; todo := todo s;
               delivered := delivered s; raised := raised s |})
  ∨ (ev = ConsumerPoll ∧ pf s' = pf s ∧ todo s' = todo s
     ∧ delivered s' = delivered s
     ∧ (raised s' = raised s
        ∨ ∃ idx rest e, raised s = None ∧ todo s = idx :: rest
            ∧ get_frame (pf s) idx = Raised e ∧ raised s' = Some e))
  ∨ (∃ idx rest data, ev = ConsumerPoll ∧ raised s = None
     ∧ todo s = idx :: rest
     ∧ get_frame (pf s) idx = Returned data (pf s')
     ∧ todo s' = rest ∧ delivered s' = delivered s ++ [data]
     ∧ raised s' = None).
Proof.
  destruct ev as [idx acted |]; simpl.
  - case_decide; [| done]. intros [= <-]. left. eauto.
  - destruct (raised s) eqn:Hr;
      [intros [= <-]; right; left; split_and!; by auto |].
    destruct (todo s) as [| idx rest] eqn:Ht;
      [intros [= <-]; right; left; split_and!; by auto |].
    destruct (get_frame (pf s) idx) as [e | | data p'] eqn:Hg; intros [= <-].
    + right; left. split_and!; try done. right. by exists idx, rest, e.
    + right; left. split_and!; by auto.
    + right; right. by exists idx, rest, data.
Qed.

(** A property of the prefetcher that the workers and a returning
    [get_frame] preserve holds along every run. *)
Lemma run_preserves (P : FramePrefetcher R → Prop) :
  (∀ p idx acted, P p → idx ∈ pending (executor p) → P (worker_done p idx acted)) →
  (∀ p idx data p', P p → get_frame p idx = Returned data p' → P p') →
  ∀ tr s s', P (pf s) → run s tr = Some s' → P (pf s').
Proof.
  intros Hw Hg. induction tr as [| ev tr IH]; intros s s' HP; simpl.
  - by intros [= <-].
  - destruct (step s ev) as [s1 |] eqn:Hs; [| done]. apply IH.
    apply step_cases in Hs
      as [(idx & acted & -> & Hin & ->) | [(-> & -> & _) | (idx & rest & data & -> & _ & _ & Hget & _)]];
      simpl; eauto.
Qed.

Lemma run_sound tr s s' : sound (pf s) → run s tr = Some s' → sound (pf s').
Proof.
  apply (run_preserves sound).
  - intros p idx acted [Hco Hcov] Hin. split.
    + by apply worker_done_coherent.
    + by apply worker_done_covered.
  - intros p idx data p' [Hco _] Hg. by eapply get_frame_coherent.
Qed.

Lemma run_static tr s s' :
  run s tr = Some s' →
  indicies (pf s') = indicies (pf s) ∧ buffer_size (pf s') = buffer_size (pf s).
Proof.
  apply (run_preserves (λ p, indicies p = indicies (pf s)
                             ∧ buffer_size p = buffer_size (pf s))); [| | done].
  - intros p idx acted [<- <-] _.
    by destruct (worker_done_static p idx acted) as (-> & _ & -> & _).
  - intros p idx data p' [<- <-] Hg.
    by destruct (get_frame_static _ _ _ _ Hg) as (-> & -> & _).
Qed.

Lemma run_bounded tr s s' :
  0 ≤ buffer_size (pf s) → coherent (pf s) → bounded (pf s) →
  run s tr = Some s' → bounded (pf s').
Proof.
  intros Hbs Hco Hb Hrun.
  cut (coherent (pf s') ∧ 0 ≤ buffer_size (pf s') ∧ bounded (pf s')); [tauto |].
  revert Hrun.
  apply (run_preserves (λ p, coherent p ∧ 0 ≤ buffer_size p ∧ bounded p)); [| | done].
  - intros p idx acted (? & ? & ?) Hin. split_and!.
    + by apply worker_done_coherent.
    + by destruct (worker_done_static p idx acted) as (_ & _ & -> & _).
    + by apply worker_done_bounded.
  - intros p idx data p' (? & ? & ?) Hg. split_and!.
    + by eapply get_frame_coherent.
    + by destruct (get_frame_static _ _ _ _ Hg) as (_ & -> & _).
    + by eapply get_frame_bounded.
Qed.

Lemma run_no_failure tr s s' :
  forallb succeeds tr = true → coherent (pf s) → no_failure (pf s) →
  run s tr = Some s' → no_failure (pf s').
Proof.
  revert s. induction tr as [| ev tr IH]; intros s; simpl.
  - by intros _ _ ? [= <-].
  - intros [Hev Htr]%andb_true_iff Hco Hnf.
    destruct (step s ev) as [s1 |] eqn:Hs; [| done].
    assert (coherent (pf s1) ∧ no_failure (pf s1)) as [? ?]; [| by apply IH].
    apply step_cases in Hs
      as [(idx & acted & -> & Hin & ->) | [(-> & -> & _) | (idx & rest & data & -> & _ & _ & Hget & _)]];
      simpl; [| done |].
    + destruct acted as [r | e]; [| done]. split.
      * by apply worker_done_coherent.
      * by apply worker_done_no_failure.
    + split; [by eapply get_frame_coherent | by eapply get_frame_no_failure].
Qed.

Lemma get_frame_expected p idx :
  indicies p !! current_index p = Some idx →
  match buffer p !! idx with
  | Some data => get_frame p idx = Returned data (_schedule_prefetch (popped p idx))
  | None => get_frame p idx = Waiting
  end.
Proof.
  intros Hcur. unfold get_frame. rewrite Hcur.
  rewrite decide_False by (intros Hne; by apply Hne).
  by destruct (buffer p !! idx).
Qed.

Lemma todo_head (seq : list Z) (n : nat) idx rest :
  drop n seq = idx :: rest → seq !! n = Some idx ∧ rest = drop (S n) seq.
Proof.
  intros Hd. assert (Hl : seq !! n = Some idx).
  { rewrite <- (Nat.add_0_r n), <- lookup_drop, Hd. done. }
  split; [done |]. rewrite (drop_S _ _ _ Hl) in Hd. congruence.
Qed.

(** A worker that completes between the two critical sections of
    [get_frame] could as well have completed just before the call. *)
Lemma popped_worker_done p expected idx acted :
  idx ≠ expected →
  popped (worker_done p idx acted) expected
  = worker_done (popped p expected) idx acted.
Proof.
  intros Hne. unfold popped, worker_done, _store_frame_callback.
  destruct acted as [r | e]; simpl; [| done].
  case_decide; unfold set_current_index, set_buffer, set_in_progress, print;
    simpl; by rewrite delete_insert_ne.
Qed.

Lemma completion_inside_get_frame p expected data p' idx acted :
  coherent p → idx ∈ pending (executor p) →
  get_frame p expected = Returned data p' →
  get_frame (worker_done p idx acted) expected
  = Returned data (_schedule_prefetch (worker_done (popped p expected) idx acted)).
Proof.
  intros Hco Hpen (Hcur & Hbuf & _)%get_frame_returned.
  assert (Hne : idx ≠ expected).
  { intros ->. pose proof (marked_not_buffered _ Hco).
    pose proof (pending_marked _ Hco _ Hpen).
    assert (expected ∈ dom (buffer p)) by (apply elem_of_dom; eauto).
    set_solver. }
  destruct (worker_done_static p idx acted) as (Hi & Hc & _).
  assert (Hcur' : indicies (worker_done p idx acted)
                    !! current_index (worker_done p idx acted) = Some expected)
    by (by rewrite Hi, Hc).
  pose proof (get_frame_expected _ _ Hcur') as Hget.
  assert (Hbuf' : buffer (worker_done p idx acted) !! expected = Some data).
  { unfold worker_done, _store_frame_callback.
    destruct acted as [r | e]; simpl; [| done].
    case_decide; simpl; by rewrite lookup_insert_ne. }
  rewrite Hbuf' in Hget. by rewrite Hget, popped_worker_done.
Qed.

Lemma run_in_step (seq : list Z) tr s s' :
  coherent (pf s) → in_step seq s → run s tr = Some s' → in_step seq s'.
Proof.
  revert s. induction tr as [| ev tr IH]; intros s Hco Hin; simpl.
  - by intros [= <-].
  - destruct (step s ev) as [s1 |] eqn:Hs; [| done].
    assert (coherent (pf s1) ∧ in_step seq s1) as [? ?]; [| by apply IH].
    destruct Hin as [Hi Ht Hd Hr].
    apply step_cases in Hs
      as [(idx & acted & -> & Hpen & ->)
         | [(-> & Hpf & Htodo & Hdel & Hraised)
           | (idx & rest & data & -> & _ & Hto & Hget & Hto' & Hdel & Hr')]].
    + split; [by apply worker_done_coherent |].
      destruct (worker_done_static (pf s) idx acted) as (Hi' & Hc' & _).
      split; simpl; by rewrite ?Hi', ?Hc'.
    + split; [by rewrite Hpf |].
      split; rewrite ?Hpf, ?Htodo, ?Hdel; try done.
      destruct Hraised as [-> | (idx & rest & e & _ & Hto & Hget & _)]; [done |].
      rewrite Ht in Hto. apply todo_head in Hto as [Hcur _]. rewrite <- Hi in Hcur.
      pose proof (get_frame_expected _ _ Hcur) as Hexp.
      destruct (buffer (pf s) !! idx); congruence.
    + split; [by eapply get_frame_coherent |].
      destruct (get_frame_static _ _ _ _ Hget) as (Hi' & _ & Hc').
      apply get_frame_returned in Hget as (_ & Hbuf & _).
      rewrite Ht in Hto. apply todo_head in Hto as [Hcur ->].
      split; rewrite ?Hi', ?Hc', ?Hto'; try done.
      rewrite Hdel, fmap_app, Hd. simpl.
      rewrite (buffer_keys _ Hco _ _ Hbuf).
      by rewrite (take_S_r _ _ _ Hcur).
Qed.

Lemma start_in_step p (seq : list Z) :
  indicies p = seq → current_index p = 0%nat → in_step seq (start p seq).
Proof. intros Hi Hc. split; simpl; by rewrite ?Hc. Qed.

End Runs.

(** ** The scheduling step under the lock *)

Section LockSteps.
Context {R : Type}.
Implicit Types (p q : FramePrefetcher R) (s : system R) (l : list Z).
Implicit Types (found : lock.timing R).

Lemma remove_one_app (x : Z) l (l' : list Z) :
  x ∈ l → remove_one x (l ++ l') = remove_one x l ++ l'.
Proof.
  induction l as [| y l IH]; intros Hin; [by apply elem_of_nil in Hin |].
  simpl. case_decide; [done |]. simpl. f_equal. apply IH. set_solver.
Qed.

Lemma submit_worker_raise q idx e (j : Z) :
  idx ∈ pending (executor q) →
  submit (worker_done q idx (Raise e)) j = worker_done (submit q j) idx (Raise e).
Proof.
  intros Hin. rewrite !worker_done_raise.
  unfold submit, print, set_pending, set_in_progress. simpl.
  by rewrite remove_one_app.
Qed.

Lemma foldl_submit_worker_raise l : ∀ q idx e,
  idx ∈ pending (executor q) →
  foldl submit (worker_done q idx (Raise e)) l
  = worker_done (foldl submit q l) idx (Raise e).
Proof.
  induction l as [| j l IH]; intros q idx e Hin; simpl; [done |].
  rewrite submit_worker_raise by done. apply IH.
  unfold submit. simpl. set_solver.
Qed.

Lemma with_pf_same s : lock.with_pf (pf s) s = s.
Proof. by destruct s. Qed.

(** The scheduling step returns unless it finds a future done with a
    result; it never raises. *)
Lemma schedule_loop_cases found l : ∀ p,
  ((∃ idx r, idx ∈ l ∧ found idx = Some (Ok r))
   ∧ ∃ p', lock.schedule_loop found p l = lock.Deadlock p')
  ∨ ((∀ idx r, idx ∈ l → found idx ≠ Some (Ok r))
     ∧ ∃ p', lock.schedule_loop found p l = lock.Returns p').
Proof.
  induction l as [| idx l IH]; intros p; simpl.
  - right. split; [| by eauto]. intros idx r Hin. by apply elem_of_nil in Hin.
  - destruct (found idx) as [[r | e] |] eqn:Hf; simpl.
    + left. split; [| by eauto]. exists idx, r. split; [set_solver | done].
    + destruct (IH (worker_done (submit p idx) idx (Raise e)))
        as [[(i & r & Hin & Hi) Hd] | [Hall Hr]].
      * left. split; [| exact Hd]. exists i, r. split; [set_solver | done].
      * right. split; [| exact Hr].
        intros i r [-> | Hin]%elem_of_cons; [congruence | by apply Hall].
    + destruct (IH (submit p idx)) as [[(i & r & Hin & Hi) Hd] | [Hall Hr]].
      * left. split; [| exact Hd]. exists i, r. split; [set_solver | done].
      * right. split; [| exact Hr].
        intros i r [-> | Hin]%elem_of_cons; [congruence | by apply Hall].
Qed.

Lemma schedule_loop_deadlock found l p :
  (∃ p', lock.schedule_loop found p l = lock.Deadlock p')
  ↔ ∃ idx r, idx ∈ l ∧ found idx = Some (Ok r).
Proof.
  destruct (schedule_loop_cases found l p) as [[He Hd] | [Hall [p' Hr]]].
  - done.
  - split.
    + intros [p'' Hd]. congruence.
    + intros (idx & r & Hin & Hf). by destruct (Hall idx r Hin).
Qed.

Lemma schedule_loop_no_raise found l p e :
  lock.schedule_loop found p l ≠ lock.Raises e.
Proof.
  destruct (schedule_loop_cases found l p) as [[_ [p' ->]] | [_ [p' ->]]]; done.
Qed.

Lemma schedule_loop_on_time found l : ∀ p,
  (∀ idx, idx ∈ l → found idx = None) →
  lock.schedule_loop found p l = lock.Returns (foldl submit p l).
Proof.
  induction l as [| idx l IH]; intros p Hnone; simpl; [done |].
  rewrite (Hnone idx) by set_solver. apply IH. intros i Hi. apply Hnone. set_solver.
Qed.

(** A scheduling step that returns leaves the state that the step without
    the lock leaves, once the futures it found failed have completed. *)
Lemma schedule_loop_run found l : ∀ p p' s,
  lock.schedule_loop found p l = lock.Returns p' →
  pf s = foldl submit p l →
  run s (early_failures found l) = Some (lock.with_pf p' s).
Proof.
  induction l as [| idx l IH]; intros p p' s; unfold early_failures; simpl.
  - intros [= <-] <-. by rewrite with_pf_same.
  - destruct (found idx) as [[r | e] |] eqn:Hf; simpl; [done | |].
    + intros Hloop Hpf.
      assert (Hin : idx ∈ pending (executor (submit p idx)))
        by (unfold submit; simpl; set_solver).
      rewrite decide_True
        by (rewrite Hpf, foldl_submit; simpl; set_solver).
      change (run {| pf := worker_done (pf s) idx (Raise e); todo := todo s;
                     delivered := delivered s; raised := raised s |}
                  (early_failures found l)
              = Some (lock.with_pf p' s)).
      erewrite (IH (worker_done (submit p idx) idx (Raise e)) p');
        [done | exact Hloop |].
      simpl. rewrite Hpf. symmetry. by apply foldl_submit_worker_raise.
    + intros Hloop Hpf. by apply (IH (submit p idx)).
Qed.

Lemma lock_schedule_on_time found p :
  (∀ idx, found idx = None) →
  lock._schedule_prefetch found p = lock.Returns (_schedule_prefetch p).
Proof.
  intros Hnone. unfold lock._schedule_prefetch, _schedule_prefetch.
  apply schedule_loop_on_time. by intros.
Qed.

(** [get_frame] with the lock, from [get_frame] without. *)
Lemma lock_get_frame_cases found p idx :
  match get_frame p idx with
  | Raised e => lock.get_frame found p idx = lock.Raised e
  | Waiting => lock.get_frame found p idx = lock.Waiting
  | Returned data q' =>
      q' = _schedule_prefetch (popped p idx)
      ∧ ((∃ p', lock._schedule_prefetch found (popped p idx) = lock.Returns p'
                ∧ lock.get_frame found p idx = lock.Returned data p')
         ∨ (∃ p', lock._schedule_prefetch found (popped p idx) = lock.Deadlock p'
                  ∧ lock.get_frame found p idx = lock.Blocked p'))
  end.
Proof.
  unfold get_frame, lock.get_frame.
  destruct (indicies p !! current_index p) as [expected |]; [| done].
  case_decide as Hne; [done |].
  assert (idx = expected) as -> by (destruct (decide (idx = expected)); done).
  destruct (buffer p !! expected) as [data |]; [| done].
  split; [done |]. fold (popped p expected).
  destruct (lock._schedule_prefetch found (popped p expected)) as [p' | e | p']
    eqn:Hs; [left; eauto | | right; eauto].
  by apply schedule_loop_no_raise in Hs.
Qed.

Lemma lock_get_frame_on_time found p idx :
  (∀ i, found i = None) →
  lock.get_frame found p idx =
  match get_frame p idx with
  | Raised e => lock.Raised e
  | Waiting => lock.Waiting
  | Returned data p' => lock.Returned data p'
  end.
Proof.
  intros Hnone. pose proof (lock_get_frame_cases found p idx) as Hc.
  destruct (get_frame p idx) as [e | | data q']; try done.
  destruct Hc as [-> [(p' & Hs & ->) | (p' & Hs & _)]];
    rewrite lock_schedule_on_time in Hs by done; congruence.
Qed.

Lemma lock_init_plain found (seq : list Z) bs nw action :
  match lock.__init__ found seq bs nw action with
  | lock.Raises e => __init__ (R:=R) seq bs nw action = Raise e
  | lock.Returns p0 =>
      ∃ q0, __init__ seq bs nw action = Ok q0
        ∧ ∀ calls, reached (start q0 calls) (start p0 calls)
  | lock.Deadlock _ => ∃ q0, __init__ (R:=R) seq bs nw action = Ok q0
  end.
Proof.
  unfold lock.__init__, __init__.
  destruct (select_action action) as [fn | e]; [| done].
  destruct (ThreadPoolExecutor_new nw) as [pool | e]; [| done].
  set (p := {| buffer_size := bs; current_index := 0%nat; indicies := seq;
               buffer := ∅; action_fn := fn; in_progress := ∅;
               executor := pool; printed := [] |}).
  destruct (lock._schedule_prefetch found p) as [p0 | e | p'] eqn:Hs.
  - exists (_schedule_prefetch p). split; [done |]. intros calls.
    exists (early_failures found (elements (indices_to_fetch p))).
    by rewrite (schedule_loop_run found _ p p0 (start (_schedule_prefetch p) calls)).
  - by apply schedule_loop_no_raise in Hs.
  - eauto.
Qed.

Lemma schedule_loop_static found l : ∀ p p',
  lock.schedule_loop found p l = lock.Returns p' →
  indicies p' = indicies p ∧ current_index p' = current_index p
  ∧ buffer_size p' = buffer_size p ∧ buffer p' = buffer p
  ∧ action_fn p' = action_fn p
  ∧ max_workers (executor p') = max_workers (executor p)
  ∧ in_progress p' = list_to_set l ∪ in_progress p.
Proof.
  induction l as [| idx l IH]; intros p p'; simpl.
  - intros [= <-]. split_and!; try done. set_solver.
  - destruct (found idx) as [[r | e] |]; simpl; [done | |];
      intros (-> & -> & -> & -> & -> & -> & ->)%IH; simpl;
      split_and!; try done; set_solver.
Qed.

Lemma lock_init_unfold found (seq : list Z) bs nw action :
  valid_action action → 1 ≤ nw → 0 ≤ bs →
  ∃ fn, select_action action = Ok fn
    ∧ lock.__init__ found seq bs nw action
      = lock.schedule_loop found
          {| buffer_size := bs; current_index := 0%nat; indicies := seq;
             buffer := ∅; action_fn := fn; in_progress := ∅;
             executor := {| max_workers := nw; pending := [] |};
             printed := [] |}
          (elements (list_to_set (take (Z.to_nat bs) seq) : gset Z)).
Proof.
  intros Hact Hnw Hbs. unfold lock.__init__, ThreadPoolExecutor_new.
  destruct (select_action_valid _ Hact) as [fn ->]. exists fn. split; [done |].
  destruct (Z.leb_spec nw 0); [lia |].
  unfold lock._schedule_prefetch, indices_to_fetch, needed_indices, window.
  simpl. rewrite (py_slice_window seq 0 bs) by lia. rewrite drop_0.
  do 2 f_equal. set_solver.
Qed.

(** The constructor returns unless it finds a future of the first window
    done with a result. *)
Lemma lock_init_cases found (seq : list Z) bs nw action :
  valid_action action → 1 ≤ nw → 0 ≤ bs →
  ((∃ p, lock.__init__ found seq bs nw action = lock.Deadlock p)
   ↔ ∃ idx r, idx ∈ take (Z.to_nat bs) seq ∧ found idx = Some (Ok r))
  ∧ ((∃ p, lock.__init__ found seq bs nw action = lock.Returns p)
     ↔ ∀ idx r, idx ∈ take (Z.to_nat bs) seq → found idx ≠ Some (Ok r)).
Proof.
  intros Hact Hnw Hbs.
  destruct (lock_init_unfold found seq bs nw action Hact Hnw Hbs)
    as (fn & _ & ->).
  rewrite schedule_loop_deadlock.
  destruct (schedule_loop_cases found
              (elements (list_to_set (take (Z.to_nat bs) seq) : gset Z))
              {| buffer_size := bs; current_index := 0%nat; indicies := seq;
                 buffer := ∅; action_fn := fn; in_progress := ∅;
                 executor := {| max_workers := nw; pending := [] |};
                 printed := [] |})
    as [[(i & r & Hin & Hf) [p' Hd]] | [Hall [p' Hr]]].
  - split; [by setoid_rewrite elem_of_elements; setoid_rewrite elem_of_list_to_set |].
    rewrite Hd. split; [by intros [? [=]] |].
    intros Hnone. apply elem_of_elements, elem_of_list_to_set in Hin.
    by destruct (Hnone i r Hin).
  - split; [by setoid_rewrite elem_of_elements; setoid_rewrite elem_of_list_to_set |].
    split; [| by eauto]. intros _ i r Hin. apply Hall.
    by apply elem_of_elements, elem_of_list_to_set.
Qed.

Lemma lock_init_fields found (seq : list Z) bs nw action p :
  valid_action action → 1 ≤ nw → 0 ≤ bs →
  lock.__init__ found seq bs nw action = lock.Returns p →
  buffer_size p = bs ∧ max_workers (executor p) = nw ∧ indicies p = seq
  ∧ current_index p = 0%nat ∧ buffer p = ∅
  ∧ select_action action = Ok (action_fn p)
  ∧ in_progress p = list_to_set (take (Z.to_nat bs) seq).
Proof.
  intros Hact Hnw Hbs.
  destruct (lock_init_unfold found seq bs nw action Hact Hnw Hbs)
    as (fn & Hfn & ->).
  intros (-> & -> & -> & -> & -> & -> & ->)%schedule_loop_static. simpl.
  split_and!; try done. set_solver.
Qed.

(** A constructor that finds every future on time is the constructor
    without the lock. *)
Lemma lock_init_on_time found (seq : list Z) bs nw action p :
  (∀ idx, found idx = None) →
  lock.__init__ found seq bs nw action = lock.Returns p →
  __init__ seq bs nw action = Ok p.
Proof.
  intros Htime. unfold lock.__init__, __init__.
  destruct (select_action action); [| done].
  destruct (ThreadPoolExecutor_new nw); [| done].
  rewrite lock_schedule_on_time by done. congruence.
Qed.

Lemma run_app (tr1 tr2 : list (event R)) : ∀ s,
  run s (tr1 ++ tr2) = run s tr1 ≫= λ s1, run s1 tr2.
Proof.
  induction tr1 as [| ev tr1 IH]; intros s; simpl; [done |].
  destruct (step s ev); simpl; [by apply IH | done].
Qed.

Lemma reached_run s0 s s' (tr : list (event R)) :
  reached s0 s → run s tr = Some s' → reached s0 s'.
Proof.
  intros [tr0 H0] Hrun. exists (tr0 ++ tr). by rewrite run_app, H0.
Qed.

Lemma mirrors_self (ls : lock.state R) : mirrors ls (lock.sys ls).
Proof. done. Qed.

(** Every step of the loop with the lock is mirrored by steps of the loop
    without. *)
Lemma lock_step_mirrored s0 (ls ls1 : lock.state R) ev s :
  lock.step ls ev = Some ls1 → reached s0 s → mirrors ls s →
  ∃ s1, reached s0 s1 ∧ mirrors ls1 s1.
Proof.
  intros Hstep Hreach (Hd & Hr & Hsame).
  destruct (lock.stuck ls) eqn:Hstuck.
  { (* the consumer is stuck: nothing is delivered or raised any more *)
    exists s. split; [done |].
    destruct ev as [idx acted | found]; simpl in Hstep; rewrite Hstuck in Hstep.
    - case_decide; [| done].
      destruct acted as [r | e]; simpl in Hstep; injection Hstep as <-;
        by split_and!.
    - injection Hstep as <-. split_and!; try done. by rewrite Hstuck. }
  specialize (Hsame eq_refl). subst s. clear Hd Hr.
  destruct ev as [idx acted | found]; simpl in Hstep; rewrite Hstuck in Hstep.
  - case_decide as Hpen; [| done]. injection Hstep as <-.
    eexists. split; [| apply mirrors_self].
    apply (reached_run _ _ _ [WorkerDone idx acted] Hreach).
    simpl. by rewrite decide_True.
  - destruct (raised (lock.sys ls)) as [e0 |] eqn:Hraised.
    { injection Hstep as <-. exists (lock.sys ls). split; [done | apply mirrors_self]. }
    destruct (todo (lock.sys ls)) as [| idx rest] eqn:Htodo.
    { injection Hstep as <-. exists (lock.sys ls). split; [done | apply mirrors_self]. }
    pose proof (lock_get_frame_cases found (pf (lock.sys ls)) idx) as Hc.
    destruct (get_frame (pf (lock.sys ls)) idx) as [e | | data q'] eqn:Hg.
    + rewrite Hc in Hstep. injection Hstep as <-.
      eexists. split; [| apply mirrors_self].
      apply (reached_run _ _ _ [ConsumerPoll] Hreach).
      simpl. by rewrite Hraised, Htodo, Hg.
    + rewrite Hc in Hstep. injection Hstep as <-.
      exists (lock.sys ls). split; [done | apply mirrors_self].
    + destruct Hc as [-> [(p' & Hs & Hl) | (p' & Hs & Hl)]];
        rewrite Hl in Hstep; injection Hstep as <-.
      * eexists. split; [| apply mirrors_self].
        apply (reached_run _ _ _
                 (ConsumerPoll
                    :: early_failures found
                         (elements (indices_to_fetch
                                      (popped (pf (lock.sys ls)) idx))))
                 Hreach).
        simpl. rewrite Hraised, Htodo, Hg.
        by rewrite (schedule_loop_run found _ _ p' _ Hs).
      * exists (lock.sys ls). split; [done |]. by split_and!.
Qed.

Lemma lock_run_mirrored s0 (tr : list (lock.event R)) :
  ∀ (ls ls' : lock.state R) s,
  lock.run ls tr = Some ls' → reached s0 s → mirrors ls s →
  ∃ s', reached s0 s' ∧ mirrors ls' s'.
Proof.
  induction tr as [| ev tr IH]; intros ls ls' s; simpl.
  - intros [= <-]. eauto.
  - destruct (lock.step ls ev) as [ls1 |] eqn:Hstep; [| done].
    intros Hrun Hreach Hm.
    destruct (lock_step_mirrored s0 ls ls1 ev s Hstep Hreach Hm)
      as (s1 & Hreach1 & Hm1).
    by apply (IH ls1 ls' s1).
Qed.

End LockSteps.

(** ** The loop against an adversarial pool *)

Section Progress.
Context {R : Type}.
Implicit Types (p : FramePrefetcher R) (sched : nat → nat * R).
Implicit Types (found : nat → lock.timing R).

Lemma head_needed p idx :
  1 ≤ buffer_size p → indicies p !! current_index p = Some idx →
  idx ∈ needed_indices p.
Proof.
  intros Hbs Hcur. unfold needed_indices, window.
  rewrite py_slice_window by lia. rewrite (drop_S _ _ _ Hcur).
  destruct (Z.to_nat (buffer_size p)) as [| n] eqn:Hn; [lia |].
  simpl. set_solver.
Qed.

(** While no task has failed, the awaited index is buffered or its future
    is pending. *)
Lemma awaited_buffered_or_pending p idx :
  coherent p → covered p → no_failure p → 1 ≤ buffer_size p →
  indicies p !! current_index p = Some idx →
  is_Some (buffer p !! idx) ∨ idx ∈ pending (executor p).
Proof.
  intros Hco Hcov Hnf Hbs Hcur.
  pose proof (Hcov _ (head_needed p idx Hbs Hcur)) as [Hb | Hm]%elem_of_union.
  - left. by apply elem_of_dom.
  - right. by apply Hnf.
Qed.

Lemma await_returns fuel sched found tick p idx :
  on_time found →
  coherent p → covered p → no_failure p → 1 ≤ buffer_size p →
  indicies p !! current_index p = Some idx →
  (length (pending (executor p)) ≤ fuel)%nat →
  ∃ data p' tick',
    lock.await fuel sched found tick p idx = Some (data, p', tick')
    ∧ index data = idx
    ∧ coherent p' ∧ covered p' ∧ no_failure p'
    ∧ indicies p' = indicies p ∧ buffer_size p' = buffer_size p
    ∧ current_index p' = S (current_index p).
Proof.
  intros Hfound. revert tick p.
  induction fuel as [| fuel IH]; intros tick p Hco Hcov Hnf Hbs Hcur Hlen;
    pose proof (get_frame_expected p idx Hcur) as Hget;
    pose proof (awaited_buffered_or_pending p idx Hco Hcov Hnf Hbs Hcur) as Hwait;
    destruct (buffer p !! idx) as [data |] eqn:Hbuf; simpl;
    rewrite (lock_get_frame_on_time _ p idx (Hfound (S (current_index p)))), Hget.
  1, 3: (exists data, (_schedule_prefetch (popped p idx)), tick;
         destruct (get_frame_static _ _ _ _ Hget) as (? & ? & ?);
         destruct (get_frame_coherent _ _ _ _ Hco Hget);
         split_and!; try done;
         [by apply (buffer_keys _ Hco _ _ Hbuf) | by eapply get_frame_no_failure]).
  - destruct Hwait as [[? [=]] | Hin].
    destruct (pending (executor p)); [by apply elem_of_nil in Hin | simpl in Hlen; lia].
  - destruct Hwait as [[? [=]] | Hin].
    destruct (pick_elem_of (sched tick).1 (pending (executor p)))
      as (done & -> & Hdone); [by intros Heq; rewrite Heq in Hin; apply elem_of_nil in Hin |].
    destruct (worker_done_static p done (Ok (sched tick).2)) as (Hi & Hc & Hb & _).
    destruct (IH (S tick) (worker_done p done (Ok (sched tick).2)))
      as (data & p' & tick' & Haw & ? & ? & ? & ? & Hi' & Hb' & Hc').
    + by apply worker_done_coherent.
    + by apply worker_done_covered.
    + by apply worker_done_no_failure.
    + by rewrite Hb.
    + by rewrite Hi, Hc.
    + rewrite worker_done_ok by (by apply (pending_marked _ Hco)). simpl.
      pose proof (remove_one_length _ _ Hdone). lia.
    + exists data, p', tick'. rewrite Hi', Hb', Hc'. by rewrite Hi, Hb, Hc.
Qed.

Lemma consume_delivers sched found (rest : list Z) :
  on_time found →
  ∀ tick p,
  coherent p → covered p → no_failure p → 1 ≤ buffer_size p →
  drop (current_index p) (indicies p) = rest →
  ∃ ds, lock.consume sched found tick p rest = Some ds ∧ index <$> ds = rest.
Proof.
  intros Hfound.
  induction rest as [| idx rest IH]; intros tick p Hco Hcov Hnf Hbs Hdrop; simpl.
  - by exists [].
  - apply todo_head in Hdrop as [Hcur Hrest].
    destruct (await_returns (length (pending (executor p))) sched found tick p idx)
      as (data & p' & tick' & -> & Hidx & ? & ? & ? & Hi & Hb & Hc); try done.
    destruct (IH tick' p') as (ds & -> & Hds); try done.
    + by rewrite Hb.
    + by rewrite Hi, Hc.
    + exists (data :: ds). by rewrite fmap_cons, Hidx, Hds.
Qed.

(** A call of [get_frame] that does not return ends the loop. *)
Lemma consume_blocked sched found tick p idx (rest : list Z) p' :
  lock.get_frame (found (S (current_index p))) p idx = lock.Blocked p' →
  lock.consume sched found tick p (idx :: rest) = None.
Proof.
  intros Hb. simpl. by destruct (length (pending (executor p))); simpl; rewrite Hb.
Qed.

End Progress.

(** ** Counting tasks, bounding the buffer, abandoned tasks *)

Section Counting.
Context {R : Type}.
Implicit Types (p : FramePrefetcher R).

Lemma NoDup_filter_eq_length (idx : Z) (l : list Z) :
  NoDup l →
  length (filter (λ x, x = idx) l) = if decide (idx ∈ l) then 1%nat else 0%nat.
Proof.
  induction 1 as [| x l Hx Hl IH]; [done |].
  rewrite filter_cons. destruct (decide (x = idx)) as [-> | Hne]; simpl.
  - rewrite IH, decide_False, decide_True by set_solver. done.
  - rewrite IH. repeat case_decide; set_solver.
Qed.

Lemma coherent_tasks_for p idx : coherent p → (tasks_for p idx ≤ 1)%nat.
Proof.
  intros [Hnd Hm Hdisj Hk]. unfold tasks_for.
  rewrite NoDup_filter_eq_length by done.
  case_decide as Hin; [| destruct (buffer p !! idx); lia].
  destruct (buffer p !! idx) eqn:Hb; [| lia].
  apply Hm in Hin. assert (idx ∈ dom (buffer p)) by (apply elem_of_dom; eauto).
  set_solver.
Qed.

Lemma size_list_to_set_le (l : list Z) :
  (size (list_to_set l : gset Z) ≤ length l)%nat.
Proof.
  induction l as [| x l IH]; [by rewrite list_to_set_nil, size_empty |].
  rewrite list_to_set_cons. simpl.
  destruct (decide (x ∈ (list_to_set l : gset Z))).
  - rewrite (subseteq_union_1_L {[x]}) by set_solver. lia.
  - rewrite size_union by set_solver. rewrite size_singleton. lia.
Qed.

Lemma bounded_size p :
  0 ≤ buffer_size p → coherent p → bounded p →
  Z.of_nat (size (buffer p) + size (in_progress p)) ≤ buffer_size p.
Proof.
  intros Hbs Hco Hb. unfold bounded, needed_indices, window in Hb.
  rewrite py_slice_window in Hb by done.
  apply subseteq_size in Hb.
  rewrite size_union in Hb by (pose proof (marked_not_buffered p Hco); set_solver).
  rewrite size_dom in Hb.
  pose proof (size_list_to_set_le
                (take (Z.to_nat (buffer_size p)) (drop (current_index p) (indicies p)))) as Hle.
  rewrite length_take in Hle. lia.
Qed.

Lemma bounded_position p idx :
  0 ≤ buffer_size p → bounded p → is_Some (buffer p !! idx) →
  ∃ pos : nat, (current_index p ≤ pos)%nat
    ∧ Z.of_nat pos < Z.of_nat (current_index p) + buffer_size p
    ∧ indicies p !! pos = Some idx.
Proof.
  intros Hbs Hb Hin%elem_of_dom. unfold bounded, needed_indices, window in Hb.
  rewrite py_slice_window in Hb by done.
  assert (Hx : idx ∈ (list_to_set (take (Z.to_nat (buffer_size p))
                        (drop (current_index p) (indicies p))) : gset Z)) by set_solver.
  apply elem_of_list_to_set, list_elem_of_lookup in Hx as [i Hi].
  apply lookup_take_Some in Hi as [Hi Hlt]. rewrite lookup_drop in Hi.
  exists (current_index p + i)%nat. split_and!; [lia | lia | done].
Qed.

Lemma run_abandoned idx (tr : list (event R)) s s' :
  abandoned (pf s) idx → run s tr = Some s' → abandoned (pf s') idx.
Proof.
  apply (run_preserves (λ p, abandoned p idx)).
  - intros p done acted (Hco & Hin & Hnp) Hdone. split_and!.
    + by apply worker_done_coherent.
    + assert (done ≠ idx) by (by intros ->).
      destruct acted as [r | e]; [| done].
      rewrite worker_done_ok by (by apply (pending_marked _ Hco)). simpl. set_solver.
    + intros Hp. apply Hnp.
      destruct acted as [r | e].
      * rewrite worker_done_ok in Hp by (by apply (pending_marked _ Hco)).
        by apply remove_one_subseteq in Hp.
      * rewrite worker_done_raise in Hp. by apply remove_one_subseteq in Hp.
  - intros p i data p' (Hco & Hin & Hnp) Hget. split_and!.
    + by eapply get_frame_coherent.
    + apply get_frame_returned in Hget as (_ & _ & ->).
      rewrite schedule_unfold. simpl. set_solver.
    + apply get_frame_returned in Hget as (_ & _ & ->).
      rewrite schedule_unfold. simpl. rewrite elem_of_app, elem_of_elements.
      unfold indices_to_fetch. simpl. set_solver.
Qed.

Lemma run_printed line (tr : list (event R)) s s' :
  line ∈ printed (pf s) → run s tr = Some s' → line ∈ printed (pf s').
Proof.
  apply (run_preserves (λ p, line ∈ printed p)).
  - intros p done acted Hin _. unfold worker_done, _store_frame_callback.
    destruct acted; simpl; [case_decide; simpl |]; set_solver.
  - intros p i data p' Hin (_ & _ & ->)%get_frame_returned.
    by rewrite schedule_unfold.
Qed.

End Counting.

(** ** What the constructor refuses *)

(** C4 (as the code has it).  Whatever its scheduling step finds of its
    futures, the constructor raises what the constructor without the lock
    raises: the [ValueError] of the action name when the name is neither
    ["process"] nor ["update"], and else the [ValueError] of the thread
    pool when [num_workers] is smaller than 1.  It raises in these cases
    only: the index sequence and [buffer_size] are never a reason to
    refuse.  With an empty sequence or a [buffer_size] of 0, a known action
    and at least one worker, it returns a prefetcher for which no task has
    been submitted. *)
Theorem init_fails_exactly_on_action_or_workers
    {R : Type} (found : lock.timing R) (S : list Z) (bs nw : Z)
    (action : string) :
  (∀ e, lock.__init__ found S bs nw action = lock.Raises e
        ↔ __init__ (R:=R) S bs nw action = Raise e)
  ∧ (¬ valid_action action →
     lock.__init__ found S bs nw action
     = lock.Raises
         (ValueError
            ("Action must be one of 'process' or 'update', got " +:+ action)))
  ∧ (valid_action action → nw < 1 →
     lock.__init__ found S bs nw action
     = lock.Raises (ValueError "max_workers must be greater than 0"))
  ∧ ((∃ e, lock.__init__ found S bs nw action = lock.Raises e)
     ↔ (¬ valid_action action ∨ nw < 1))
  ∧ (valid_action action → 1 ≤ nw → S = [] ∨ bs = 0 →
     ∃ p, lock.__init__ found S bs nw action = lock.Returns p
       ∧ pending (executor p) = [] ∧ in_progress p = ∅
       ∧ indicies p = S ∧ buffer_size p = bs).
Proof.
  assert (Hsame : ∀ e, lock.__init__ found S bs nw action = lock.Raises e
                       ↔ __init__ (R:=R) S bs nw action = Raise e).
  { intros e. unfold lock.__init__, __init__.
    destruct (select_action action) as [fn | e0]; [| split; congruence].
    destruct (ThreadPoolExecutor_new nw) as [pool | e0]; [| split; congruence].
    split; [| done]. by intros ?%schedule_loop_no_raise. }
  split_and!; try done.
  - intros Hbad. unfold lock.__init__.
    by rewrite (select_action_invalid _ Hbad).
  - intros Hact Hnw. unfold lock.__init__, ThreadPoolExecutor_new.
    destruct (select_action_valid _ Hact) as [fn ->].
    by destruct (Z.leb_spec nw 0); [| lia].
  - setoid_rewrite Hsame. split.
    + intros [e He].
      destruct (decide (valid_action action)) as [Hact |]; [| by left].
      destruct (decide (nw < 1)); [by right |].
      destruct (init_ok (R:=R) S bs nw action Hact ltac:(lia)) as [p Hp].
      congruence.
    + intros Hbad.
      destruct (init_raises (R:=R) S bs nw action Hbad) as [msg Hm]. eauto.
  - intros Hact Hnw Hempty. unfold lock.__init__, ThreadPoolExecutor_new.
    destruct (select_action_valid _ Hact) as [fn ->].
    destruct (Z.leb_spec nw 0); [lia |].
    unfold lock._schedule_prefetch.
    match goal with
    | |- context [elements (indices_to_fetch ?p0)] =>
        assert (Hnone : indices_to_fetch p0 = ∅)
    end.
    { unfold indices_to_fetch, needed_indices, window. simpl.
      destruct Hempty as [-> | ->].
      - unfold py_slice. rewrite drop_nil, take_nil. set_solver.
      - rewrite (py_slice_window S 0 0) by lia. simpl. set_solver. }
    rewrite Hnone, elements_empty. simpl. by eexists.
Qed.

(** C4 (as the specification has it) fails: an empty index sequence is
    accepted, and so is a [buffer_size] of 0. *)
Lemma init_accepts_empty_sequence_and_zero_buffer :
  (∃ p : FramePrefetcher (), __init__ [] 8 8 "process" = Ok p)
  ∧ (∃ p : FramePrefetcher (), __init__ [5; 6; 7] 0 8 "process" = Ok p)
  ∧ (∃ p : FramePrefetcher (), __init__ [5; 6; 7] (-3) 8 "update" = Ok p).
Proof. split_and!; eexists; vm_compute; reflexivity. Qed.

(** ** The order of the results, and the calls that do not return *)

Section Order.
Context {R : Type}.
Implicit Types (p : FramePrefetcher R) (s : system R) (seq : list Z).

(** Without the lock: what the loop has received is a prefix of the
    sequence, and nothing is raised. *)
Lemma run_delivers_in_order seq bs nw action p0 (tr : list (event R)) s :
  __init__ seq bs nw action = Ok p0 →
  run (start p0 seq) tr = Some s →
  raised s = None
  ∧ index <$> delivered s = take (length (delivered s)) seq
  ∧ todo s = drop (length (delivered s)) seq
  ∧ indicies (pf s) !! length (delivered s) = seq !! length (delivered s)
  ∧ length (delivered s) = current_index (pf s).
Proof.
  intros Hinit Hrun.
  destruct (init_invariants _ _ _ _ _ Hinit) as (Hco & Hcov & Hb & Hnf).
  destruct (init_fields _ _ _ _ _ Hinit) as (Hbs0 & _ & Hi & Hc & _).
  assert (Hstep : in_step seq s).
  { eapply run_in_step; [| | exact Hrun]; [done | by apply start_in_step]. }
  destruct (run_static _ _ _ Hrun) as [Hi' Hbs']. simpl in Hi', Hbs'.
  destruct Hstep as [Hli Hlt Hld Hlr].
  assert (Hle : (current_index (pf s) ≤ length (indicies (pf s)))%nat).
  { revert Hrun.
    apply (run_preserves (λ p, (current_index p ≤ length (indicies p))%nat)).
    - intros p idx acted Hle _.
      by destruct (worker_done_static p idx acted) as (-> & -> & _).
    - intros p idx data p' Hle Hget.
      destruct (get_frame_static _ _ _ _ Hget) as (-> & _ & ->).
      apply get_frame_returned in Hget as (Hcur%lookup_lt_Some & _). lia.
    - simpl. rewrite Hc. lia. }
  assert (Hlen : length (delivered s) = current_index (pf s)).
  { rewrite <- (length_fmap index), Hld, length_take. rewrite Hli in Hle. lia. }
  rewrite Hlen, Hli. by split_and!.
Qed.

(** Without the lock, as long as no task fails: the call for the next
    index returns its result or waits for a future that is pending. *)
Lemma run_progress seq bs nw action p0 (tr : list (event R)) s idx rest :
  __init__ seq bs nw action = Ok p0 → 1 ≤ bs →
  run (start p0 seq) tr = Some s →
  forallb succeeds tr = true →
  todo s = idx :: rest →
  (∃ data p', get_frame (pf s) idx = Returned data p' ∧ index data = idx)
  ∨ (get_frame (pf s) idx = Waiting ∧ idx ∈ pending (executor (pf s))).
Proof.
  intros Hinit Hbs Hrun Hok Htodo.
  destruct (init_invariants _ _ _ _ _ Hinit) as (Hco & Hcov & Hb & Hnf).
  destruct (init_fields _ _ _ _ _ Hinit) as (Hbs0 & _ & Hi & Hc & _).
  destruct (run_sound tr (start p0 seq) s (conj Hco Hcov) Hrun) as [Hco' Hcov'].
  destruct (run_static _ _ _ Hrun) as [Hi' Hbs']. simpl in Hi', Hbs'.
  destruct (run_delivers_in_order _ _ _ _ _ _ _ Hinit Hrun)
    as (_ & _ & Hlt & _ & Hlen).
  assert (Hnf' : no_failure (pf s)).
  { eapply run_no_failure; [exact Hok | | | exact Hrun]; done. }
  rewrite Hlt, Hlen in Htodo. apply todo_head in Htodo as [Hcur _].
  rewrite <- Hi, <- Hi' in Hcur.
  pose proof (get_frame_expected _ _ Hcur) as Hget.
  destruct (awaited_buffered_or_pending (pf s) idx) as [[d Hd] | Hp];
    try done; [by rewrite Hbs', Hbs0 | |].
  - rewrite Hd in Hget. left. eexists _, _. split; [done |].
    by apply (buffer_keys _ Hco' _ _ Hd).
  - destruct (buffer (pf s) !! idx) as [d |] eqn:Hd.
    + left. eexists _, _. split; [done |]. by apply (buffer_keys _ Hco' _ _ Hd).
    + by right.
Qed.

(** With the lock, while no future is found done early and no task fails,
    the loop is the loop without the lock. *)
Lemma undisturbed_run (tr : list (lock.event R)) :
  ∀ ls ls' : lock.state R,
  Forall undisturbed tr → lock.stuck ls = false →
  lock.run ls tr = Some ls' →
  lock.stuck ls' = false
  ∧ run (lock.sys ls) (plain_event <$> tr) = Some (lock.sys ls')
  ∧ forallb succeeds (plain_event <$> tr) = true.
Proof.
  induction tr as [| ev tr IH]; intros ls ls' Hall Hstuck; simpl.
  - by intros [= <-].
  - apply Forall_cons in Hall as [Hev Hall].
    destruct (lock.step ls ev) as [ls1 |] eqn:Hstep; [| done]. intros Hrun.
    assert (lock.stuck ls1 = false
            ∧ step (lock.sys ls) (plain_event ev) = Some (lock.sys ls1)
            ∧ succeeds (plain_event ev) = true) as (Hs1 & Hp & Hok).
    { destruct ev as [idx acted | found]; simpl in Hstep, Hev |- *;
        rewrite Hstuck in Hstep.
      - destruct Hev as [r ->]. case_decide; [| done].
        injection Hstep as <-. by split_and!.
      - destruct (raised (lock.sys ls)) as [e0 |];
          [injection Hstep as <-; by split_and! |].
        destruct (todo (lock.sys ls)) as [| idx rest];
          [injection Hstep as <-; by split_and! |].
        rewrite (lock_get_frame_on_time found _ idx Hev) in Hstep.
        destruct (get_frame (pf (lock.sys ls)) idx) as [e | | data q'];
          injection Hstep as <-; by split_and!. }
    rewrite Hp. destruct (IH ls1 ls' Hall Hs1 Hrun) as (? & ? & ?).
    split_and!; try done. by rewrite Hok.
Qed.

End Order.

(** C1.  The specification has every call of [get_frame] return the
    result of its index.  In the code a call of [get_frame], and the
    constructor before it, need not return.  With a known action, at least
    one worker and a [buffer_size] of at least 1:

    - the constructor never returns exactly when its scheduling step finds
      the future of one of the first [buffer_size] indices done with a
      result at the time the callback is registered, and it returns exactly
      when it finds none of them so;
    - in any state in which [get_frame] has its entry, the call takes the
      entry and never returns exactly when its scheduling step finds one of
      the futures it submits done with a result;
    - what is kept is the order: along every interleaving of worker
      completions and polls of the consumer, whatever is found at the
      scheduling steps, no call of [get_frame] raises and the results
      returned so far carry the indices [seq[0]], [seq[1]], ... in this
      order;
    - as long as no future is done before its callback is registered and no
      task fails, the consumer is not stuck, and the call for the next
      index returns a result with that index or waits for a future that is
      still pending;
    - and against every pool that completes its futures after their
      callbacks are registered, whichever pending future it completes
      whenever the consumer waits, the loop returns one result per index of
      [seq], in the order of [seq]. *)
Theorem get_frame_keeps_order_but_need_not_return
    {R : Type} (seq : list Z) (bs nw : Z) (action : string) :
  valid_action action → 1 ≤ nw → 1 ≤ bs →
  (∀ found : lock.timing R,
     ((∃ p, lock.__init__ found seq bs nw action = lock.Deadlock p)
      ↔ ∃ idx r, idx ∈ take (Z.to_nat bs) seq ∧ found idx = Some (Ok r))
     ∧ ((∃ p, lock.__init__ found seq bs nw action = lock.Returns p)
        ↔ ∀ idx r, idx ∈ take (Z.to_nat bs) seq → found idx ≠ Some (Ok r)))
  ∧ (∀ (found : lock.timing R) (p : FramePrefetcher R) idx data p',
       get_frame p idx = Returned data p' →
       (∃ q, lock.get_frame found p idx = lock.Blocked q)
       ↔ ∃ i r, i ∈ indices_to_fetch
                       (set_current_index (S (current_index p))
                          (set_buffer (delete idx (buffer p)) p))
                ∧ found i = Some (Ok r))
  ∧ (∀ (found : lock.timing R) p0 tr s,
       lock.__init__ found seq bs nw action = lock.Returns p0 →
       lock.run (lock.start p0 seq) tr = Some s →
       raised (lock.sys s) = None
       ∧ index <$> delivered (lock.sys s)
         = take (length (delivered (lock.sys s))) seq
       ∧ ((∀ i, found i = None) → Forall undisturbed tr →
          lock.stuck s = false
          ∧ ∀ idx rest timing,
              todo (lock.sys s) = idx :: rest →
              (∀ i, timing i = None) →
              (∃ data p',
                 lock.get_frame timing (pf (lock.sys s)) idx
                 = lock.Returned data p' ∧ index data = idx)
              ∨ (lock.get_frame timing (pf (lock.sys s)) idx = lock.Waiting
                 ∧ idx ∈ pending (executor (pf (lock.sys s))))))
  ∧ (∀ (found : nat → lock.timing R) p0 sched,
       on_time found →
       lock.__init__ (found 0%nat) seq bs nw action = lock.Returns p0 →
       ∃ ds, lock.consume sched found 0 p0 seq = Some ds ∧ index <$> ds = seq).
Proof.
  intros Hact Hnw Hbs. split_and!.
  - intros found. apply lock_init_cases; [done | done | lia].
  - intros found p idx data p' Hget.
    pose proof (lock_get_frame_cases found p idx) as Hc. rewrite Hget in Hc.
    fold (popped p idx).
    destruct Hc as [_ [(q & Hs & Hl) | (q & Hs & Hl)]]; rewrite Hl.
    + split; [by intros [? [=]] |]. intros (i & r & Hin & Hf).
      assert (Hd : ∃ q', lock._schedule_prefetch found (popped p idx)
                         = lock.Deadlock q').
      { apply schedule_loop_deadlock. exists i, r.
        split; [by apply elem_of_elements | done]. }
      destruct Hd as [q' Hd]. congruence.
    + split; [| by eauto]. intros _.
      assert (Hd : ∃ q', lock._schedule_prefetch found (popped p idx)
                         = lock.Deadlock q') by eauto.
      apply schedule_loop_deadlock in Hd as (i & r & Hin%elem_of_elements & Hf).
      eauto.
  - intros found p0 tr s Hinit Hrun.
    pose proof (lock_init_plain found seq bs nw action) as Hplain.
    rewrite Hinit in Hplain. destruct Hplain as (q0 & Hq0 & Hreach).
    destruct (lock_run_mirrored (start q0 seq) tr (lock.start p0 seq) s
                (start p0 seq) Hrun (Hreach seq) (mirrors_self _))
      as (s' & [tr' Hrun'] & Hd & Hr & Hsame).
    destruct (run_delivers_in_order _ _ _ _ _ _ _ Hq0 Hrun') as (Hraised & Hord & _).
    rewrite <- Hd, <- Hr. split_and!; try done.
    intros Htime0 Hund.
    destruct (undisturbed_run tr (lock.start p0 seq) s Hund eq_refl Hrun)
      as (Hstuck & Hrun0 & Hok).
    split; [done |]. intros idx rest timing Htodo Htime.
    rewrite (lock_get_frame_on_time timing _ idx Htime).
    assert (p0 = q0) as ->
      by (apply (lock_init_on_time _ _ _ _ _ _ Htime0) in Hinit; congruence).
    destruct (run_progress seq bs nw action q0 (plain_event <$> tr)
                (lock.sys s) idx rest) as [(data & p' & Hg & Hi) | [Hg Hp]];
      try done.
    + left. rewrite Hg. eauto.
    + right. by rewrite Hg.
  - intros found p0 sched Htime Hinit.
    pose proof (lock_init_plain (found 0%nat) seq bs nw action) as Hplain.
    rewrite Hinit in Hplain. destruct Hplain as (q0 & Hq0 & _).
    assert (p0 = q0) as ->
      by (apply (lock_init_on_time _ _ _ _ _ _ (Htime 0%nat)) in Hinit; congruence).
    destruct (init_invariants _ _ _ _ _ Hq0) as (Hco & Hcov & _ & Hnf).
    destruct (init_fields _ _ _ _ _ Hq0) as (Hbs0 & _ & Hi & Hc & _).
    apply consume_delivers; try done; [by rewrite Hbs0 | by rewrite Hc, Hi].
Qed.

Lemma get_frame_keeps_order_but_need_not_return_witness :
  ∃ p : FramePrefetcher (),
    lock.__init__ (λ _, Some (Ok ())) [0] 8 8 "process" = lock.Deadlock p.
Proof.
  refine (proj2 (proj1 (proj1 (get_frame_keeps_order_but_need_not_return
                                 (R:=()) [0] 8 8 "process" _ _ _)
                          (λ _, Some (Ok ())))) _).
  - by left.
  - lia.
  - lia.
  - exists 0, (). split; [vm_compute; set_solver | done].
Defined.

(** C2.  In every state a run of the prefetcher reaches, each index has at
    most one task, pending or buffered; a pending future is marked in
    progress and its index is not in the buffer.  The scheduling step, in
    any state, submits exactly the indices of the upcoming window that are
    neither buffered nor in progress, each once, and marks them; none of
    them is buffered or in progress when it is submitted. *)
Theorem no_duplicate_task_per_index
    {R : Type} (seq calls : list Z) (bs nw : Z) (action : string)
    (p0 : FramePrefetcher R) (tr : list (event R)) (s : system R) :
  __init__ seq bs nw action = Ok p0 →
  run (start p0 calls) tr = Some s →
  (∀ idx, (tasks_for (pf s) idx ≤ 1)%nat)
  ∧ (∀ idx, idx ∈ pending (executor (pf s)) →
       idx ∈ in_progress (pf s) ∧ buffer (pf s) !! idx = None)
  ∧ (∀ q : FramePrefetcher R,
       let launched : gset Z :=
         list_to_set
           (py_slice (indicies q) (Z.of_nat (current_index q))
                     (Z.of_nat (current_index q) + buffer_size q))
         ∖ dom (buffer q) ∖ in_progress q in
       pending (executor (_schedule_prefetch q))
         = pending (executor q) ++ elements launched
       ∧ in_progress (_schedule_prefetch q) = launched ∪ in_progress q
       ∧ NoDup (elements launched)
       ∧ ∀ idx, idx ∈ elements launched →
           buffer q !! idx = None ∧ idx ∉ in_progress q).
Proof.
  intros Hinit Hrun.
  destruct (init_invariants _ _ _ _ _ Hinit) as (Hco & Hcov & _).
  destruct (run_sound tr (start p0 calls) s (conj Hco Hcov) Hrun) as [Hco' _].
  split_and!.
  - intros idx. by apply coherent_tasks_for.
  - intros idx Hin. split; [by apply (pending_marked _ Hco') |].
    apply not_elem_of_dom. pose proof (marked_not_buffered _ Hco').
    apply (pending_marked _ Hco') in Hin. set_solver.
  - intros q launched. rewrite schedule_unfold. simpl. split_and!; try done.
    + apply NoDup_elements.
    + intros idx Hin%elem_of_elements. subst launched.
      rewrite <- not_elem_of_dom. set_solver.
Qed.

Lemma no_duplicate_task_per_index_witness :
  ∃ s : system (),
    run (start (_schedule_prefetch
                  {| buffer_size := 2; current_index := 0%nat;
                     indicies := [5; 6; 5; 7]; buffer := ∅;
                     action_fn := process_frame; in_progress := ∅;
                     executor := {| max_workers := 8; pending := [] |};
                     printed := [] |}) [5; 6; 5; 7])
        [WorkerDone 6 (Ok ()); WorkerDone 5 (Ok ()); ConsumerPoll] = Some s
    ∧ ∀ idx, (tasks_for (pf s) idx ≤ 1)%nat.
Proof.
  eexists. split; [vm_compute; reflexivity |].
  refine (proj1 (no_duplicate_task_per_index
                   [5; 6; 5; 7] [5; 6; 5; 7] 2 8 "process"
                   (_schedule_prefetch
                      {| buffer_size := 2; current_index := 0%nat;
                         indicies := [5; 6; 5; 7]; buffer := ∅;
                         action_fn := process_frame; in_progress := ∅;
                         executor := {| max_workers := 8; pending := [] |};
                         printed := [] |})
                   [WorkerDone 6 (Ok ()); WorkerDone 5 (Ok ()); ConsumerPoll]
                   _ _ _)).
  - vm_compute; reflexivity.
  - vm_compute; reflexivity.
Defined.

(** C5.  With a [buffer_size] that is not negative, in every state a run
    of the prefetcher reaches, whatever the workers and the consumer did,
    the buffered results and the indices in progress together number at
    most [buffer_size]; every buffered index stands in the sequence at a
    position from the cursor on and less than [buffer_size] positions
    ahead of it; so the buffered entries that satisfy any given condition
    number at most [buffer_size]. *)
Theorem buffer_lookahead_bounded
    {R : Type} (seq calls : list Z) (bs nw : Z) (action : string)
    (p0 : FramePrefetcher R) (tr : list (event R)) (s : system R) :
  __init__ seq bs nw action = Ok p0 →
  0 ≤ bs →
  run (start p0 calls) tr = Some s →
  Z.of_nat (size (buffer (pf s)) + size (in_progress (pf s))) ≤ bs
  ∧ (∀ idx, is_Some (buffer (pf s) !! idx) →
       ∃ pos : nat, (current_index (pf s) ≤ pos)%nat
         ∧ Z.of_nat pos < Z.of_nat (current_index (pf s)) + bs
         ∧ seq !! pos = Some idx)
  ∧ (∀ beyond : Z → bool,
       Z.of_nat (size (filter (λ kv, beyond kv.1 = true) (buffer (pf s)))) ≤ bs).
Proof.
  intros Hinit Hbs Hrun.
  destruct (init_invariants _ _ _ _ _ Hinit) as (Hco & Hcov & Hb & _).
  destruct (init_fields _ _ _ _ _ Hinit) as (Hbs0 & _ & Hi & _).
  destruct (run_sound tr (start p0 calls) s (conj Hco Hcov) Hrun) as [Hco' _].
  destruct (run_static _ _ _ Hrun) as [Hi' Hbs']. simpl in Hi', Hbs'.
  assert (Hb' : bounded (pf s)).
  { eapply run_bounded; [| | | exact Hrun]; simpl; [lia | done..]. }
  assert (Hsz : Z.of_nat (size (buffer (pf s)) + size (in_progress (pf s))) ≤ bs).
  { rewrite <- Hbs0, <- Hbs'. apply bounded_size; [lia | done..]. }
  split_and!; [done | |].
  - intros idx Hin. rewrite <- Hbs0, <- Hbs', <- Hi, <- Hi'.
    apply bounded_position; [lia | done..].
  - intros beyond.
    pose proof (map_subseteq_size _ _
                  (map_filter_subseteq (λ kv, beyond kv.1 = true) (buffer (pf s)))).
    lia.
Qed.

Lemma buffer_lookahead_bounded_witness :
  ∃ s : system (),
    run (start (_schedule_prefetch
                  {| buffer_size := 2; current_index := 0%nat;
                     indicies := [5; 6; 5; 7]; buffer := ∅;
                     action_fn := process_frame; in_progress := ∅;
                     executor := {| max_workers := 8; pending := [] |};
                     printed := [] |}) [5; 6; 5; 7])
        [WorkerDone 6 (Ok ()); WorkerDone 5 (Ok ()); ConsumerPoll;
         WorkerDone 5 (Ok ())] = Some s
    ∧ Z.of_nat (size (buffer (pf s)) + size (in_progress (pf s))) ≤ 2.
Proof.
  eexists. split; [vm_compute; reflexivity |].
  refine (proj1 (buffer_lookahead_bounded
                   [5; 6; 5; 7] [5; 6; 5; 7] 2 8 "process"
                   (_schedule_prefetch
                      {| buffer_size := 2; current_index := 0%nat;
                         indicies := [5; 6; 5; 7]; buffer := ∅;
                         action_fn := process_frame; in_progress := ∅;
                         executor := {| max_workers := 8; pending := [] |};
                         printed := [] |})
                   [WorkerDone 6 (Ok ()); WorkerDone 5 (Ok ()); ConsumerPoll;
                    WorkerDone 5 (Ok ())]
                   _ _ _ _)).
  - vm_compute; reflexivity.
  - lia.
  - vm_compute; reflexivity.
Defined.

(** C3 (what the code does when a worker task fails).  The callback prints
    the error and re-raises it inside the pool; the index stays marked in
    progress although no future is pending for it any more.  From then on,
    whatever the workers and the consumer do, the index is never buffered
    and no scheduling step submits it again, the consumer loop never sees
    an exception, and once the loop asks for that index [get_frame] waits
    in every later state. *)
Theorem failed_task_is_never_released
    {R : Type} (seq : list Z) (bs nw : Z) (action : string)
    (p0 : FramePrefetcher R) (tr1 tr2 : list (event R))
    (s1 s1' s2 : system R) (idx : Z) (e : exn) :
  __init__ seq bs nw action = Ok p0 →
  run (start p0 seq) tr1 = Some s1 →
  step s1 (WorkerDone idx (Raise e)) = Some s1' →
  run s1' tr2 = Some s2 →
  idx ∈ in_progress (pf s2)
  ∧ (idx ∉ pending (executor (pf s2)))
  ∧ buffer (pf s2) !! idx = None
  ∧ (idx ∉ indices_to_fetch (pf s2))
  ∧ raised s2 = None
  ∧ ("Error fetching frame: " +:+ exn_str e) ∈ printed (pf s2)
  ∧ (∀ rest, todo s2 = idx :: rest → get_frame (pf s2) idx = Waiting).
Proof.
  intros Hinit Hrun1 Hstep Hrun2.
  destruct (init_invariants _ _ _ _ _ Hinit) as (Hco & Hcov & _).
  destruct (init_fields _ _ _ _ _ Hinit) as (_ & _ & Hi & Hc & _).
  destruct (run_sound tr1 (start p0 seq) s1 (conj Hco Hcov) Hrun1) as [Hco1 Hcov1].
  assert (Hin1 : in_step seq s1).
  { eapply run_in_step; [| | exact Hrun1]; [done | by apply start_in_step]. }
  assert (Hrun1' : run s1 [WorkerDone idx (Raise e)] = Some s1')
    by (cbn [run]; by rewrite Hstep).
  assert (Hin1' : in_step seq s1') by (by eapply run_in_step).
  assert (Hin2 : in_step seq s2).
  { eapply run_in_step; [| exact Hin1' | exact Hrun2].
    by destruct (run_sound _ s1 s1' (conj Hco1 Hcov1) Hrun1'). }
  simpl in Hstep. case_decide as Hpen; [| done]. injection Hstep as <-.
  assert (Hab : abandoned (pf s2) idx).
  { eapply run_abandoned; [| exact Hrun2]. cbn [pf]. split_and!.
    - by apply worker_done_coherent.
    - rewrite worker_done_raise. simpl. by apply (pending_marked _ Hco1).
    - rewrite worker_done_raise. simpl.
      intros [_ ?]%remove_one_elem_of; [done | by destruct Hco1]. }
  destruct Hab as (Hco2 & Hm2 & Hnp2).
  assert (Hbuf : buffer (pf s2) !! idx = None).
  { apply not_elem_of_dom. pose proof (marked_not_buffered _ Hco2). set_solver. }
  split_and!; try done.
  - unfold indices_to_fetch. set_solver.
  - by destruct Hin2.
  - eapply run_printed; [| exact Hrun2]. cbn [pf]. rewrite worker_done_raise.
    simpl. set_solver.
  - intros rest Htodo. destruct Hin2 as [Hli Hlt _ _].
    rewrite Hlt in Htodo. apply todo_head in Htodo as [Hcur _].
    rewrite <- Hli in Hcur. pose proof (get_frame_expected _ _ Hcur) as Hget.
    by rewrite Hbuf in Hget.
Qed.

Lemma failed_task_is_never_released_witness :
  ∃ (p0 : FramePrefetcher ()) (s1' s2 : system ()),
    __init__ [0; 1] 8 8 "process" = Ok p0
    ∧ step (start p0 [0; 1])
           (WorkerDone 0 (Raise (FileNotFoundError (frames.frame_not_found_message 0))))
      = Some s1'
    ∧ run s1' [ConsumerPoll; WorkerDone 1 (Ok ()); ConsumerPoll] = Some s2
    ∧ 0 ∈ in_progress (pf s2)
    ∧ (0 ∉ pending (executor (pf s2)))
    ∧ buffer (pf s2) !! 0 = None
    ∧ (0 ∉ indices_to_fetch (pf s2))
    ∧ raised s2 = None
    ∧ "Error fetching frame: Frame data/frames/frame_0.jpg does not exist"
        ∈ printed (pf s2)
    ∧ (∀ rest, todo s2 = 0 :: rest → get_frame (pf s2) 0 = Waiting).
Proof.
  eexists _, _, _.
  split; [vm_compute; reflexivity |].
  split; [vm_compute; reflexivity |].
  split; [vm_compute; reflexivity |].
  refine (failed_task_is_never_released
            [0; 1] 8 8 "process" _ [] [ConsumerPoll; WorkerDone 1 (Ok ()); ConsumerPoll]
            _ _ _ 0 (FileNotFoundError (frames.frame_not_found_message 0))
            _ _ _ _).
  - vm_compute; reflexivity.
  - vm_compute; reflexivity.
  - vm_compute; reflexivity.
  - vm_compute; reflexivity.
Defined.

(** C9.  In every state in which the sequence has a next expected index,
    [get_frame] called with any other index raises the [ValueError] whose
    message names the requested and the expected index. *)
Theorem get_frame_rejects_out_of_order
    {R : Type} (p : FramePrefetcher R) (idx expected : Z) :
  indicies p !! current_index p = Some expected →
  idx ≠ expected →
  get_frame p idx =
    Raised (ValueError
      ("Index requested " +:+ pretty idx +:+
       " is out of order. This class expects frames to be consumed in the order specified by indicies passed to the constructor. It expected "
       +:+ pretty expected +:+ " to be requested next.")).
Proof.
  intros Hcur Hne. unfold get_frame. rewrite Hcur. by rewrite decide_True.
Qed.

Lemma get_frame_rejects_out_of_order_witness :
  ∃ p : FramePrefetcher (),
    __init__ [5; 6; 7] 8 8 "process" = Ok p
    ∧ get_frame p 6 =
        Raised (ValueError
          "Index requested 6 is out of order. This class expects frames to be consumed in the order specified by indicies passed to the constructor. It expected 5 to be requested next.").
Proof.
  eexists. split; [vm_compute; reflexivity |].
  refine (get_frame_rejects_out_of_order _ 6 5 _ _).
  - vm_compute; reflexivity.
  - lia.
Defined.

(** Past the end of the sequence there is no expected index, and the
    lookup [self.indicies[self.current_index]] itself raises. *)
Lemma get_frame_past_end {R : Type} (p : FramePrefetcher R) (idx : Z) :
  (length (indicies p) ≤ current_index p)%nat →
  get_frame p idx = Raised (IndexError "list index out of range").
Proof.
  intros Hlen. unfold get_frame. by rewrite lookup_ge_None_2.
Qed.

(** C10.  The prefetcher that [process_frames] builds for [indices] has
    [buffer_size] and the pool's [max_workers] both equal to
    [min(len(indices), 32)], hence at most 32; [process_frames] takes no
    argument for either. *)
Theorem process_frames_pool_size
    {R : Type} (indices : list Z) (p : FramePrefetcher R) :
  driver.process_frames_prefetcher indices = Ok p →
  buffer_size p = Z.min (Z.of_nat (length indices)) 32
  ∧ max_workers (executor p) = Z.min (Z.of_nat (length indices)) 32
  ∧ buffer_size p ≤ 32
  ∧ max_workers (executor p) ≤ 32
  ∧ indicies p = indices.
Proof.
  unfold driver.process_frames_prefetcher, driver.pool_size.
  intros (-> & -> & -> & _)%init_fields. split_and!; try done; lia.
Qed.

Lemma process_frames_pool_size_witness :
  ∃ p : FramePrefetcher (),
    driver.process_frames_prefetcher (seqZ 0 40) = Ok p
    ∧ buffer_size p = 32 ∧ max_workers (executor p) = 32.
Proof.
  eexists. split; [vm_compute; reflexivity |].
  match goal with
  | |- buffer_size ?p = _ ∧ _ =>
      pose proof (process_frames_pool_size (seqZ 0 40) p
                    ltac:(vm_compute; reflexivity)) as (H1 & H2 & _)
  end.
  split; [exact H1 | exact H2].
Defined.

(** ** The metadata of a frame ([Frame.load_metadata]) *)

Section Metadata.
Import frames.

Lemma add_missing_keys_union (initial existing : gmap string json) :
  add_missing_keys initial existing = existing ∪ initial.
Proof.
  unfold add_missing_keys.
  apply (map_fold_weak_ind (λ r m, r = existing ∪ m)).
  - by rewrite (right_id_L ∅ (∪)).
  - intros key value m r Hm ->.
    destruct ((existing ∪ m) !! key) as [v |] eqn:Hl.
    + apply map_eq. intros k. destruct (decide (k = key)) as [-> | Hne].
      * rewrite Hl. apply lookup_union_Some_raw in Hl as [He | [_ ?]]; [| congruence].
        symmetry. apply lookup_union_Some_raw. by left.
      * rewrite !lookup_union, lookup_insert_ne; done.
    + apply lookup_union_None in Hl as [He _]. by rewrite insert_union_r.
Qed.

Lemma load_metadata_existing self d existing :
  metadata_files d !! index self = Some existing →
  load_metadata self d =
  (set_metadata (existing ∪ initial_metadata self) self,
   save_metadata (set_metadata (existing ∪ initial_metadata self) self) d).
Proof.
  intros He. unfold load_metadata. by rewrite He, add_missing_keys_union.
Qed.

Lemma load_metadata_absent self d :
  metadata_files d !! index self = None →
  load_metadata self d =
  (set_metadata (initial_metadata self) self,
   save_metadata (set_metadata (initial_metadata self) self) d).
Proof. intros He. unfold load_metadata. by rewrite He. Qed.

End Metadata.

(** C8.  Loading the metadata of a frame writes the loaded record back to
    the frame's file and touches no other file.  When a record exists, every
    key of it keeps its value and exactly the keys of the defaults that it
    lacks are added, with the default values; when no record exists, the
    defaults are the loaded and written record.  The record [{"a": 1}]
    loaded with the defaults [{"a": 99, "b": 2}] gives [{"a": 1, "b": 2}],
    in the frame and on disk. *)
Theorem load_metadata_preserves_and_fills
    (self : frames.Frame) (d : frames.Disk) :
  let self' := (frames.load_metadata self d).1 in
  let d' := (frames.load_metadata self d).2 in
  frames.metadata_files d' !! frames.index self = Some (frames.metadata self')
  ∧ (∀ j, j ≠ frames.index self →
       frames.metadata_files d' !! j = frames.metadata_files d !! j)
  ∧ frames.frame_files d' = frames.frame_files d
  ∧ frames.index self' = frames.index self
  ∧ match frames.metadata_files d !! frames.index self with
    | Some existing =>
        (∀ key v, existing !! key = Some v →
           frames.metadata self' !! key = Some v)
        ∧ (∀ key, existing !! key = None →
             frames.metadata self' !! key = frames.initial_metadata self !! key)
        ∧ dom (frames.metadata self')
          = dom existing ∪ dom (frames.initial_metadata self)
    | None => frames.metadata self' = frames.initial_metadata self
    end
  ∧ frames.load_metadata
      {| frames.index := 3;
         frames.initial_metadata := {[ "a" := frames.JInt 99; "b" := frames.JInt 2 ]};
         frames.metadata := ∅ |}
      {| frames.frame_files := {[ 3 ]};
         frames.metadata_files := {[ 3 := {[ "a" := frames.JInt 1 ]} ]} |}
    = ({| frames.index := 3;
          frames.initial_metadata := {[ "a" := frames.JInt 99; "b" := frames.JInt 2 ]};
          frames.metadata := {[ "a" := frames.JInt 1; "b" := frames.JInt 2 ]} |},
       {| frames.frame_files := {[ 3 ]};
          frames.metadata_files :=
            {[ 3 := {[ "a" := frames.JInt 1; "b" := frames.JInt 2 ]} ]} |}).
Proof.
  intros self' d'. subst self' d'.
  destruct (frames.metadata_files d !! frames.index self) as [existing |] eqn:He.
  - rewrite (load_metadata_existing _ _ _ He). simpl. split_and!.
    + by rewrite lookup_insert_eq.
    + intros j Hj. by rewrite lookup_insert_ne.
    + done.
    + done.
    + intros key v Hv. apply lookup_union_Some_raw. by left.
    + intros key Hn. rewrite lookup_union, Hn. by rewrite (left_id None _).
    + by rewrite dom_union_L.
    + vm_compute; reflexivity.
  - rewrite (load_metadata_absent _ _ He). simpl. split_and!.
    + by rewrite lookup_insert_eq.
    + intros j Hj. by rewrite lookup_insert_ne.
    + done.
    + done.
    + done.
    + vm_compute; reflexivity.
Qed.

(** ** The robot frames ([RobotFrame]) *)

Section Robot.
Import frames robot_frames.
Implicit Types (gl : Groundlight) (w : World) (m : gmap string json).

Lemma init_found idx w :
  idx ∈ frame_files (disk w) →
  robot_frames.__init__ idx w =
  (Ok {| index := idx;
         frames.initial_metadata := robot_frames.initial_metadata;
         metadata := loaded w idx |},
   store w idx (loaded w idx) (requests w)).
Proof.
  intros Hin. unfold robot_frames.__init__, frames.__init__, loaded, record_of.
  cbn [_gl or_empty]. rewrite decide_True by done. unfold load_metadata. simpl.
  destruct (metadata_files (disk w) !! idx); simpl;
    by rewrite ?add_missing_keys_union.
Qed.

Lemma init_missing idx w :
  idx ∉ frame_files (disk w) →
  robot_frames.__init__ idx w =
  (Raise (FileNotFoundError (frame_not_found_message idx)), w).
Proof.
  intros Hin. unfold robot_frames.__init__, frames.__init__.
  cbn [_gl]. rewrite decide_False by done. by destruct w.
Qed.

Lemma loaded_has_keys w idx key :
  key = "iq_id" ∨ key = "is_upside_down" → is_Some (loaded w idx !! key).
Proof.
  intros Hkey.
  assert (Hi : robot_frames.initial_metadata !! key = Some JNull)
    by (by destruct Hkey as [-> | ->]).
  unfold loaded. destruct (record_of w idx) as [rec |]; [| by eauto].
  destruct (rec !! key) as [v |] eqn:Hr.
  - exists v. apply lookup_union_Some_raw. by left.
  - exists JNull. apply lookup_union_Some_raw. by right.
Qed.

Lemma union_absorb (m defaults : gmap string json) :
  (∀ key, is_Some (defaults !! key) → is_Some (m !! key)) → m ∪ defaults = m.
Proof.
  intros Hsub. apply map_eq. intros key. rewrite lookup_union.
  destruct (m !! key) eqn:Hm, (defaults !! key) eqn:Hd; try done.
  destruct (Hsub key) as [? ?]; [by eauto | congruence].
Qed.

Lemma process_unfold gl idx w :
  process gl idx w =
  if decide (idx ∈ frame_files (disk w)) then
    match loaded w idx !! "iq_id" with
    | Some tok =>
        if is_None tok then
          let iq := respond gl (requests w) (ask_ml (imread idx)) in
          let m := updated gl (loaded w idx) iq in
          (Ok {| pf_index := idx; pf_image := imread idx; pf_metadata := m |},
           store (store w idx (loaded w idx) (requests w)) idx m
                 (requests w ++ [ask_ml (imread idx)]))
        else
          (Ok {| pf_index := idx; pf_image := imread idx;
                 pf_metadata := loaded w idx |},
           store w idx (loaded w idx) (requests w))
    | None =>
        (Raise (key_error "iq_id"), store w idx (loaded w idx) (requests w))
    end
  else (Raise (FileNotFoundError (frame_not_found_message idx)), w).
Proof.
  unfold process. case_decide as Hin.
  - rewrite (init_found _ _ Hin). unfold process_frame. simpl.
    destruct (loaded w idx !! "iq_id") as [tok |]; [| done].
    destruct (is_None tok); [| done].
    unfold _update_metadata, updated, call, on_disk, store, save_metadata. simpl.
    by destruct (confident_and_clear gl _).
  - by rewrite (init_missing _ _ Hin).
Qed.

Lemma update_unfold gl idx w :
  update gl idx w =
  if decide (idx ∈ frame_files (disk w)) then
    match loaded w idx !! "iq_id", loaded w idx !! "is_upside_down" with
    | Some tok, Some answer =>
        if is_None tok then
          (Raise (ValueError (no_iq_id_message idx)),
           store w idx (loaded w idx) (requests w))
        else if is_None answer then
          let iq := respond gl (requests w) (get_image_query tok) in
          let m := updated gl (loaded w idx) iq in
          (Ok (),
           store (store w idx (loaded w idx) (requests w)) idx m
                 (requests w ++ [get_image_query tok]))
        else (Ok (), store w idx (loaded w idx) (requests w))
    | Some tok, None =>
        if is_None tok then
          (Raise (ValueError (no_iq_id_message idx)),
           store w idx (loaded w idx) (requests w))
        else (Raise (key_error "is_upside_down"),
              store w idx (loaded w idx) (requests w))
    | None, _ =>
        (Raise (key_error "iq_id"), store w idx (loaded w idx) (requests w))
    end
  else (Raise (FileNotFoundError (frame_not_found_message idx)), w).
Proof.
  unfold update. case_decide as Hin.
  - rewrite (init_found _ _ Hin). unfold update_frame. simpl.
    destruct (loaded w idx !! "iq_id") as [tok |]; [| done].
    destruct (is_None tok);
      [by destruct (loaded w idx !! "is_upside_down") |].
    destruct (loaded w idx !! "is_upside_down") as [answer |]; [| done].
    destruct (is_None answer); [| done].
    unfold _update_metadata, updated, call, on_disk, store, save_metadata. simpl.
    by destruct (confident_and_clear gl _).
  - by rewrite (init_missing _ _ Hin).
Qed.

Lemma store_record w idx m rqs : record_of (store w idx m rqs) idx = Some m.
Proof. unfold record_of, store. simpl. by rewrite lookup_insert_eq. Qed.

Lemma store_store w idx m1 m2 rqs1 rqs2 :
  store (store w idx m1 rqs1) idx m2 rqs2 = store w idx m2 rqs2.
Proof. unfold store. simpl. by rewrite insert_insert_eq. Qed.

Lemma updated_iq_id gl m iq : updated gl m iq !! "iq_id" = Some (JStr (id iq)).
Proof.
  unfold updated. destruct (confident_and_clear gl iq).
  - rewrite lookup_insert_ne by done. by rewrite lookup_insert_eq.
  - by rewrite lookup_insert_eq.
Qed.

Lemma updated_answer gl m iq :
  updated gl m iq !! "is_upside_down" =
  if confident_and_clear gl iq
  then Some (JBool (bool_decide (label (result iq) = YES)))
  else m !! "is_upside_down".
Proof.
  unfold updated. destruct (confident_and_clear gl iq).
  - by rewrite lookup_insert_eq.
  - by rewrite lookup_insert_ne.
Qed.

Lemma updated_has_keys gl m iq key :
  is_Some (m !! key) → is_Some (updated gl m iq !! key).
Proof.
  intros Hm. unfold updated. destruct (confident_and_clear gl iq);
    rewrite ?lookup_insert; repeat case_decide; eauto.
Qed.

(** Loading a record that has the two keys of a robot frame gives it back. *)
Lemma loaded_store w idx m rqs :
  is_Some (m !! "iq_id") → is_Some (m !! "is_upside_down") →
  loaded (store w idx m rqs) idx = m.
Proof.
  intros H1 H2. unfold loaded. rewrite store_record.
  apply union_absorb. intros key [v Hv].
  unfold robot_frames.initial_metadata in Hv.
  destruct (decide (key = "iq_id")) as [-> | ?]; [done |].
  destruct (decide (key = "is_upside_down")) as [-> | ?]; [done |].
  rewrite lookup_insert_ne, lookup_singleton_ne in Hv by done. done.
Qed.

Lemma confident_and_clear_iff gl iq :
  confident_and_clear gl iq = true ↔
  (confidence_threshold gl <= confidence (result iq))%Q
  ∧ label (result iq) ≠ UNCLEAR.
Proof.
  unfold confident_and_clear.
  rewrite andb_true_iff, Qle_bool_iff, bool_decide_eq_true. done.
Qed.

End Robot.

Section RobotCalls.
Import frames robot_frames.
Implicit Types (gl : Groundlight) (w : World) (m : gmap string json).

Lemma answer_of_store w idx m rqs :
  answer_of (store w idx m rqs) idx = m !! "is_upside_down".
Proof. unfold answer_of. by rewrite store_record. Qed.

Lemma loaded_answer w idx a :
  answer_of w idx = Some a → loaded w idx !! "is_upside_down" = Some a.
Proof.
  unfold answer_of, loaded. destruct (record_of w idx) as [rec |]; [| done].
  simpl. intros Ha. apply lookup_union_Some_raw. by left.
Qed.

Lemma queries_app w idx m rq :
  queries (store w idx m (requests w ++ [rq]))
  = (queries w + if is_ask_ml rq then 1 else 0)%nat.
Proof.
  unfold queries, store. simpl. rewrite filter_app, length_app.
  f_equal. rewrite filter_cons, filter_nil. by destruct rq.
Qed.

(** The second of two [process] calls finds the token the first left. *)
Lemma process_twice gl idx w :
  process gl idx (process gl idx w).2 = process gl idx w.
Proof.
  rewrite (process_unfold gl idx w). case_decide as Hin.
  - destruct (loaded_has_keys w idx "iq_id") as [tok Htok]; [by left |].
    destruct (loaded_has_keys w idx "is_upside_down") as [ans Hans]; [by right |].
    rewrite Htok. destruct (is_None tok) eqn:Hnone; cbn zeta; cbn [snd].
    + rewrite store_store, process_unfold.
      rewrite decide_True by done.
      rewrite loaded_store
        by (apply updated_has_keys; eauto).
      rewrite updated_iq_id. cbn [is_None]. cbn [requests store].
      by rewrite store_store.
    + rewrite process_unfold.
      rewrite decide_True by done.
      rewrite loaded_store by eauto.
      rewrite Htok, Hnone. cbn [requests store].
      by rewrite store_store.
  - cbn [snd]. rewrite process_unfold. by rewrite decide_False.
Qed.

Lemma process_queries gl idx w :
  (queries (process gl idx w).2 ≤ queries w + 1)%nat.
Proof.
  rewrite process_unfold. case_decide; [| simpl; lia].
  destruct (loaded w idx !! "iq_id") as [tok |]; [| unfold queries; simpl; lia].
  destruct (is_None tok); cbn zeta; cbn [snd].
  - rewrite store_store, queries_app. simpl. lia.
  - unfold queries; simpl; lia.
Qed.

Lemma process_cached gl idx w rec tok :
  record_of w idx = Some rec → rec !! "iq_id" = Some tok → tok ≠ JNull →
  requests (process gl idx w).2 = requests w
  ∧ (idx ∈ frame_files (disk w) →
     (process gl idx w).1
       = Ok {| pf_index := idx; pf_image := imread idx;
               pf_metadata := rec ∪ robot_frames.initial_metadata |}
     ∧ record_of (process gl idx w).2 idx
       = Some (rec ∪ robot_frames.initial_metadata)).
Proof.
  intros Hrec Htok Hne.
  assert (Hl : loaded w idx = rec ∪ robot_frames.initial_metadata)
    by (unfold loaded; by rewrite Hrec).
  assert (Hl' : loaded w idx !! "iq_id" = Some tok).
  { rewrite Hl. apply lookup_union_Some_raw. by left. }
  assert (is_None tok = false) as Hn by (by destruct tok).
  rewrite process_unfold. case_decide; [| done].
  rewrite Hl', Hn. rewrite Hl. cbn [fst snd]. split; [done |].
  intros _. split; [done |]. by rewrite store_record.
Qed.

(** One call changes the answer only on a confident and clear result. *)
Lemma do_call_answer gl idx c w a :
  answer_of w idx = Some a →
  ∃ a', answer_of (do_call gl idx c w) idx = Some a'
    ∧ (a' = a
       ∨ ∃ rq, requests (do_call gl idx c w) = requests w ++ [rq]
           ∧ confident_and_clear gl (respond gl (requests w) rq) = true
           ∧ a' = JBool (bool_decide
                           (label (result (respond gl (requests w) rq)) = YES))).
Proof.
  intros Ha. pose proof (loaded_answer _ _ _ Ha) as Hl.
  destruct c; unfold do_call.
  - rewrite process_unfold. case_decide; [| by eauto].
    destruct (loaded w idx !! "iq_id") as [tok |];
      [| cbn [snd]; rewrite answer_of_store; by eauto].
    destruct (is_None tok); cbn zeta; cbn [snd];
      [| rewrite answer_of_store; by eauto].
    rewrite store_store, answer_of_store, updated_answer.
    destruct (confident_and_clear gl _) eqn:Hcc; [| by eauto].
    eexists. split; [done |]. right. by eexists.
  - rewrite update_unfold. case_decide; [| by eauto].
    destruct (loaded w idx !! "iq_id") as [tok |];
      [| cbn [snd]; rewrite answer_of_store; by eauto].
    rewrite Hl.
    destruct (is_None tok); [cbn [snd]; rewrite answer_of_store; by eauto |].
    destruct (is_None a); cbn zeta; cbn [snd];
      [| rewrite answer_of_store; by eauto].
    rewrite store_store, answer_of_store, updated_answer.
    destruct (confident_and_clear gl _) eqn:Hcc; [| by eauto].
    eexists. split; [done |]. right. by eexists.
Qed.

Lemma do_call_answer_non_null gl idx c w a :
  answer_of w idx = Some a → a ≠ JNull →
  ∃ a', answer_of (do_call gl idx c w) idx = Some a' ∧ a' ≠ JNull.
Proof.
  intros Ha Hne.
  destruct (do_call_answer gl idx c w a Ha) as (a' & Ha' & [-> | (rq & _ & _ & ->)]);
    eauto.
Qed.

Lemma do_calls_answer_non_null gl idx (calls : list frame_call) :
  ∀ w a, answer_of w idx = Some a → a ≠ JNull →
  ∃ a', answer_of (foldl (λ w c, do_call gl idx c w) w calls) idx = Some a'
        ∧ a' ≠ JNull.
Proof.
  induction calls as [| c calls IH]; intros w a Ha Hne; simpl; [by eauto |].
  destruct (do_call_answer_non_null gl idx c w a Ha Hne) as (a' & Ha' & Hne').
  by eapply IH.
Qed.

End RobotCalls.

(** C6.  Two successive [process] calls on fresh [RobotFrame] instances of
    one index: the second returns what the first returned and leaves the
    requests made to the service and the files as the first left them, so it
    issues no query, and the two together issue at most one.  When the
    record of the index already holds a token that is not null, the first
    call issues no request either and, the frame file being there, returns
    the record (completed with the default keys it lacks), which is also
    what the file holds afterwards. *)
Theorem process_is_idempotent
    (gl : robot_frames.Groundlight) (idx : Z) (w : robot_frames.World) :
  let first := robot_frames.process gl idx w in
  let second := robot_frames.process gl idx first.2 in
  second.1 = first.1
  ∧ second.2 = first.2
  ∧ robot_frames.requests second.2 = robot_frames.requests first.2
  ∧ (robot_frames.queries second.2 ≤ robot_frames.queries w + 1)%nat
  ∧ (∀ rec tok,
       robot_frames.record_of w idx = Some rec →
       rec !! "iq_id" = Some tok → tok ≠ frames.JNull →
       robot_frames.requests first.2 = robot_frames.requests w
       ∧ (idx ∈ frames.frame_files (robot_frames.disk w) →
          first.1
            = Ok {| frames.pf_index := idx; frames.pf_image := frames.imread idx;
                    frames.pf_metadata := rec ∪ robot_frames.initial_metadata |}
          ∧ robot_frames.record_of first.2 idx
            = Some (rec ∪ robot_frames.initial_metadata))).
Proof.
  intros first second. subst first second.
  rewrite process_twice. split_and!; try done.
  - apply process_queries.
  - intros rec tok. apply process_cached.
Qed.

Lemma process_is_idempotent_witness :
  robot_frames.queries
    (robot_frames.process robot_frames.confident_service 5
       robot_frames.answered_world).2 = 1%nat
  ∧ (robot_frames.process robot_frames.confident_service 5
       (robot_frames.process robot_frames.confident_service 5
          robot_frames.answered_world).2).1
    = (robot_frames.process robot_frames.confident_service 5
         robot_frames.answered_world).1
  ∧ (robot_frames.queries
       (robot_frames.process robot_frames.confident_service 5
          (robot_frames.process robot_frames.confident_service 5
             robot_frames.answered_world).2).2
     ≤ 0 + 1)%nat.
Proof.
  split; [vm_compute; reflexivity |].
  destruct (process_is_idempotent robot_frames.confident_service 5
              robot_frames.answered_world) as (H1 & _ & _ & H4 & _).
  split; [exact H1 | exact H4].
Defined.

(** C7.  For an index whose record holds an answer, one [process] or
    [update] call on a fresh instance leaves the answer as it is, unless
    the call made a request whose result is confident and clear, and then
    the answer is the boolean of that result; an answer that is not null
    stays not null, through one call and through any sequence of calls.
    [_update_metadata] sets the answer exactly when the result is confident
    (its confidence is at least the detector's threshold) and clear (its
    label is not [UNCLEAR]) and leaves it, null or not, otherwise. *)
Theorem answer_changes_only_when_confident_and_clear
    (gl : robot_frames.Groundlight) (idx : Z) (c : robot_frames.frame_call)
    (w : robot_frames.World) (a : frames.json) :
  robot_frames.answer_of w idx = Some a →
  (∃ a', robot_frames.answer_of (robot_frames.do_call gl idx c w) idx = Some a'
     ∧ (a' = a
        ∨ ∃ rq,
            robot_frames.requests (robot_frames.do_call gl idx c w)
              = robot_frames.requests w ++ [rq]
            ∧ robot_frames.confident_and_clear gl
                (robot_frames.respond gl (robot_frames.requests w) rq) = true
            ∧ a' = frames.JBool
                     (bool_decide
                        (robot_frames.label
                           (robot_frames.result
                              (robot_frames.respond gl (robot_frames.requests w) rq))
                         = robot_frames.YES)))
     ∧ (a ≠ frames.JNull → a' ≠ frames.JNull))
  ∧ (∀ calls : list robot_frames.frame_call,
       a ≠ frames.JNull →
       ∃ a', robot_frames.answer_of
               (foldl (λ w c, robot_frames.do_call gl idx c w) w calls) idx
             = Some a'
             ∧ a' ≠ frames.JNull)
  ∧ (∀ self iq w0,
       frames.metadata (robot_frames._update_metadata gl self iq w0).1
         !! "is_upside_down"
       = if robot_frames.confident_and_clear gl iq
         then Some (frames.JBool
                      (bool_decide
                         (robot_frames.label (robot_frames.result iq)
                          = robot_frames.YES)))
         else frames.metadata self !! "is_upside_down")
  ∧ (∀ iq,
       robot_frames.confident_and_clear gl iq = true ↔
       (robot_frames.confidence_threshold gl
        <= robot_frames.confidence (robot_frames.result iq))%Q
       ∧ robot_frames.label (robot_frames.result iq) ≠ robot_frames.UNCLEAR).
Proof.
  intros Ha. split_and!.
  - destruct (do_call_answer gl idx c w a Ha) as (a' & Ha' & Hch).
    exists a'. split_and!; [done.. |].
    intros Hne. by destruct Hch as [-> | (rq & _ & _ & ->)].
  - intros calls Hne. by eapply do_calls_answer_non_null.
  - intros self iq w0. unfold robot_frames._update_metadata. simpl.
    destruct (robot_frames.confident_and_clear gl iq).
    + by rewrite lookup_insert_eq.
    + by rewrite lookup_insert_ne.
  - apply confident_and_clear_iff.
Qed.

Lemma answer_changes_only_when_confident_and_clear_witness :
  ∃ a',
    robot_frames.answer_of
      (robot_frames.do_call robot_frames.unclear_service 4
         robot_frames.call_update robot_frames.answered_world) 4 = Some a'
    ∧ a' ≠ frames.JNull.
Proof.
  destruct (answer_changes_only_when_confident_and_clear
              robot_frames.unclear_service 4 robot_frames.call_update
              robot_frames.answered_world (frames.JBool true)
              ltac:(vm_compute; reflexivity))
    as [(a' & Ha' & _ & Hne) _].
  exists a'. split; [exact Ha' | by apply Hne].
Defined.

(** * Further properties of the code *)

(** ** The prefetcher at its edges *)

Section PrefetcherEdges.
Context {R : Type}.
Implicit Types (p : FramePrefetcher R) (s : system R) (tr : list (event R)).

Lemma window_empty_idle p :
  coherent p → bounded p → window p = [] →
  buffer p = ∅ ∧ in_progress p = ∅ ∧ pending (executor p) = [].
Proof.
  intros Hco Hb Hw. unfold bounded, needed_indices in Hb. rewrite Hw in Hb.
  assert (Hd : dom (buffer p) = ∅) by set_solver.
  assert (Hi : in_progress p = ∅) by set_solver.
  split_and!; [by apply dom_empty_iff_L | done |].
  destruct (pending (executor p)) as [| x l] eqn:Hp; [done |].
  pose proof (pending_marked _ Hco x) as Hx. rewrite Hp in Hx.
  specialize (Hx ltac:(set_solver)). set_solver.
Qed.

Lemma window_subseteq_drop p x :
  x ∈ window p → x ∈ drop (current_index p) (indicies p).
Proof.
  unfold window, py_slice, slice_bound.
  destruct (Z.ltb_spec (Z.of_nat (current_index p)) 0); [lia |].
  intros Hx. apply (subseteq_take _ _ x) in Hx.
  destruct (decide (current_index p ≤ length (indicies p))%nat).
  - by replace (Z.to_nat (Z.of_nat (current_index p)
                          `min` Z.of_nat (length (indicies p))))
      with (current_index p) in Hx by lia.
  - rewrite drop_ge in Hx by lia. by apply elem_of_nil in Hx.
Qed.

End PrefetcherEdges.

Section PrefetcherLifetime.
Context {R : Type}.
Implicit Types (p : FramePrefetcher R) (s : system R) (tr : list (event R)).

(** With a window of no length, nothing ever moves. *)
Lemma zero_buffer_step p0 (seq : list Z) s ev s' idx :
  coherent p0 → bounded p0 → buffer_size p0 = 0 → current_index p0 = 0%nat →
  indicies p0 = seq →
  pf s = p0 → todo s = seq → delivered s = [] → raised s = None →
  step s ev = Some s' →
  pf s' = p0 ∧ todo s' = seq ∧ delivered s' = [] ∧ raised s' = None
  ∧ completes idx ev = false.
Proof.
  intros Hco Hb Hbs Hc Hi Hpf Ht Hd Hr Hstep.
  assert (Hw : window p0 = []).
  { unfold window. rewrite Hbs, py_slice_window by lia. done. }
  destruct (window_empty_idle p0 Hco Hb Hw) as (Hbuf & _ & Hpen).
  apply step_cases in Hstep
    as [(done & acted & -> & Hin & ->)
       | [(-> & Hpf' & Htodo & Hdel & Hraised)
         | (i & rest & data & -> & _ & Hto & Hget & _)]].
  - rewrite Hpf, Hpen in Hin. by apply elem_of_nil in Hin.
  - rewrite Hpf', Htodo, Hdel. split_and!; try done.
    destruct Hraised as [-> | (i & rest & e & _ & Hto & Hget & _)]; [done |].
    rewrite Ht in Hto. rewrite Hpf in Hget.
    assert (Hcur : indicies p0 !! current_index p0 = Some i)
      by (by rewrite Hi, Hc, Hto).
    pose proof (get_frame_expected _ _ Hcur) as Hexp.
    rewrite Hbuf, lookup_empty in Hexp. congruence.
  - apply get_frame_returned in Hget as (_ & Hbuf' & _).
    rewrite Hpf, Hbuf, lookup_empty in Hbuf'. done.
Qed.

Lemma zero_buffer_run p0 (seq : list Z) tr :
  coherent p0 → bounded p0 → buffer_size p0 = 0 → current_index p0 = 0%nat →
  indicies p0 = seq →
  ∀ s s', pf s = p0 → todo s = seq → delivered s = [] → raised s = None →
  run s tr = Some s' →
  pf s' = p0 ∧ delivered s' = [] ∧ raised s' = None
  ∧ ∀ idx, completions idx tr = 0%nat.
Proof.
  intros Hco Hb Hbs Hc Hi.
  induction tr as [| ev tr IH]; intros s s' Hpf Ht Hd Hr; simpl.
  - intros [= <-]. by split_and!.
  - destruct (step s ev) as [s1 |] eqn:Hs; [| done]. intros Hrun.
    assert (Hone : ∀ idx, pf s1 = p0 ∧ todo s1 = seq ∧ delivered s1 = []
                          ∧ raised s1 = None ∧ completes idx ev = false)
      by (intros idx; by eapply zero_buffer_step).
    destruct (Hone 0) as (? & ? & ? & ? & _).
    destruct (IH s1 s') as (? & ? & ? & Hn); try done.
    split_and!; try done. intros idx. unfold completions.
    destruct (Hone idx) as (_ & _ & _ & _ & Hev).
    rewrite filter_cons, decide_False by (by rewrite Hev). apply Hn.
Qed.

(** Results come from the workers. *)
Lemma step_from_workers h s ev s' :
  from_workers h s → step s ev = Some s' → from_workers (h ++ [ev]) s'.
Proof.
  intros Hfw Hstep d Hd. rewrite elem_of_app.
  apply step_cases in Hstep
    as [(done & acted & -> & Hin & ->)
       | [(-> & Hpf' & Htodo & Hdel & _)
         | (i & rest & data & -> & _ & Hto & Hget & _ & Hdel & _)]].
  - simpl in Hd. destruct Hd as [Hd | [k Hk]]; [left; apply Hfw; by left |].
    unfold worker_done, _store_frame_callback in Hk.
    destruct acted as [r | e]; simpl in Hk.
    + assert (Hk' : <[done := {| index := done; result := r |}]>
                      (buffer (pf s)) !! k = Some d)
        by (by case_decide).
      apply lookup_insert_Some in Hk' as [[_ <-] | [_ Hk']].
      * right. simpl. set_solver.
      * left. apply Hfw. right. eauto.
    + left. apply Hfw. right. eauto.
  - left. apply Hfw. rewrite Hpf', Hdel in Hd. done.
  - left. apply Hfw. apply get_frame_returned in Hget as (_ & Hbuf & Hp').
    rewrite Hdel, Hp' in Hd.
    destruct (schedule_static (popped (pf s) i)) as (_ & _ & _ & Hb).
    rewrite Hb in Hd. simpl in Hd.
    destruct Hd as [[Hd | ->%list_elem_of_singleton]%elem_of_app | [k Hk]].
    + by left.
    + right. eauto.
    + apply lookup_delete_Some in Hk as [_ Hk]. right. eauto.
Qed.

Lemma run_from_workers tr :
  ∀ h s s', from_workers h s → run s tr = Some s' → from_workers (h ++ tr) s'.
Proof.
  induction tr as [| ev tr IH]; intros h s s' Hfw; simpl.
  - intros [= <-]. by rewrite app_nil_r.
  - destruct (step s ev) as [s1 |] eqn:Hs; [| done]. intros Hrun.
    replace (h ++ ev :: tr) with ((h ++ [ev]) ++ tr) by (by rewrite <- app_assoc).
    eapply IH; [| exact Hrun]. by eapply step_from_workers.
Qed.

(** Each index is started once. *)
Lemma NoDup_take_drop (l : list Z) (n : nat) x :
  NoDup l → x ∈ take n l → x ∈ drop n l → False.
Proof.
  intros Hnd Ht Hd. rewrite <- (take_drop n l) in Hnd.
  apply NoDup_app in Hnd as (_ & Hdisj & _). by eapply Hdisj.
Qed.

Lemma worker_done_started_once p done acted idx n :
  coherent p → done ∈ pending (executor p) →
  started_once p idx n →
  started_once (worker_done p done acted) idx
    (n + if bool_decide (done = idx) then 1 else 0).
Proof.
  intros Hco Hdone (Hn & Hpen & Hone).
  pose proof (pending_marked _ Hco _ Hdone) as Hm.
  destruct (worker_done_static p done acted) as (Hi & Hc & _).
  assert (Hpend : pending (executor (worker_done p done acted))
                  = remove_one done (pending (executor p))).
  { destruct acted; [by rewrite worker_done_ok | by rewrite worker_done_raise]. }
  assert (Hbuf : dom (buffer p) ⊆ dom (buffer (worker_done p done acted))).
  { destruct acted; [rewrite worker_done_ok by done; simpl; rewrite dom_insert_L;
                     set_solver | by rewrite worker_done_raise]. }
  case_bool_decide as Heq.
  - subst done. specialize (Hpen Hdone). subst n. split_and!; [lia | |].
    + rewrite Hpend. intros [_ ?]%remove_one_elem_of; [done | by destruct Hco].
    + intros _. destruct acted as [r | e].
      * left. rewrite worker_done_ok by done. simpl. rewrite dom_insert_L. set_solver.
      * right; left. by rewrite worker_done_raise.
  - rewrite Nat.add_0_r. split_and!; [done | |].
    + rewrite Hpend. intros Hin%remove_one_subseteq. auto.
    + intros Hn1. rewrite Hi, Hc.
      destruct (Hone Hn1) as [Hb | [Hp | Ht]]; [left; by apply Hbuf | | by auto].
      right; left. destruct acted as [r | e]; [| by rewrite worker_done_raise].
      rewrite worker_done_ok by done. simpl. set_solver.
Qed.

Lemma get_frame_started_once p i data p' idx n :
  coherent p → NoDup (indicies p) →
  get_frame p i = Returned data p' →
  started_once p idx n → started_once p' idx n.
Proof.
  intros Hco Hnd Hget (Hn & Hpen & Hone).
  destruct (get_frame_static _ _ _ _ Hget) as (Hi & _ & Hc).
  apply get_frame_returned in Hget as (Hcur & Hbuf & ->).
  assert (Htake : take (S (current_index p)) (indicies p)
                  = take (current_index p) (indicies p) ++ [i])
    by (by apply take_S_r).
  assert (Hkeep : n = 1%nat →
    idx ∈ dom (delete i (buffer p)) ∨ idx ∈ in_progress p
    ∨ idx ∈ take (S (current_index p)) (indicies p)).
  { intros Hn1. rewrite Htake, dom_delete_L.
    destruct (Hone Hn1) as [Hb | [Hp | Ht]]; [| by auto | set_solver].
    destruct (decide (idx = i)); set_solver. }
  split_and!; [done | |].
  - rewrite schedule_unfold. simpl. rewrite elem_of_app, elem_of_elements.
    intros [Hin | Hin]; [by auto |].
    destruct (decide (n = 1%nat)) as [Hn1 | ?]; [exfalso | lia].
    unfold indices_to_fetch, needed_indices in Hin. simpl in Hin.
    apply elem_of_difference in Hin as [Hin Hnp].
    apply elem_of_difference in Hin as [Hin Hnb].
    apply elem_of_list_to_set, window_subseteq_drop in Hin. simpl in Hin.
    destruct (Hkeep Hn1) as [Hb | [Hp | Ht]]; [done | done |].
    by eapply (NoDup_take_drop (indicies p)).
  - intros Hn1. rewrite Hi, Hc. rewrite schedule_unfold. simpl.
    destruct (Hkeep Hn1) as [Hb | [Hp | Ht]]; [by left | right; left; set_solver | by auto].
Qed.

Lemma run_started_once idx tr :
  ∀ s s' n, coherent (pf s) → NoDup (indicies (pf s)) →
  started_once (pf s) idx n → run s tr = Some s' →
  started_once (pf s') idx (n + completions idx tr) ∧ coherent (pf s').
Proof.
  induction tr as [| ev tr IH]; intros s s' n Hco Hnd Hso; simpl.
  - intros [= <-]. unfold completions. simpl. by rewrite Nat.add_0_r.
  - destruct (step s ev) as [s1 |] eqn:Hs; [| done]. intros Hrun.
    assert (Hev : coherent (pf s1) ∧ indicies (pf s1) = indicies (pf s)
                  ∧ started_once (pf s1) idx
                      (n + if completes idx ev then 1 else 0)).
    { apply step_cases in Hs
        as [(done & acted & -> & Hin & ->)
           | [(-> & -> & _)
             | (i & rest & data & -> & _ & _ & Hget & _)]]; simpl.
      - split_and!; [by apply worker_done_coherent | |].
        + by destruct (worker_done_static (pf s) done acted) as (-> & _).
        + by apply worker_done_started_once.
      - by rewrite Nat.add_0_r.
      - rewrite Nat.add_0_r. split_and!.
        + by eapply get_frame_coherent.
        + by destruct (get_frame_static _ _ _ _ Hget) as (-> & _).
        + by eapply get_frame_started_once. }
    destruct Hev as (Hco1 & Hi1 & Hso1).
    destruct (IH s1 s' _ Hco1 ltac:(by rewrite Hi1) Hso1 Hrun) as [Hfin ?].
    split; [| done]. unfold completions in *. rewrite filter_cons.
    destruct (completes idx ev); [rewrite decide_True by done
                                 | rewrite decide_False by done]; simpl.
    + by rewrite <- Nat.add_assoc in Hfin.
    + by rewrite Nat.add_0_r in Hfin.
Qed.

End PrefetcherLifetime.

(** X1.  A prefetcher built with a [buffer_size] of 0 never submits a
    task: along every run no future is pending or completes, the buffer
    stays empty, the loop receives nothing and raises nothing, and the call
    of [get_frame] for the first index of the sequence waits in every
    state. *)
Theorem zero_buffer_size_never_delivers
    {R : Type} (seq : list Z) (nw : Z) (action : string)
    (p0 : FramePrefetcher R) (tr : list (event R)) (s : system R) :
  __init__ seq 0 nw action = Ok p0 →
  run (start p0 seq) tr = Some s →
  pf s = p0
  ∧ pending (executor (pf s)) = []
  ∧ buffer (pf s) = ∅
  ∧ delivered s = []
  ∧ raised s = None
  ∧ (∀ idx, completions idx tr = 0%nat)
  ∧ (∀ idx rest, seq = idx :: rest → get_frame (pf s) idx = Waiting).
Proof.
  intros Hinit Hrun.
  destruct (init_invariants _ _ _ _ _ Hinit) as (Hco & _ & Hb & _).
  destruct (init_fields _ _ _ _ _ Hinit) as (Hbs & _ & Hi & Hc & _).
  destruct (zero_buffer_run p0 seq tr Hco Hb Hbs Hc Hi (start p0 seq) s)
    as (Hpf & Hd & Hr & Hn); try done.
  assert (Hw : window p0 = []).
  { unfold window. rewrite Hbs, py_slice_window by lia. done. }
  destruct (window_empty_idle p0 Hco Hb Hw) as (Hbuf & _ & Hpen).
  rewrite Hpf. split_and!; try done.
  intros idx rest ->.
  assert (Hcur : indicies p0 !! current_index p0 = Some idx) by (by rewrite Hi, Hc).
  pose proof (get_frame_expected _ _ Hcur) as Hexp.
  by rewrite Hbuf, lookup_empty in Hexp.
Qed.

Lemma zero_buffer_size_never_delivers_witness :
  ∃ s : system (),
    run (start (_schedule_prefetch
                  {| buffer_size := 0; current_index := 0%nat;
                     indicies := [5; 6; 7]; buffer := ∅;
                     action_fn := process_frame; in_progress := ∅;
                     executor := {| max_workers := 8; pending := [] |};
                     printed := [] |}) [5; 6; 7])
        [ConsumerPoll; ConsumerPoll] = Some s
    ∧ delivered s = []
    ∧ get_frame (pf s) 5 = Waiting.
Proof.
  eexists. split; [vm_compute; reflexivity |].
  edestruct (zero_buffer_size_never_delivers (R:=())
                [5; 6; 7] 8 "process"
                (_schedule_prefetch
                   {| buffer_size := 0; current_index := 0%nat;
                      indicies := [5; 6; 7]; buffer := ∅;
                      action_fn := process_frame; in_progress := ∅;
                      executor := {| max_workers := 8; pending := [] |};
                      printed := [] |})
                [ConsumerPoll; ConsumerPoll])
    as (_ & _ & _ & Hd & _ & _ & Hw);
    [vm_compute; reflexivity | vm_compute; reflexivity |].
  split; [exact Hd | exact (Hw 5 [6; 7] eq_refl)].
Defined.

(** X2.  Once the loop has received the result of the last index, with a
    [buffer_size] that is not negative, the prefetcher is idle: the buffer
    is empty, no index is in progress and no future is pending; the
    results delivered carry exactly the indices of the sequence; and every
    further call of [get_frame], whatever the index, raises [IndexError]. *)
Theorem prefetcher_idle_after_last_result
    {R : Type} (seq : list Z) (bs nw : Z) (action : string)
    (p0 : FramePrefetcher R) (tr : list (event R)) (s : system R) :
  __init__ seq bs nw action = Ok p0 →
  0 ≤ bs →
  run (start p0 seq) tr = Some s →
  todo s = [] →
  buffer (pf s) = ∅
  ∧ in_progress (pf s) = ∅
  ∧ pending (executor (pf s)) = []
  ∧ index <$> delivered s = seq
  ∧ (∀ idx, get_frame (pf s) idx = Raised (IndexError "list index out of range")).
Proof.
  intros Hinit Hbs Hrun Htodo.
  destruct (init_invariants _ _ _ _ _ Hinit) as (Hco & Hcov & Hb & _).
  destruct (init_fields _ _ _ _ _ Hinit) as (Hbs0 & _ & Hi & Hc & _).
  destruct (run_sound tr (start p0 seq) s (conj Hco Hcov) Hrun) as [Hco' _].
  destruct (run_static _ _ _ Hrun) as [Hi' Hbs']. simpl in Hi', Hbs'.
  assert (Hb' : bounded (pf s)).
  { eapply run_bounded; [| | | exact Hrun]; simpl; [lia | done..]. }
  assert (Hstep : in_step seq s).
  { eapply run_in_step; [| | exact Hrun]; [done | by apply start_in_step]. }
  destruct Hstep as [Hli Hlt Hld _].
  assert (Hlen : (length seq ≤ current_index (pf s))%nat).
  { rewrite Htodo in Hlt. apply (f_equal length) in Hlt.
    rewrite length_drop in Hlt. simpl in Hlt. lia. }
  assert (Hw : window (pf s) = []).
  { unfold window. rewrite py_slice_window by lia.
    rewrite Hli, drop_ge by done. by rewrite take_nil. }
  destruct (window_empty_idle _ Hco' Hb' Hw) as (? & ? & ?).
  split_and!; try done.
  - by rewrite Hld, take_ge.
  - intros idx. unfold get_frame. rewrite lookup_ge_None_2; [done | by rewrite Hli].
Qed.

Lemma prefetcher_idle_after_last_result_witness :
  ∃ s : system (),
    run (start (_schedule_prefetch
                  {| buffer_size := 2; current_index := 0%nat;
                     indicies := [5; 6]; buffer := ∅;
                     action_fn := process_frame; in_progress := ∅;
                     executor := {| max_workers := 8; pending := [] |};
                     printed := [] |}) [5; 6])
        [WorkerDone 6 (Ok ()); WorkerDone 5 (Ok ()); ConsumerPoll; ConsumerPoll]
      = Some s
    ∧ buffer (pf s) = ∅
    ∧ get_frame (pf s) 5 = Raised (IndexError "list index out of range").
Proof.
  eexists. split; [vm_compute; reflexivity |].
  edestruct (prefetcher_idle_after_last_result (R:=())
                [5; 6] 2 8 "process"
                (_schedule_prefetch
                   {| buffer_size := 2; current_index := 0%nat;
                      indicies := [5; 6]; buffer := ∅;
                      action_fn := process_frame; in_progress := ∅;
                      executor := {| max_workers := 8; pending := [] |};
                      printed := [] |})
                [WorkerDone 6 (Ok ()); WorkerDone 5 (Ok ()); ConsumerPoll; ConsumerPoll])
    as (Hb & _ & _ & _ & Hg);
    [vm_compute; reflexivity | lia | vm_compute; reflexivity
    | vm_compute; reflexivity |].
  split; [exact Hb | exact (Hg 5)].
Defined.

(** X3.  The prefetcher invents no result: along every run, whatever the
    consumer asks for, each result it has delivered and each result in its
    buffer is the dictionary [{"index": idx, "result": r}] of a worker task
    for [idx] that completed with [r] earlier in the run. *)
Theorem delivered_results_come_from_workers
    {R : Type} (seq calls : list Z) (bs nw : Z) (action : string)
    (p0 : FramePrefetcher R) (tr : list (event R)) (s : system R) :
  __init__ seq bs nw action = Ok p0 →
  run (start p0 calls) tr = Some s →
  (∀ d, d ∈ delivered s → WorkerDone (index d) (Ok (result d)) ∈ tr)
  ∧ (∀ k d, buffer (pf s) !! k = Some d →
       k = index d ∧ WorkerDone k (Ok (result d)) ∈ tr).
Proof.
  intros Hinit Hrun.
  destruct (init_invariants _ _ _ _ _ Hinit) as (Hco & Hcov & _).
  destruct (init_fields _ _ _ _ _ Hinit) as (_ & _ & _ & _ & Hbuf).
  destruct (run_sound tr (start p0 calls) s (conj Hco Hcov) Hrun) as [Hco' _].
  assert (Hfw : from_workers ([] ++ tr) s).
  { eapply run_from_workers; [| exact Hrun].
    intros d [Hd | [k Hk]]; simpl in *.
    - by apply elem_of_nil in Hd.
    - by rewrite Hbuf, lookup_empty in Hk. }
  simpl in Hfw. split.
  - intros d Hd. apply Hfw. by left.
  - intros k d Hk. rewrite <- (buffer_keys _ Hco' _ _ Hk).
    split; [done |]. apply Hfw. right. eauto.
Qed.

Lemma delivered_results_come_from_workers_witness :
  ∃ s : system bool,
    run (start (_schedule_prefetch
                  {| buffer_size := 2; current_index := 0%nat;
                     indicies := [5; 6]; buffer := ∅;
                     action_fn := process_frame; in_progress := ∅;
                     executor := {| max_workers := 8; pending := [] |};
                     printed := [] |}) [5; 6])
        [WorkerDone 6 (Ok true); WorkerDone 5 (Ok false); ConsumerPoll]
      = Some s
    ∧ ∀ d, d ∈ delivered s →
        WorkerDone (index d) (Ok (result d))
          ∈ [WorkerDone 6 (Ok true); WorkerDone 5 (Ok false); ConsumerPoll].
Proof.
  eexists. split; [vm_compute; reflexivity |].
  refine (proj1 (delivered_results_come_from_workers
                   [5; 6] [5; 6] 2 8 "process"
                   (_schedule_prefetch
                      {| buffer_size := 2; current_index := 0%nat;
                         indicies := [5; 6]; buffer := ∅;
                         action_fn := process_frame; in_progress := ∅;
                         executor := {| max_workers := 8; pending := [] |};
                         printed := [] |})
                   [WorkerDone 6 (Ok true); WorkerDone 5 (Ok false); ConsumerPoll]
                   _ _ _)).
  - vm_compute; reflexivity.
  - vm_compute; reflexivity.
Defined.

(** X4.  When the indices of the sequence are pairwise distinct, the
    action is started at most once for each index in the whole life of the
    prefetcher: along every run, failed tasks included, the completions of
    futures of an index and its pending futures together number at most
    one. *)
Theorem distinct_indices_started_at_most_once
    {R : Type} (seq calls : list Z) (bs nw : Z) (action : string)
    (p0 : FramePrefetcher R) (tr : list (event R)) (s : system R) :
  __init__ seq bs nw action = Ok p0 →
  NoDup seq →
  run (start p0 calls) tr = Some s →
  ∀ idx, (completions idx tr + pending_count (pf s) idx ≤ 1)%nat.
Proof.
  intros Hinit Hnd Hrun idx.
  destruct (init_invariants _ _ _ _ _ Hinit) as (Hco & _).
  destruct (init_fields _ _ _ _ _ Hinit) as (_ & _ & Hi & _).
  destruct (run_started_once idx tr (start p0 calls) s 0) as [(Hn & Hpen & _) Hco'];
    simpl; try done.
  - by rewrite Hi.
  - split_and!; [lia | done | lia].
  - unfold pending_count.
    rewrite NoDup_filter_eq_length by (by destruct Hco').
    case_decide as Hin; [| lia]. specialize (Hpen Hin). lia.
Qed.

Lemma distinct_indices_started_at_most_once_witness :
  ∃ s : system (),
    run (start (_schedule_prefetch
                  {| buffer_size := 1; current_index := 0%nat;
                     indicies := [5; 6]; buffer := ∅;
                     action_fn := process_frame; in_progress := ∅;
                     executor := {| max_workers := 8; pending := [] |};
                     printed := [] |}) [5; 6])
        [WorkerDone 5 (Ok ()); ConsumerPoll; WorkerDone 6 (Raise (OtherError "boom"))]
      = Some s
    ∧ ∀ idx,
        (completions idx
           [WorkerDone 5 (Ok ()); ConsumerPoll;
            WorkerDone 6 (Raise (OtherError "boom"))]
         + pending_count (pf s) idx ≤ 1)%nat.
Proof.
  eexists. split; [vm_compute; reflexivity |].
  refine (distinct_indices_started_at_most_once
            [5; 6] [5; 6] 1 8 "process"
            (_schedule_prefetch
               {| buffer_size := 1; current_index := 0%nat;
                  indicies := [5; 6]; buffer := ∅;
                  action_fn := process_frame; in_progress := ∅;
                  executor := {| max_workers := 8; pending := [] |};
                  printed := [] |})
            [WorkerDone 5 (Ok ()); ConsumerPoll;
             WorkerDone 6 (Raise (OtherError "boom"))]
            _ _ _ _).
  - vm_compute; reflexivity.
  - repeat constructor; set_solver.
  - vm_compute; reflexivity.
Defined.

(** ** Loading and saving metadata, constructing frames *)

Section FrameFiles.
Import frames.

Lemma union_twice (m defaults : gmap string json) :
  (m ∪ defaults) ∪ defaults = m ∪ defaults.
Proof. by rewrite <- (assoc_L (∪)), (idemp_L (∪)). Qed.

Lemma load_metadata_unfold self d :
  load_metadata self d =
  let m := match metadata_files d !! index self with
           | Some existing => existing ∪ initial_metadata self
           | None => initial_metadata self
           end in
  (set_metadata m self, save_metadata (set_metadata m self) d).
Proof.
  destruct (metadata_files d !! index self) as [existing |] eqn:He.
  - by rewrite (load_metadata_existing _ _ _ He).
  - by rewrite (load_metadata_absent _ _ He).
Qed.

End FrameFiles.

(** X5.  [load_metadata] is idempotent: loading again, on the frame and
    the disk that a load has left, gives the same frame and the same disk,
    whether or not a record existed before. *)
Theorem load_metadata_idempotent (self : frames.Frame) (d : frames.Disk) :
  frames.load_metadata (frames.load_metadata self d).1
                       (frames.load_metadata self d).2
  = frames.load_metadata self d.
Proof.
  rewrite (load_metadata_unfold self d). cbn zeta. cbn [fst snd].
  rewrite load_metadata_unfold. cbn zeta.
  unfold frames.save_metadata, frames.set_metadata. simpl.
  rewrite lookup_insert_eq, insert_insert_eq.
  destruct (frames.metadata_files d !! frames.index self);
    by rewrite ?union_twice, ?(idemp_L (∪)).
Qed.

(** X6.  What [save_metadata] writes, [load_metadata] reads: a frame of
    the same index that loads after the save holds the saved record,
    completed with the keys of its own defaults that the record lacks, and
    writes that back; when the record has every default key, it holds
    exactly the saved record and the disk is as the save left it. *)
Theorem save_then_load_metadata
    (self other : frames.Frame) (d : frames.Disk) :
  frames.index other = frames.index self →
  frames.metadata (frames.load_metadata other (frames.save_metadata self d)).1
    = frames.metadata self ∪ frames.initial_metadata other
  ∧ frames.metadata_files
      (frames.load_metadata other (frames.save_metadata self d)).2
      !! frames.index self
    = Some (frames.metadata self ∪ frames.initial_metadata other)
  ∧ (dom (frames.initial_metadata other) ⊆ dom (frames.metadata self) →
     frames.metadata
       (frames.load_metadata other (frames.save_metadata self d)).1
       = frames.metadata self
     ∧ (frames.load_metadata other (frames.save_metadata self d)).2
       = frames.save_metadata self d).
Proof.
  intros Hidx. rewrite load_metadata_unfold. cbn zeta. cbn [fst snd].
  unfold frames.save_metadata, frames.set_metadata. simpl.
  rewrite Hidx, lookup_insert_eq. split_and!; [done | by rewrite lookup_insert_eq |].
  intros Hdom.
  assert (Habs : frames.metadata self ∪ frames.initial_metadata other
                 = frames.metadata self).
  { apply union_absorb. intros key Hk%elem_of_dom. apply elem_of_dom. set_solver. }
  rewrite Habs. split; [done |]. by rewrite insert_insert_eq.
Qed.

Lemma save_then_load_metadata_witness :
  frames.metadata
    (frames.load_metadata
       {| frames.index := 3;
          frames.initial_metadata := {[ "b" := frames.JNull ]};
          frames.metadata := ∅ |}
       (frames.save_metadata
          {| frames.index := 3; frames.initial_metadata := ∅;
             frames.metadata := {[ "a" := frames.JInt 1 ]} |}
          {| frames.frame_files := {[ 3 ]}; frames.metadata_files := ∅ |})).1
  = {[ "a" := frames.JInt 1 ]} ∪ {[ "b" := frames.JNull ]}.
Proof.
  refine (proj1 (save_then_load_metadata _ _ _ _)). reflexivity.
Defined.

(** X7.  The constructor of [Frame] goes through its checks in this
    order.  A class without a client first prints one line and asks for a
    client; when that raises, the constructor raises the same, whatever
    the index and the defaults are, and the disk is as it was.  With a
    client, a missing image file raises [FileNotFoundError], whatever the
    defaults are.  With the image, defaults that are true and no
    dictionary raise [ValueError].  In all these cases no metadata file is
    created.  Otherwise the construction succeeds with the defaults, or
    with none when [initial_metadata] is [None] or false: the frame's
    metadata has every key of the defaults, the metadata file holds the
    frame's metadata, and constructing the frame once more with the same
    arguments gives the same frame and the same disk, and prints
    nothing. *)
Theorem frame_construction
    {Client : Type} (Groundlight_new : outcome Client)
    (cls : frames.Class Client) (idx : Z)
    (initial_metadata : frames.py_arg) (d : frames.Disk) :
  let r := frames.__init__ Groundlight_new cls idx initial_metadata d in
  (∀ e, frames._gl cls = None → Groundlight_new = Raise e →
     r = (Raise e, d,
          {| frames._gl := None;
             frames.output := frames.output cls ++ [frames.no_client_message] |}))
  ∧ (∀ client,
       frames._gl cls = Some client
       ∨ (frames._gl cls = None ∧ Groundlight_new = Ok client) →
       frames._gl r.2 = Some client
       ∧ frames.output r.2
         = frames.output cls
           ++ match frames._gl cls with
              | Some _ => []
              | None => [frames.no_client_message]
              end
       ∧ (idx ∉ frames.frame_files d →
          (∃ msg, r.1.1 = Raise (FileNotFoundError msg)) ∧ r.1.2 = d)
       ∧ (idx ∈ frames.frame_files d →
          frames.or_empty initial_metadata = None →
          r.1.1 = Raise (ValueError "initial_metadata must be a dictionary")
          ∧ r.1.2 = d)
       ∧ (idx ∈ frames.frame_files d →
          ∀ initial,
            frames.or_empty initial_metadata = Some initial →
            ∃ self,
              r.1.1 = Ok self
              ∧ frames.index self = idx
              ∧ frames.initial_metadata self = initial
              ∧ dom initial ⊆ dom (frames.metadata self)
              ∧ frames.metadata_files r.1.2 !! idx = Some (frames.metadata self)
              ∧ frames.__init__ Groundlight_new r.2 idx initial_metadata r.1.2
                = r)).
Proof.
  intros r. subst r. unfold frames.__init__. split.
  - intros e -> ->. done.
  - intros client Hcl.
    assert (Hinit :
      match frames._gl cls with
      | Some _ => (Ok (), cls)
      | None =>
          match Groundlight_new with
          | Ok client0 =>
              (Ok (), {| frames._gl := Some client0;
                         frames.output :=
                           frames.output cls ++ [frames.no_client_message] |})
          | Raise e =>
              (Raise e, {| frames._gl := None;
                           frames.output :=
                             frames.output cls ++ [frames.no_client_message] |})
          end
      end
      = (Ok (),
         {| frames._gl := Some client;
            frames.output :=
              frames.output cls
              ++ match frames._gl cls with
                 | Some _ => []
                 | None => [frames.no_client_message]
                 end |})).
    { destruct Hcl as [Hc | [Hc Hg]]; rewrite Hc; [| by rewrite Hg].
      destruct cls as [gl out]. simpl in Hc. subst gl. simpl.
      by rewrite app_nil_r. }
    cbv zeta. rewrite Hinit. clear Hinit.
    destruct (decide (idx ∈ frames.frame_files d)) as [Hin | Hin].
    + destruct (frames.or_empty initial_metadata) as [initial |] eqn:Hor.
      * set (self0 := {| frames.index := idx;
                         frames.initial_metadata := initial;
                         frames.metadata := ∅ |}).
        rewrite (load_metadata_unfold self0 d). cbn zeta. cbn [fst snd].
        split_and!; try done.
        intros _ initial' [= <-]. eexists. split_and!; try done.
        -- simpl. destruct (frames.metadata_files d !! idx); [| done].
           rewrite dom_union_L. set_solver.
        -- simpl. by rewrite lookup_insert_eq.
        -- cbn [frames._gl]. rewrite decide_True by done.
           fold self0. rewrite load_metadata_unfold. cbn zeta.
           unfold frames.save_metadata, frames.set_metadata. simpl.
           rewrite lookup_insert_eq, insert_insert_eq.
           destruct (frames.metadata_files d !! idx);
             by rewrite ?union_twice, ?(idemp_L (∪)).
      * split_and!; try done.
    + split_and!; try done. intros _. split; [by eauto | done].
Qed.

(** ** Updating and processing robot frames *)

Section RobotUpdates.
Import frames robot_frames.
Implicit Types (gl : Groundlight) (w : World) (m : gmap string json).

Lemma initial_metadata_null key v :
  robot_frames.initial_metadata !! key = Some v → v = JNull.
Proof.
  unfold robot_frames.initial_metadata.
  intros [[_ <-] | [_ [_ <-]%lookup_singleton_Some]]%lookup_insert_Some; done.
Qed.

(** A value that is not null was on record before the load. *)
Lemma loaded_non_null w idx key v :
  loaded w idx !! key = Some v → is_None v = false →
  ∃ rec, record_of w idx = Some rec ∧ rec !! key = Some v.
Proof.
  unfold loaded. intros Hl Hv. destruct (record_of w idx) as [rec |].
  - exists rec. split; [done |].
    apply lookup_union_Some_raw in Hl as [? | [_ Hi]]; [done |].
    apply initial_metadata_null in Hi. by subst v.
  - apply initial_metadata_null in Hl. by subst v.
Qed.

Lemma loaded_null_token w idx :
  (∀ rec, record_of w idx = Some rec →
     rec !! "iq_id" = None ∨ rec !! "iq_id" = Some JNull) →
  loaded w idx !! "iq_id" = Some JNull.
Proof.
  intros Hrec. unfold loaded. destruct (record_of w idx) as [rec |]; [| done].
  apply lookup_union_Some_raw.
  destruct (Hrec rec eq_refl) as [Hn | Hs]; [by right | by left].
Qed.

Lemma record_of_store_ne w idx idx' m rqs :
  idx' ≠ idx → record_of (store w idx m rqs) idx' = record_of w idx'.
Proof. intros Hne. unfold record_of, store. simpl. by rewrite lookup_insert_ne. Qed.

(** A call leaves the world or stores one record of its index. *)
Lemma do_call_world gl idx c w :
  do_call gl idx c w = w ∨ ∃ m rqs, do_call gl idx c w = store w idx m rqs.
Proof.
  destruct c; unfold do_call.
  - rewrite process_unfold. case_decide; [| by left].
    destruct (loaded w idx !! "iq_id") as [tok |]; [| right; by eauto].
    destruct (is_None tok); cbn zeta; cbn [snd]; [rewrite store_store |];
      right; by eauto.
  - rewrite update_unfold. case_decide; [| by left].
    destruct (loaded w idx !! "iq_id") as [tok |],
             (loaded w idx !! "is_upside_down") as [ans |];
      try (right; by eauto).
    + destruct (is_None tok); [right; by eauto |].
      destruct (is_None ans); cbn zeta; cbn [snd]; [rewrite store_store |];
        right; by eauto.
    + destruct (is_None tok); right; by eauto.
Qed.

End RobotUpdates.

(** X8.  [update_frame] on a fresh [RobotFrame] never asks the service a
    new question: the number of [ask_ml] requests stays as it was.  Either
    it makes no request at all, or it makes exactly one, a
    [get_image_query] with the token on record, and then the frame's image
    exists, the token on record is not null and the answer on record is
    missing or null. *)
Theorem update_never_asks_anew
    (gl : robot_frames.Groundlight) (idx : Z) (w : robot_frames.World) :
  robot_frames.queries (robot_frames.update gl idx w).2
    = robot_frames.queries w
  ∧ (robot_frames.requests (robot_frames.update gl idx w).2
       = robot_frames.requests w
     ∨ ∃ rec tok,
         idx ∈ frames.frame_files (robot_frames.disk w)
         ∧ robot_frames.record_of w idx = Some rec
         ∧ rec !! "iq_id" = Some tok ∧ tok ≠ frames.JNull
         ∧ (rec !! "is_upside_down" = None
            ∨ rec !! "is_upside_down" = Some frames.JNull)
         ∧ robot_frames.requests (robot_frames.update gl idx w).2
           = robot_frames.requests w ++ [robot_frames.get_image_query tok]).
Proof.
  rewrite update_unfold. case_decide as Hin; [| by split; [| left]].
  destruct (loaded w idx !! "iq_id") as [tok |] eqn:Htok;
    [| by split; [| left]].
  destruct (loaded w idx !! "is_upside_down") as [ans |] eqn:Hans;
    [| destruct (robot_frames.is_None tok); by split; [| left]].
  destruct (robot_frames.is_None tok) eqn:Hnt; [by split; [| left] |].
  destruct (robot_frames.is_None ans) eqn:Hna; [| by split; [| left]].
  cbn zeta. cbn [snd]. rewrite store_store. split.
  - rewrite queries_app. simpl. lia.
  - right. destruct (loaded_non_null _ _ _ _ Htok Hnt) as (rec & Hrec & Hr).
    exists rec, tok. split_and!; try done.
    + by intros ->.
    + unfold loaded in Hans. rewrite Hrec in Hans.
      destruct ans; try done.
      apply lookup_union_Some_raw in Hans as [? | [? _]]; by auto.
Qed.

(** X9.  [update_frame] on a frame that has never been processed, the
    image being there: when the record of the index is missing, or holds no
    token or a null one, the call raises the [ValueError] that names the
    frame, makes no request to the service, and leaves on disk the record
    as loaded, with a null token. *)
Theorem update_without_token_raises
    (gl : robot_frames.Groundlight) (idx : Z) (w : robot_frames.World) :
  idx ∈ frames.frame_files (robot_frames.disk w) →
  (∀ rec, robot_frames.record_of w idx = Some rec →
     rec !! "iq_id" = None ∨ rec !! "iq_id" = Some frames.JNull) →
  (robot_frames.update gl idx w).1
    = Raise (ValueError
        ("Frame " +:+ pretty idx +:+
         " has no iq_id. Use process_frame() to query for an answer first before trying to update."))
  ∧ robot_frames.requests (robot_frames.update gl idx w).2
    = robot_frames.requests w
  ∧ ∃ rec', robot_frames.record_of (robot_frames.update gl idx w).2 idx
            = Some rec'
            ∧ rec' !! "iq_id" = Some frames.JNull.
Proof.
  intros Hin Hrec. pose proof (loaded_null_token w idx Hrec) as Htok.
  rewrite update_unfold, decide_True by done. rewrite Htok.
  destruct (loaded w idx !! "is_upside_down"); cbn [robot_frames.is_None fst snd];
    (split_and!; [done | done |]); rewrite store_record; by eauto.
Qed.

Lemma update_without_token_raises_witness :
  (robot_frames.update robot_frames.confident_service 5
     robot_frames.answered_world).1
  = Raise (ValueError
      "Frame 5 has no iq_id. Use process_frame() to query for an answer first before trying to update.").
Proof.
  refine (proj1 (update_without_token_raises
                   robot_frames.confident_service 5
                   robot_frames.answered_world _ _)).
  - vm_compute. set_solver.
  - intros rec Hrec. vm_compute in Hrec. discriminate.
Defined.

(** X10.  [process_frame] establishes what [update_frame] needs: after a
    [process] call for an index whose image exists, the record holds a
    token that is not null, and an [update] call for that index returns
    without raising; it makes no request when the answer on record is not
    null, and otherwise exactly one, a [get_image_query] with that
    token. *)
Theorem update_after_process_returns
    (gl : robot_frames.Groundlight) (idx : Z) (w : robot_frames.World) :
  idx ∈ frames.frame_files (robot_frames.disk w) →
  let w1 := (robot_frames.process gl idx w).2 in
  ∃ rec tok,
    robot_frames.record_of w1 idx = Some rec
    ∧ rec !! "iq_id" = Some tok ∧ tok ≠ frames.JNull
    ∧ (robot_frames.update gl idx w1).1 = Ok ()
    ∧ ((∃ a, rec !! "is_upside_down" = Some a ∧ a ≠ frames.JNull
             ∧ (robot_frames.update gl idx w1).2 = w1)
       ∨ (rec !! "is_upside_down" = Some frames.JNull
          ∧ robot_frames.requests (robot_frames.update gl idx w1).2
            = robot_frames.requests w1 ++ [robot_frames.get_image_query tok])).
Proof.
  intros Hin w1.
  assert (Hw1 : ∃ m rqs tok ans,
             w1 = store w idx m rqs ∧ m !! "iq_id" = Some tok
             ∧ robot_frames.is_None tok = false
             ∧ m !! "is_upside_down" = Some ans).
  { subst w1. rewrite process_unfold, decide_True by done.
    destruct (loaded_has_keys w idx "iq_id") as [tok Htok]; [by left |].
    destruct (loaded_has_keys w idx "is_upside_down") as [ans Hans]; [by right |].
    rewrite Htok. destruct (robot_frames.is_None tok) eqn:Hnt; cbn zeta; cbn [snd].
    - rewrite store_store.
      destruct (updated_has_keys gl (loaded w idx)
                  (robot_frames.respond gl (robot_frames.requests w)
                     (robot_frames.ask_ml (frames.imread idx)))
                  "is_upside_down") as [ans' Hans']; [by eauto |].
      eexists _, _, _, ans'. split_and!; [done | apply updated_iq_id | done | done].
    - by eexists _, _, tok, ans. }
  destruct Hw1 as (m & rqs & tok & ans & Hw1 & Htok & Hnt & Hans).
  assert (Hl : loaded w1 idx = m) by (rewrite Hw1; apply loaded_store; by eauto).
  assert (Hf : idx ∈ frames.frame_files (robot_frames.disk w1)) by (by rewrite Hw1).
  exists m, tok. rewrite update_unfold, decide_True by done.
  rewrite Hl, Htok, Hans, Hnt.
  split_and!; [by rewrite Hw1, store_record | done | by intros -> | |].
  - by destruct (robot_frames.is_None ans).
  - destruct (robot_frames.is_None ans) eqn:Hna; cbn zeta; cbn [snd].
    + right. destruct ans; try discriminate. split; [done |].
      by rewrite store_store.
    + left. exists ans. split_and!; [done | by intros -> |].
      rewrite Hw1. cbn [robot_frames.requests store]. by rewrite store_store.
Qed.

Lemma update_after_process_returns_witness :
  (robot_frames.update robot_frames.unclear_service 5
     (robot_frames.process robot_frames.unclear_service 5
        robot_frames.answered_world).2).1 = Ok ().
Proof.
  destruct (update_after_process_returns robot_frames.unclear_service 5
              robot_frames.answered_world)
    as (rec & tok & _ & _ & _ & Hok & _).
  - vm_compute. set_solver.
  - exact Hok.
Defined.

(** X11.  A [process] or [update] call for one index reads and writes the
    files of that index only: the record of every other index and the set
    of image files are as they were. *)
Theorem calls_touch_one_record
    (gl : robot_frames.Groundlight) (idx idx' : Z)
    (c : robot_frames.frame_call) (w : robot_frames.World) :
  idx' ≠ idx →
  robot_frames.record_of (robot_frames.do_call gl idx c w) idx'
    = robot_frames.record_of w idx'
  ∧ frames.frame_files (robot_frames.disk (robot_frames.do_call gl idx c w))
    = frames.frame_files (robot_frames.disk w).
Proof.
  intros Hne. destruct (do_call_world gl idx c w) as [-> | (m & rqs & ->)].
  - done.
  - split; [by apply record_of_store_ne | done].
Qed.

Lemma calls_touch_one_record_witness :
  robot_frames.record_of
    (robot_frames.do_call robot_frames.confident_service 5
       robot_frames.call_process robot_frames.answered_world) 4
  = robot_frames.record_of robot_frames.answered_world 4.
Proof.
  refine (proj1 (calls_touch_one_record
                   robot_frames.confident_service 5 4
                   robot_frames.call_process robot_frames.answered_world _)).
  lia.
Defined.

(** ** The frame indices of the directory ([utils.py]) *)

Section FrameIndices.
Import frames utils.

Lemma py_min_spec (l : list Z) :
  ∀ x, py_min x l ∈ x :: l ∧ ∀ y, y ∈ x :: l → py_min x l ≤ y.
Proof.
  unfold py_min. induction l as [| z l IH]; intros x; simpl.
  - split; [set_solver |]. intros y ->%list_elem_of_singleton. lia.
  - destruct (IH (x `min` z)) as [Hin Hle]. split.
    + apply elem_of_cons in Hin as [-> | Hin]; [| set_solver].
      destruct (Z.min_spec x z) as [[_ ->] | [_ ->]]; set_solver.
    + intros y Hy. assert (Hm : foldl Z.min (x `min` z) l ≤ x `min` z)
        by (apply Hle; set_solver).
      apply elem_of_cons in Hy as [-> | [-> | Hy]%elem_of_cons]; [lia | lia |].
      apply Hle. set_solver.
Qed.

Lemma py_max_spec (l : list Z) :
  ∀ x, py_max x l ∈ x :: l ∧ ∀ y, y ∈ x :: l → y ≤ py_max x l.
Proof.
  unfold py_max. induction l as [| z l IH]; intros x; simpl.
  - split; [set_solver |]. intros y ->%list_elem_of_singleton. lia.
  - destruct (IH (x `max` z)) as [Hin Hle]. split.
    + apply elem_of_cons in Hin as [-> | Hin]; [| set_solver].
      destruct (Z.max_spec x z) as [[_ ->] | [_ ->]]; set_solver.
    + intros y Hy. assert (Hm : x `max` z ≤ foldl Z.max (x `max` z) l)
        by (apply Hle; set_solver).
      apply elem_of_cons in Hy as [-> | [-> | Hy]%elem_of_cons]; [lia | lia |].
      apply Hle. set_solver.
Qed.

Lemma get_frame_indices_ok (int : string → outcome Z) (names : list string) :
  ∀ indices,
  frame_index int <$> filter (λ name, glob_frame_jpg name = true) names
  = Ok <$> indices →
  _get_frame_indices int names = Ok indices.
Proof.
  induction names as [| name names IH]; intros indices; simpl.
  - by destruct indices.
  - destruct (glob_frame_jpg name) eqn:Hg.
    + rewrite filter_cons_True by done. rewrite fmap_cons.
      destruct indices as [| idx indices]; [done |]. rewrite fmap_cons.
      intros [= -> Hrest]. by rewrite (IH indices Hrest).
    + rewrite filter_cons_False by (by rewrite Hg). apply IH.
Qed.

Lemma get_frame_indices_raise (int : string → outcome Z) (names : list string) :
  ∀ before name after e,
  filter (λ name, glob_frame_jpg name = true) names = before ++ name :: after →
  Forall (λ n, ∃ idx, frame_index int n = Ok idx) before →
  frame_index int name = Raise e →
  _get_frame_indices int names = Raise e.
Proof.
  induction names as [| n names IH]; intros before name after e; simpl.
  - by destruct before.
  - destruct (glob_frame_jpg n) eqn:Hg.
    + rewrite filter_cons_True by done.
      destruct before as [| b before]; simpl.
      * intros [= -> Hrest] _ ->. done.
      * intros [= -> Hrest] [[idx ->] Hall]%Forall_cons He.
        by rewrite (IH before name after e Hrest Hall He).
    + rewrite filter_cons_False by (by rewrite Hg). apply IH.
Qed.

End FrameIndices.

(** X12.  [get_first_frame_index] and [get_last_frame_index] look at the
    entries of the frames directory that [frame_*.jpg] matches, in the
    order of the listing.  With no such entry both raise the [ValueError]
    "No frames found in the frames directory".  When every such name reads
    as an integer, they return the least and the greatest of these
    integers, so every one of them lies between the two.  When a name
    does not read as an integer, both raise what reading the first such
    name raises. *)
Theorem first_and_last_frame_index
    (int : string → outcome Z) (names : list string) :
  let frames := filter (λ name, utils.glob_frame_jpg name = true) names in
  (frames = [] →
     utils.get_first_frame_index int names = Raise utils.no_frames_found
     ∧ utils.get_last_frame_index int names = Raise utils.no_frames_found)
  ∧ (∀ indices,
       utils.frame_index int <$> frames = Ok <$> indices →
       indices ≠ [] →
       ∃ first last,
         utils.get_first_frame_index int names = Ok first
         ∧ utils.get_last_frame_index int names = Ok last
         ∧ first ∈ indices ∧ last ∈ indices
         ∧ ∀ idx, idx ∈ indices → first ≤ idx ≤ last)
  ∧ (∀ before name after e,
       frames = before ++ name :: after →
       Forall (λ n, ∃ idx, utils.frame_index int n = Ok idx) before →
       utils.frame_index int name = Raise e →
       utils.get_first_frame_index int names = Raise e
       ∧ utils.get_last_frame_index int names = Raise e).
Proof.
  intros frames. subst frames.
  unfold utils.get_first_frame_index, utils.get_last_frame_index.
  split_and!.
  - intros Hnone.
    by rewrite (get_frame_indices_ok int names []) by (by rewrite Hnone).
  - intros indices Hok Hne. rewrite (get_frame_indices_ok int names indices Hok).
    destruct indices as [| x l]; [done |].
    destruct (py_min_spec l x) as [Hmin Hle], (py_max_spec l x) as [Hmax Hge].
    exists (utils.py_min x l), (utils.py_max x l). split_and!; try done.
    intros idx Hidx. split; [by apply Hle | by apply Hge].
  - intros before name after e Hf Hall He.
    by rewrite (get_frame_indices_raise int names before name after e Hf Hall He).
Qed.

Lemma first_and_last_frame_index_witness :
  let int := λ digits : string,
    if decide (digits = "7") then Ok 7
    else if decide (digits = "10") then Ok 10
    else Raise (ValueError ("invalid literal for int() with base 10: '"
                            +:+ digits +:+ "'")) in
  let names := ["frame_10.jpg"; "notes.txt"; "frame_7.jpg"; "Frame_3.jpg"] in
  (utils.get_first_frame_index int names = Ok 7
   ∧ utils.get_last_frame_index int names = Ok 10)
  ∧ utils.get_first_frame_index int ("frame_7_b.jpg" :: names)
    = Raise (ValueError "invalid literal for int() with base 10: '7_b'").
Proof.
  intros int names. split.
  - destruct (proj1 (proj2 (first_and_last_frame_index int names)) [10; 7])
      as (first & last & -> & -> & Hf & Hl & Hb); [reflexivity | done |].
    destruct (Hb 7 ltac:(set_solver)), (Hb 10 ltac:(set_solver)).
    rewrite !elem_of_cons, elem_of_nil in Hf, Hl.
    split; f_equal; lia.
  - refine (proj1 (proj2 (proj2 (first_and_last_frame_index
                                   int ("frame_7_b.jpg" :: names)))
                     [] "frame_7_b.jpg" ["frame_10.jpg"; "frame_7.jpg"] _ _ _ _)).
    + reflexivity.
    + constructor.
    + reflexivity.
Defined.

(** ** The proportion of answered frames ([utils.proportion_with_answer]) *)

Section Proportion.
Import frames robot_frames utils.
Implicit Types (w : World) (indices : list Z).

Lemma answered_store_loaded w idx idx' :
  answered (store w idx (loaded w idx) (requests w)) idx' = answered w idx'.
Proof.
  unfold answered. destruct (decide (idx' = idx)) as [-> | Hne].
  - rewrite answer_of_store. unfold answer_of, loaded.
    destruct (record_of w idx) as [rec |]; simpl; [| done].
    rewrite lookup_union. destruct (rec !! "is_upside_down"); done.
  - unfold answer_of. by rewrite record_of_store_ne.
Qed.

Lemma has_answer_loaded w idx :
  has_answer {| index := idx;
                frames.initial_metadata := robot_frames.initial_metadata;
                metadata := loaded w idx |} = Ok (answered w idx).
Proof.
  unfold has_answer, answered, answer_of, loaded. simpl.
  destruct (record_of w idx) as [rec |]; simpl; [| done].
  rewrite lookup_union. destruct (rec !! "is_upside_down"); done.
Qed.

Lemma has_answer_results_robot indices :
  ∀ w, (∀ idx, idx ∈ indices → idx ∈ frame_files (disk w)) →
  ∃ w', has_answer_results robot_frames.__init__ has_answer indices w
        = (Ok (answered w <$> indices), w')
        ∧ requests w' = requests w
        ∧ frame_files (disk w') = frame_files (disk w)
        ∧ ∀ idx, answered w' idx = answered w idx.
Proof.
  induction indices as [| idx rest IH]; intros w Hall; simpl.
  - by exists w.
  - rewrite init_found by set_solver. rewrite has_answer_loaded.
    destruct (IH (store w idx (loaded w idx) (requests w)))
      as (w' & -> & Hr & Hf & Ha); [simpl; set_solver |].
    exists w'. split_and!; try done.
    + do 2 f_equal. f_equal. apply list_fmap_ext. intros _ i _.
      apply answered_store_loaded.
    + intros i. by rewrite Ha, answered_store_loaded.
Qed.

Lemma has_answer_results_requests indices :
  ∀ w, requests (has_answer_results robot_frames.__init__ has_answer indices w).2
       = requests w.
Proof.
  induction indices as [| idx rest IH]; intros w; simpl; [done |].
  destruct (decide (idx ∈ frame_files (disk w))) as [Hin | Hin].
  - rewrite init_found by done. rewrite has_answer_loaded.
    specialize (IH (store w idx (loaded w idx) (requests w))).
    destruct (has_answer_results _ _ rest _) as [[bs | e] w']; by simpl in *.
  - by rewrite init_missing.
Qed.

Lemma has_answer_results_missing indices :
  ∀ w idx, idx ∈ indices → idx ∉ frame_files (disk w) →
  ∃ idx', idx' ∈ indices ∧ (idx' ∉ frame_files (disk w))
    ∧ (has_answer_results robot_frames.__init__ has_answer indices w).1
      = Raise (FileNotFoundError (frame_not_found_message idx')).
Proof.
  induction indices as [| i rest IH]; intros w idx Hin Hmiss; simpl.
  - by apply elem_of_nil in Hin.
  - destruct (decide (i ∈ frame_files (disk w))) as [Hi | Hi].
    + rewrite init_found by done. rewrite has_answer_loaded.
      destruct (IH (store w i (loaded w i) (requests w)) idx)
        as (idx' & ? & ? & Hr); [set_solver | done |].
      exists idx'. split_and!; [set_solver | done |].
      destruct (has_answer_results _ _ rest _) as [[bs | e] w']; by simpl in *.
    + exists i. rewrite init_missing by done. split_and!; [set_solver | done..].
Qed.

Lemma py_sum_fmap (f : Z → bool) indices :
  py_sum (f <$> indices) = length (filter (λ idx, f idx = true) indices).
Proof.
  unfold py_sum. induction indices as [| idx rest IH]; [done |].
  rewrite fmap_cons, !filter_cons. destruct (f idx); simpl; by rewrite IH.
Qed.

End Proportion.

(** X13.  [proportion_with_answer] for robot frames (the frame class
    [RobotFrame], the test [RobotFrame.has_answer]) makes no request to the
    service.  For an empty list it raises the [ValueError] "No indices
    provided" and changes nothing.  When every index of a list that is not
    empty has its image, the result is the number of list entries whose
    record holds an answer that is not null, divided by the length of the
    list, a number from 0 to 1; the records that the frames constructed on
    the way write do not change the count.  When some index has no image,
    the call raises [FileNotFoundError] for an index of the list without
    image. *)
Theorem proportion_with_answer_of_robot_frames
    (indices : list Z) (w : robot_frames.World) :
  let r := utils.proportion_with_answer robot_frames.__init__ utils.has_answer
             indices w in
  let count := length (filter (λ idx, answered w idx = true) indices) in
  robot_frames.requests r.2 = robot_frames.requests w
  ∧ (indices = [] → r = (Raise (ValueError "No indices provided"), w))
  ∧ (indices ≠ [] →
     (∀ idx, idx ∈ indices → idx ∈ frames.frame_files (robot_frames.disk w)) →
     r.1 = Ok (Z.of_nat count # Pos.of_nat (length indices))%Q
     ∧ (0 <= Z.of_nat count # Pos.of_nat (length indices))%Q
     ∧ (Z.of_nat count # Pos.of_nat (length indices) <= 1)%Q
     ∧ ∀ idx, answered r.2 idx = answered w idx)
  ∧ (∀ idx, idx ∈ indices →
       idx ∉ frames.frame_files (robot_frames.disk w) →
       ∃ idx', idx' ∈ indices
         ∧ (idx' ∉ frames.frame_files (robot_frames.disk w))
         ∧ r.1 = Raise (FileNotFoundError (frames.frame_not_found_message idx'))).
Proof.
  intros r count. subst r count. unfold utils.proportion_with_answer.
  split_and!.
  - case_decide; [done |].
    pose proof (has_answer_results_requests indices w) as Hr.
    destruct (utils.has_answer_results _ _ indices w) as [[bs | e] w']; by simpl in *.
  - intros ->. done.
  - intros Hne Hall. rewrite decide_False by (by destruct indices).
    destruct (has_answer_results_robot indices w Hall) as (w' & -> & _ & _ & Ha).
    cbn [fst snd]. rewrite py_sum_fmap, length_fmap. split_and!; [done | | | done].
    + unfold Qle. simpl. lia.
    + unfold Qle. simpl. rewrite Z.mul_1_r, Z.mul_1_l.
      pose proof (length_filter (λ idx, answered w idx = true) indices).
      assert (length indices ≠ 0%nat) by (by destruct indices).
      assert (Z.pos (Pos.of_nat (length indices)) = Z.of_nat (length indices))
        as -> by (destruct (length indices); [done | lia]).
      lia.
  - intros idx Hin Hmiss.
    rewrite decide_False
      by (destruct indices; [by apply elem_of_nil in Hin | done]).
    destruct (has_answer_results_missing indices w idx Hin Hmiss)
      as (idx' & ? & ? & Hr).
    exists idx'. split_and!; [done | done |].
    destruct (utils.has_answer_results _ _ indices w) as [[bs | e] w'];
      simpl in *; [done | by injection Hr as ->].
Qed.

Lemma proportion_with_answer_of_robot_frames_witness :
  (utils.proportion_with_answer robot_frames.__init__ utils.has_answer
     [4; 5] robot_frames.answered_world).1
  = Ok (Qmake
          (Z.of_nat
             (length (filter (λ idx, answered robot_frames.answered_world idx = true)
                             [4; 5])))
          (Pos.of_nat (length [4; 5]))).
Proof.
  destruct (proportion_with_answer_of_robot_frames [4; 5]
              robot_frames.answered_world) as (_ & _ & H & _).
  destruct H as (Hr & _); [done | | exact Hr].
  intros idx Hidx. vm_compute. set_solver.
Defined.

(** ** Warming up and driving the prefetcher *)

Section Drivers.
Context {R : Type}.
Implicit Types (p : FramePrefetcher R) (found : lock.timing R).

Lemma valid_process : valid_action "process".
Proof. by left. Qed.

Lemma pool_size_take (indices : list Z) :
  take (Z.to_nat (driver.pool_size indices)) indices = take 32 indices.
Proof.
  unfold driver.pool_size.
  destruct (decide (length indices ≤ 32)%nat).
  - rewrite !take_ge; [done | lia | lia].
  - f_equal. lia.
Qed.

Lemma pool_size_positive (idx : Z) (rest : list Z) :
  1 ≤ driver.pool_size (idx :: rest).
Proof. unfold driver.pool_size. simpl length. lia. Qed.

End Drivers.

(** X14.  [warm_up_frame_class] checks its arguments before it builds a
    prefetcher: with neither a proportion nor indices, with both, and with
    an empty list of indices it raises a [ValueError] and has printed
    nothing; with a proportion and no entry of the frames directory that
    [frame_*.jpg] matches it raises "No frames found in the frames
    directory", whatever the proportion is.  With a list of indices that
    is not empty it prints the number of frames and calls the constructor
    for that list with a [buffer_size] of 8, 8 workers and the action
    [process].  The call raises nothing; it does not return exactly when
    the future of one of the first 8 indices is found done with a result
    when its callback is registered.  When it returns, the loop starts on
    a prefetcher with these settings, and against every pool that
    completes its futures after their callbacks are registered and whose
    tasks succeed, the loop receives one result per index, in the order of
    the list. *)
Theorem warm_up_frame_class_arguments
    {R F : Type} (within_unit : F → bool) (ceil_times : nat → F → Z)
    (str_float : F → string) (shuffle : list Z → list Z)
    (int : string → outcome Z) (found : nat → lock.timing R)
    (names : list string) :
  let warm_up :=
    utils.warm_up_frame_class (R:=R) within_unit ceil_times str_float shuffle
      int (found 0%nat) in
  warm_up None None names
    = ([], lock.Raises
             (ValueError "Either proportion or indicies must be provided"))
  ∧ (∀ proportion indicies,
       warm_up (Some proportion) (Some indicies) names
       = ([], lock.Raises
                (ValueError "Only one of proportion or indicies can be provided")))
  ∧ warm_up None (Some []) names
    = ([], lock.Raises (ValueError "Indicies must contain at least value"))
  ∧ (∀ proportion,
       filter (λ name, utils.glob_frame_jpg name = true) names = [] →
       warm_up (Some proportion) None names
       = ([], lock.Raises utils.no_frames_found))
  ∧ (∀ indicies,
       indicies ≠ [] →
       (warm_up None (Some indicies) names).1
         = ["Warming up with " +:+ pretty (length indicies) +:+ " frames"]
       ∧ (∀ e, (warm_up None (Some indicies) names).2 ≠ lock.Raises e)
       ∧ ((∃ p, (warm_up None (Some indicies) names).2 = lock.Deadlock p)
          ↔ ∃ idx r, idx ∈ take 8 indicies ∧ found 0%nat idx = Some (Ok r))
       ∧ (∀ s, (warm_up None (Some indicies) names).2 = lock.Returns s →
            ∃ p, s = lock.start p indicies
              ∧ buffer_size p = 8 ∧ max_workers (executor p) = 8
              ∧ action_fn p = process_frame
              ∧ prefetcher.indicies p = indicies
              ∧ (on_time found →
                 ∀ sched, ∃ ds,
                   lock.consume sched found 0 p indicies = Some ds
                   ∧ index <$> ds = indicies))).
Proof.
  intros warm_up. subst warm_up.
  unfold utils.warm_up_frame_class, utils.warm_up_indices.
  split_and!; try done.
  - intros proportion Hnone. unfold utils.get_first_frame_index.
    by rewrite (get_frame_indices_ok int names []) by (by rewrite Hnone).
  - intros indicies Hne. rewrite decide_False by (by destruct indicies).
    cbn [fst snd].
    destruct (lock_init_cases (found 0%nat) indicies 8 8 "process" valid_process)
      as [Hdead Hret]; [lia | lia |].
    change (Z.to_nat 8) with 8%nat in Hdead, Hret.
    split_and!; [done | | |].
    + intros e.
      pose proof (lock_init_plain (found 0%nat) indicies 8 8 "process") as Hp.
      by destruct (lock.__init__ (found 0%nat) indicies 8 8 "process").
    + rewrite <- Hdead.
      destruct (lock.__init__ (found 0%nat) indicies 8 8 "process");
        split; intros [? ?]; try done; eauto.
    + intros s.
      destruct (lock.__init__ (found 0%nat) indicies 8 8 "process")
        as [p | e | p] eqn:Hinit; try done.
      intros [= <-]. exists p.
      destruct (lock_init_fields (found 0%nat) indicies 8 8 "process" p
                  valid_process ltac:(lia) ltac:(lia) Hinit)
        as (Hbs & Hnw & Hi & Hc & _ & Hfn & _).
      split_and!; try done; [by injection Hfn |].
      intros Htime sched.
      apply (lock_init_on_time _ _ _ _ _ _ (Htime 0%nat)) in Hinit.
      destruct (init_invariants _ _ _ _ _ Hinit) as (Hco & Hcov & _ & Hnf).
      apply consume_delivers; try done; [lia | by rewrite Hc, Hi].
Qed.

(** X15.  [process_frames] builds its prefetcher first and checks the
    input video afterwards.  With an empty index list the pool refuses its
    size of 0 and nothing else is looked at.  With any other list the
    constructor does not return exactly when the future of one of the
    first 32 indices is found done with a result when its callback is
    registered, and then no check is made, whatever the video is.
    Otherwise the prefetcher is built, with the first index marked in
    progress, before a missing video raises [FileNotFoundError] or a frame
    rate that is not positive raises [ValueError]. *)
Theorem process_frames_checks_come_after_the_prefetcher
    {R F : Type} (not_positive : F → bool) (str_float : F → string)
    (found : lock.timing R) (indices : list Z)
    (input_video_path : string) (video_exists : bool) (fps : F) :
  let r := pipeline.checks not_positive str_float found indices
             input_video_path video_exists fps in
  (indices = [] →
     r = lock.Raises (ValueError "max_workers must be greater than 0"))
  ∧ (∀ idx rest,
       indices = idx :: rest →
       ((∃ p, r = lock.Deadlock p)
        ↔ ∃ i r0, i ∈ take 32 indices ∧ found i = Some (Ok r0))
       ∧ ((∀ i r0, i ∈ take 32 indices → found i ≠ Some (Ok r0)) →
          ∃ p : FramePrefetcher R,
            lock.__init__ found indices (driver.pool_size indices)
              (driver.pool_size indices) "process" = lock.Returns p
            ∧ idx ∈ in_progress p
            ∧ r = if negb video_exists
                  then lock.Raises
                         (FileNotFoundError
                            ("Input video " +:+ input_video_path
                             +:+ " does not exist"))
                  else if not_positive fps
                  then lock.Raises
                         (ValueError
                            ("Input video " +:+ input_video_path
                             +:+ " has a FPS of " +:+ str_float fps
                             +:+ ". Must be positive"))
                  else lock.Returns p)).
Proof.
  intros r. subst r. split.
  - intros ->. done.
  - intros idx rest ->. unfold pipeline.checks.
    set (n := driver.pool_size (idx :: rest)).
    assert (Hn : 1 ≤ n) by apply pool_size_positive.
    destruct (lock_init_cases found (idx :: rest) n n "process" valid_process)
      as [Hdead Hret]; [lia | lia |].
    unfold n in Hdead, Hret. rewrite pool_size_take in Hdead, Hret. fold n in Hdead, Hret.
    split.
    + rewrite <- Hdead.
      destruct (lock.__init__ found (idx :: rest) n n "process") as [p | e | p];
        [| by split; intros [? ?] | by split; eauto].
      split; [| by intros [? ?]].
      intros [q Hq]. by destruct (negb video_exists), (not_positive fps).
    + intros Hnone. apply Hret in Hnone as [p Hp]. rewrite Hp. exists p.
      destruct (lock_init_fields found (idx :: rest) n n "process" p
                  valid_process ltac:(lia) ltac:(lia) Hp)
        as (_ & _ & _ & _ & _ & _ & Hin).
      split_and!; [done | | done].
      rewrite Hin. apply elem_of_list_to_set.
      destruct (Z.to_nat n) as [| k] eqn:Hk; [lia |]. simpl. set_solver.
Qed.

Lemma process_frames_checks_come_after_the_prefetcher_witness :
  (∃ p : FramePrefetcher (),
     pipeline.checks (λ fps : Z, fps <=? 0) pretty (λ _, Some (Ok ()))
       [5; 6] "in.mp4" false 0
     = lock.Deadlock p)
  ∧ pipeline.checks (R:=()) (λ fps : Z, fps <=? 0) pretty (λ _, None)
      [] "in.mp4" false 0
    = lock.Raises (ValueError "max_workers must be greater than 0").
Proof.
  destruct (process_frames_checks_come_after_the_prefetcher
              (R:=()) (λ fps : Z, fps <=? 0) pretty (λ _, Some (Ok ()))
              [5; 6] "in.mp4" false 0) as [_ H].
  destruct (H 5 [6] eq_refl) as [Hdead _].
  split.
  - apply Hdead. exists 5, (). split; [set_solver | done].
  - exact (proj1 (process_frames_checks_come_after_the_prefetcher
                    (R:=()) (λ fps : Z, fps <=? 0) pretty (λ _, None)
                    [] "in.mp4" false 0) eq_refl).
Defined.

Section Loop.
Context {R I A : Type}.
Variable as_processed_frame : R → option I.
Variable analysis_function : option (A → R → outcome R * A).
Variable has_output : bool.
Implicit Types (p : FramePrefetcher R) (sched : nat → nat * R).
Implicit Types (found : nat → lock.timing R).



End Loop.



(** ** The analysis of the robot video ([RobotUpsideDownAnalysis]) *)

Section Analysis.
Import frames robot_analysis_function.
Context {I : Type}.
Variable shape : I → Z * Z.
Variable putText : I → string → Z * Z → Z → Q → Z * Z * Z → Z → I.
Implicit Types (self : RobotUpsideDownAnalysis) (frs : list (frame I)).

Lemma analyze_frame_ok self fr fr' self' :
  analyze_frame shape putText self fr = (Ok fr', self') →
  robot_upside_down_frame_count self'
  = (robot_upside_down_frame_count self + if upside_down fr then 1 else 0)%nat
  ∧ f_index fr' = f_index fr ∧ f_metadata fr' = f_metadata fr
  ∧ f_image fr' = draw_state shape putText self' (f_image fr).
Proof.
  unfold analyze_frame, upside_down.
  destruct (f_metadata fr !! "is_upside_down") as [v |]; [| done].
  intros [= <- <-]. simpl. split_and!; try done.
  destruct (truthy v); simpl; lia.
Qed.

Lemma analyze_frames_ok frs :
  ∀ self frs' self',
  analyze_frames shape putText self frs = (Ok frs', self') →
  robot_upside_down_frame_count self'
  = (robot_upside_down_frame_count self
     + length (filter (λ fr, upside_down fr = true) frs))%nat
  ∧ f_index <$> frs' = f_index <$> frs
  ∧ f_metadata <$> frs' = f_metadata <$> frs.
Proof.
  induction frs as [| fr frs IH]; intros self frs' self'; simpl.
  - intros [= <- <-]. split_and!; [lia | done..].
  - destruct (analyze_frame shape putText self fr) as [[fr1 | e] self1] eqn:H1;
      [| done].
    destruct (analyze_frames shape putText self1 frs) as [[frs1 | e] self2] eqn:H2;
      [| done].
    intros [= <- <-].
    destruct (analyze_frame_ok _ _ _ _ H1) as (Hc1 & Hi1 & Hm1 & _).
    destruct (IH _ _ _ H2) as (Hc2 & Hi2 & Hm2).
    rewrite filter_cons, !fmap_cons, Hi1, Hm1, Hi2, Hm2, Hc2, Hc1.
    split_and!; try done.
    destruct (upside_down fr); [rewrite decide_True by done
                               | rewrite decide_False by done]; simpl; lia.
Qed.

Lemma analyze_frames_total frs :
  ∀ self,
  (∀ fr, fr ∈ frs → is_Some (f_metadata fr !! "is_upside_down")) →
  ∃ frs', (analyze_frames shape putText self frs).1 = Ok frs'.
Proof.
  induction frs as [| fr frs IH]; intros self Hall; simpl; [by eauto |].
  unfold analyze_frame at 1.
  destruct (Hall fr ltac:(set_solver)) as [v ->].
  match goal with
  | |- context [analyze_frames shape putText ?s frs] =>
      destruct (IH s) as [frs' Hfrs']; [set_solver |];
      destruct (analyze_frames shape putText s frs) as [[? | ?] ?];
      simpl in *; [by eauto | done]
  end.
Qed.

Lemma analyze_frames_raises frs :
  ∀ self e,
  (analyze_frames shape putText self frs).1 = Raise e →
  e = KeyError "is_upside_down"
  ∧ ∃ fr, fr ∈ frs ∧ f_metadata fr !! "is_upside_down" = None.
Proof.
  induction frs as [| fr frs IH]; intros self e; simpl; [done |].
  unfold analyze_frame at 1.
  destruct (f_metadata fr !! "is_upside_down") as [v |] eqn:Hv.
  - match goal with
    | |- context [analyze_frames shape putText ?s frs] =>
        specialize (IH s e);
        destruct (analyze_frames shape putText s frs) as [[? | e'] ?];
        simpl in *; [done |]
    end.
    intros [= ->]. destruct (IH eq_refl) as (-> & fr' & ? & ?).
    split; [done |]. exists fr'. split; [set_solver | done].
  - simpl. intros [= <-]. split; [done |]. exists fr. split; [set_solver | done].
Qed.

End Analysis.

(** X17.  [RobotUpsideDownAnalysis.analyze_frame] applied to the frames of
    a run in their order: when it returns for all of them, the counter has
    grown by the number of frames whose [is_upside_down] is true (a null
    answer does not count), and the frames come back in the same order
    with their indices and metadata as they were.  It returns for all of
    them when each frame's metadata has the key; the only thing it raises
    is the [KeyError] of a frame without the key. *)
Theorem analysis_counts_upside_down_frames
    {I : Type} (shape : I → Z * Z)
    (putText : I → string → Z * Z → Z → Q → Z * Z * Z → Z → I)
    (self : robot_analysis_function.RobotUpsideDownAnalysis)
    (frs : list (robot_analysis_function.frame I)) :
  let r := robot_analysis_function.analyze_frames shape putText self frs in
  (∀ frs', r.1 = Ok frs' →
     robot_analysis_function.robot_upside_down_frame_count r.2
     = (robot_analysis_function.robot_upside_down_frame_count self
        + length (filter (λ fr, upside_down fr = true) frs))%nat
     ∧ robot_analysis_function.f_index <$> frs'
       = robot_analysis_function.f_index <$> frs
     ∧ robot_analysis_function.f_metadata <$> frs'
       = robot_analysis_function.f_metadata <$> frs)
  ∧ ((∀ fr, fr ∈ frs →
        is_Some (robot_analysis_function.f_metadata fr !! "is_upside_down")) →
     ∃ frs', r.1 = Ok frs')
  ∧ (∀ e, r.1 = Raise e →
       e = KeyError "is_upside_down"
       ∧ ∃ fr, fr ∈ frs
           ∧ robot_analysis_function.f_metadata fr !! "is_upside_down" = None).
Proof.
  intros r. subst r. split_and!.
  - intros frs' Hr.
    destruct (robot_analysis_function.analyze_frames shape putText self frs)
      as [res self'] eqn:Ha. simpl in Hr. subst res.
    by apply (analyze_frames_ok shape putText frs self frs' self').
  - apply analyze_frames_total.
  - apply analyze_frames_raises.
Qed.

Lemma analysis_counts_upside_down_frames_witness :
  robot_analysis_function.robot_upside_down_frame_count
    (robot_analysis_function.analyze_frames
       (λ _ : list string, (480, 640))
       (λ image text _ _ _ _ _, image ++ [text])
       robot_analysis_function.__init__
       [ {| robot_analysis_function.f_index := 0;
            robot_analysis_function.f_image := [];
            robot_analysis_function.f_metadata :=
              {[ "iq_id" := frames.JStr "iq_1";
                 "is_upside_down" := frames.JBool true ]} |};
         {| robot_analysis_function.f_index := 1;
            robot_analysis_function.f_image := [];
            robot_analysis_function.f_metadata :=
              {[ "iq_id" := frames.JStr "iq_2";
                 "is_upside_down" := frames.JNull ]} |} ]).2
  = 1%nat.
Proof.
  edestruct (analysis_counts_upside_down_frames
               (λ _ : list string, (480, 640))
               (λ image text _ _ _ _ _, image ++ [text])
               robot_analysis_function.__init__
               [ {| robot_analysis_function.f_index := 0;
                    robot_analysis_function.f_image := [];
                    robot_analysis_function.f_metadata :=
                      {[ "iq_id" := frames.JStr "iq_1";
                         "is_upside_down" := frames.JBool true ]} |};
                 {| robot_analysis_function.f_index := 1;
                    robot_analysis_function.f_image := [];
                    robot_analysis_function.f_metadata :=
                      {[ "iq_id" := frames.JStr "iq_2";
                         "is_upside_down" := frames.JNull ]} |} ])
    as (H & _ & _).
  edestruct H as (Hc & _ & _); [vm_compute; reflexivity |].
  exact Hc.
Defined.

(** ** Answers are kept ([has_answer] after [process] and [update]) *)

Section AnswersKept.
Import frames robot_frames.
Implicit Types (gl : Groundlight) (w : World).

Lemma answered_do_call gl idx c w idx' :
  answered w idx' = true → answered (do_call gl idx c w) idx' = true.
Proof.
  unfold answered. destruct (answer_of w idx') as [a |] eqn:Ha; [| done].
  intros Hn. destruct (decide (idx' = idx)) as [-> | Hne].
  - destruct (do_call_answer_non_null gl idx c w a Ha) as (a' & -> & Hne');
      [by destruct a | by destruct a'].
  - unfold answer_of in *.
    destruct (do_call_world gl idx c w) as [-> | (m & rqs & ->)].
    + by rewrite Ha.
    + rewrite record_of_store_ne by done. by rewrite Ha.
Qed.

Lemma filter_length_mono (P Q : Z → bool) (l : list Z) :
  (∀ x, P x = true → Q x = true) →
  (length (filter (λ x, P x = true) l)
   ≤ length (filter (λ x, Q x = true) l))%nat.
Proof.
  intros HPQ. induction l as [| x l IH]; [done |].
  rewrite !filter_cons. destruct (P x) eqn:HP.
  - rewrite (HPQ x HP). simpl. lia.
  - simpl. destruct (Q x); simpl; lia.
Qed.

End AnswersKept.

(** X18.  Answers are kept: through any sequence of [process] and [update]
    calls, each for any index, an index whose record held an answer that is
    not null still holds one, so the number of answered entries of any list
    of indices, which is what [proportion_with_answer] counts with
    [RobotFrame.has_answer], does not decrease. *)
Theorem answered_frames_stay_answered
    (gl : robot_frames.Groundlight)
    (calls : list (Z * robot_frames.frame_call)) (w : robot_frames.World) :
  let w' := foldl (λ w ic, robot_frames.do_call gl ic.1 ic.2 w) w calls in
  (∀ idx, answered w idx = true → answered w' idx = true)
  ∧ (∀ indices,
       (length (filter (λ idx, answered w idx = true) indices)
        ≤ length (filter (λ idx, answered w' idx = true) indices))%nat).
Proof.
  intros w'. subst w'.
  assert (Hkeep : ∀ idx, answered w idx = true →
            answered (foldl (λ w ic, robot_frames.do_call gl ic.1 ic.2 w) w calls)
                     idx = true).
  { revert w. induction calls as [| [i c] calls IH]; intros w idx Ha; simpl; [done |].
    apply IH. by apply answered_do_call. }
  split; [done |]. intros indices. by apply filter_length_mono.
Qed.

(** ** Splitting a video into frames ([split_video]) *)

Section SplitVideo.
Import split_video.
Context {F Img : Type}.
Variable imwrite_ok : string → Img → bool.
Implicit Types (st : state (Img:=Img)) (frames : list (option Img)).






End SplitVideo.



(** ** What the prefetcher prints *)

Section PrefetcherLog.
Context {R : Type}.
Implicit Types (p : FramePrefetcher R) (s : system R).

Lemma step_printed s ev s' :
  coherent (pf s) → step s ev = Some s' →
  coherent (pf s')
  ∧ printed (pf s') = printed (pf s) ++ option_list (error_line ev).
Proof.
  intros Hco Hs.
  apply step_cases in Hs
    as [(idx & acted & -> & Hin & ->)
       | [(-> & -> & _) | (idx & rest & data & -> & _ & _ & Hget & _)]].
  - split; [by apply worker_done_coherent |]. cbn [pf].
    destruct acted as [r | e].
    + rewrite worker_done_ok by (by apply (pending_marked _ Hco)).
      simpl. by rewrite app_nil_r.
    + by rewrite worker_done_raise.
  - split; [done |]. simpl. by rewrite app_nil_r.
  - split; [by eapply get_frame_coherent |].
    apply get_frame_returned in Hget as (_ & _ & ->).
    rewrite schedule_unfold. simpl. by rewrite app_nil_r.
Qed.

Lemma run_printed_lines (tr : list (event R)) s s' :
  coherent (pf s) → run s tr = Some s' →
  printed (pf s') = printed (pf s) ++ omap error_line tr.
Proof.
  revert s. induction tr as [| ev tr IH]; intros s Hco; simpl.
  - intros [= <-]. by rewrite app_nil_r.
  - destruct (step s ev) as [s1 |] eqn:Hs; [| done]. intros Hrun.
    destruct (step_printed _ _ _ Hco Hs) as [Hco1 Hp].
    rewrite (IH _ Hco1 Hrun), Hp, <- app_assoc. f_equal.
    by destruct (error_line ev).
Qed.

End PrefetcherLog.

(** X20.  The prefetcher prints one line for every task that failed, with
    the exception of the task, in the order in which the tasks failed, and
    nothing else: the [KeyError] that [in_progress.remove] could raise in
    the callback never occurs, whatever the sequence (repeats included),
    the buffer size and the interleaving of the workers with the
    consumer. *)
Theorem prefetcher_prints_one_line_per_failed_task
    {R : Type} (S : list Z) (bs : Z) (nw : Z) (action : string)
    (p0 : FramePrefetcher R) (seq : list Z) (tr : list (event R))
    (s : system R) :
  __init__ S bs nw action = Ok p0 →
  run (start p0 seq) tr = Some s →
  printed (pf s) = omap error_line tr.
Proof.
  intros Hinit Hrun.
  destruct (init_invariants _ _ _ _ _ Hinit) as (Hco & _).
  rewrite (run_printed_lines tr (start p0 seq) s Hco Hrun). cbn [start pf].
  apply init_unfold in Hinit as [fn ->]. by rewrite schedule_unfold.
Qed.

Lemma prefetcher_prints_one_line_per_failed_task_witness :
  ∃ (p0 : FramePrefetcher ()) (s : system ()),
    __init__ [0; 1; 2] 2 8 "process" = Ok p0
    ∧ run (start p0 [0; 1; 2])
          [WorkerDone 1 (Raise (FileNotFoundError (frames.frame_not_found_message 1)));
           WorkerDone 0 (Ok ()); ConsumerPoll;
           WorkerDone 2 (Raise (ValueError "no answer"))] = Some s
    ∧ printed (pf s) =
        ["Error fetching frame: Frame data/frames/frame_1.jpg does not exist";
         "Error fetching frame: no answer"].
Proof.
  eexists _, _.
  split; [vm_compute; reflexivity |].
  split; [vm_compute; reflexivity |].
  refine (prefetcher_prints_one_line_per_failed_task
            [0; 1; 2] 2 8 "process" _ [0; 1; 2]
            [WorkerDone 1 (Raise (FileNotFoundError (frames.frame_not_found_message 1)));
             WorkerDone 0 (Ok ()); ConsumerPoll;
             WorkerDone 2 (Raise (ValueError "no answer"))] _ _ _).
  - vm_compute; reflexivity.
  - vm_compute; reflexivity.
Defined.
